(** * Buzzer: a shallow embedding of the Buzz! dongle driver

    The development follows the JavaScript sources:
    - [BUTTONS_DATA] (constants.js), [EVENTS] (event.js), [CustomError]
      (error/CustomError.js), [formatEvent] (utils.js);
    - the closure returned by [Buzzer()] (index.js): its variables are the
      fields of [Session], its inner functions are computations in the
      state-and-exception monad [M].

    JavaScript is single threaded: the session is driven by a sequence of
    [Event]s (API calls, microtasks, timers, input reports), each of which
    runs to completion.  Collaborators outside the repository (the usb and
    node-hid bindings) are answered by a [World] oracle; node's
    [EventEmitter] is modelled with its documented semantics (listeners run
    synchronously in subscription order, an exception raised by a listener
    propagates to the caller of [emit], and an 'error' event without any
    listener is thrown).  Consumer callbacks are observers: they receive
    their argument and either return or throw.  The functions that the
    subscriptions return to unsubscribe are no events of [Event]: they are
    modelled apart, as [Unsubscription]s, and no listener is removed in a
    run of [run]. *)

From Stdlib Require Import ZArith Lia.
From Stdlib.Strings Require Import Byte HexString.
From stdpp Require Import base tactics option list sets strings pretty.

Local Open Scope string_scope.
Set Warnings "-register-all".

(** ** JavaScript numbers, buffers and arrays *)

Module Js.
Local Open Scope Z_scope.

(** ToInt32 of ECMAScript: the operand of a bitwise operator wraps to a
    signed 32-bit integer. *)
Definition ToInt32 (x : Z) : Z :=
  let m := x mod 2 ^ 32 in
  if m <? 2 ^ 31 then m else m - 2 ^ 32.

(** [a | b], [a & b] and [a << n] on numbers. *)
Definition bitor (a b : Z) : Z := ToInt32 (Z.lor (ToInt32 a) (ToInt32 b)).
Definition bitand (a b : Z) : Z := ToInt32 (Z.land (ToInt32 a) (ToInt32 b)).
Definition shl (a n : Z) : Z := ToInt32 (Z.shiftl (ToInt32 a) (n mod 32)).

(** A node [Buffer] is a sequence of bytes. *)
Abbreviation Buffer := (list byte).

Definition byte_value (b : byte) : Z := Z.of_N (Byte.to_N b).

(** [buf.readUInt8(off)] and [buf.readUInt16LE(off)]; [None] stands for
    the RangeError node raises when the read leaves the buffer. *)
Definition readUInt8 (buf : Buffer) (off : nat) : option Z :=
  byte_value <$> buf !! off.

Definition readUInt16LE (buf : Buffer) (off : nat) : option Z :=
  match readUInt8 buf off, readUInt8 buf (S off) with
  | Some lo, Some hi => Some (lo + 256 * hi)
  | _, _ => None
  end.

(** An array of booleans.  A slot that was never written reads as
    [undefined], which is [None] here. *)
Abbreviation BoolArray := (list (option bool)).

(** [arr[i]] *)
Definition get (arr : BoolArray) (i : nat) : option bool :=
  default None (arr !! i).

(** [arr[i] = v]: in range the slot is overwritten, out of range the
    array grows up to index [i], leaving holes in between. *)
Definition set (arr : BoolArray) (i : nat) (v : bool) : BoolArray :=
  if decide (i < length arr)%nat
  then <[i := Some v]> arr
  else (arr ++ replicate (i - length arr)%nat None ++ [Some v])%list.

(** [a !== b] between a boolean and an array slot. *)
Definition strict_neq (a : bool) (b : option bool) : bool :=
  match b with
  | Some b' => negb (Bool.eqb a b')
  | None => true
  end.
End Js.

(** ** constants.js: the button registry *)

Record Button := {
  name : string;
  color : string;
  controller : Z;
  button : Z;
  bit : Z
}.

Definition BUTTONS_DATA : list Button := [
  (* Controller 1 *)
  {| name := "C1_RED"; color := "red"; controller := 1; button := 0; bit := 0x000001 |};
  {| name := "C1_BLUE"; color := "blue"; controller := 1; button := 1; bit := 0x000010 |};
  {| name := "C1_ORANGE"; color := "orange"; controller := 1; button := 2; bit := 0x000008 |};
  {| name := "C1_GREEN"; color := "green"; controller := 1; button := 3; bit := 0x000004 |};
  {| name := "C1_YELLOW"; color := "yellow"; controller := 1; button := 4; bit := 0x000002 |};
  (* Controller 2 *)
  {| name := "C2_RED"; color := "red"; controller := 2; button := 0; bit := 0x000020 |};
  {| name := "C2_BLUE"; color := "blue"; controller := 2; button := 1; bit := 0x000200 |};
  {| name := "C2_ORANGE"; color := "orange"; controller := 2; button := 2; bit := 0x000100 |};
  {| name := "C2_GREEN"; color := "green"; controller := 2; button := 3; bit := 0x000080 |};
  {| name := "C2_YELLOW"; color := "yellow"; controller := 2; button := 4; bit := 0x000040 |};
  (* Controller 3 *)
  {| name := "C3_RED"; color := "red"; controller := 3; button := 0; bit := 0x000400 |};
  {| name := "C3_BLUE"; color := "blue"; controller := 3; button := 1; bit := 0x004000 |};
  {| name := "C3_ORANGE"; color := "orange"; controller := 3; button := 2; bit := 0x002000 |};
  {| name := "C3_GREEN"; color := "green"; controller := 3; button := 3; bit := 0x001000 |};
  {| name := "C3_YELLOW"; color := "yellow"; controller := 3; button := 4; bit := 0x000800 |};
  (* Controller 4 *)
  {| name := "C4_RED"; color := "red"; controller := 4; button := 0; bit := 0x008000 |};
  {| name := "C4_BLUE"; color := "blue"; controller := 4; button := 1; bit := 0x080000 |};
  {| name := "C4_ORANGE"; color := "orange"; controller := 4; button := 2; bit := 0x040000 |};
  {| name := "C4_GREEN"; color := "green"; controller := 4; button := 3; bit := 0x020000 |};
  {| name := "C4_YELLOW"; color := "yellow"; controller := 4; button := 4; bit := 0x010000 |}
]%Z.

Arguments BUTTONS_DATA : simpl never.

(** ** event.js *)

Module EVENTS.
Definition PRESS : string := "press".
Definition RELEASE : string := "release".
Definition READY : string := "ready".
Definition ERROR : string := "error".
End EVENTS.

(** ** Exceptions

    [CustomError] is the repository's error class (its [details] carry the
    cause when one is given); the other constructors are the exceptions of
    the collaborators: node's ERR_UNHANDLED_ERROR, a RangeError of a buffer
    read, an exception of the usb or node-hid binding, and whatever a
    consumer callback throws. *)

Inductive Exn :=
| CustomError (message : string) (cause : option Exn)
| UnhandledError (context : string)
| RangeError
| HostError (what : string)
| CallbackError (tag : nat).

(** [err.message || fallback] *)
Definition message_or (err : Exn) (fallback : string) : string :=
  let m := match err with
           | CustomError message _ => message
           | UnhandledError context => "Unhandled error. ('" ++ context ++ "')"
           | RangeError => "The value of offset is out of range."
           | HostError what => what
           | CallbackError _ => ""
           end in
  if decide (m = "") then fallback else m.

(** ** Events and their consumers *)

(** The object published on the press and release channels,
    [{ ...button, type: eventType }]. *)
Record RawEvent := {
  source : Button;
  type : string
}.

(** Values of the properties of the object handed to consumers. *)
Inductive JsValue :=
| JNumber (z : Z)
| JString (s : string)
| JBoolean (b : bool).

(** An object literal, as the list of its properties in the order they are
    written. *)
Definition JsObject : Type := list (string * JsValue).

Fixpoint prop (o : JsObject) (key : string) : option JsValue :=
  match o with
  | [] => None
  | (k, v) :: o' => if decide (k = key) then Some v else prop o' key
  end.

(** utils.js *)
Definition formatEvent (original : RawEvent) (eventType : string) : JsObject :=
  let isPressed := bool_decide (eventType = EVENTS.PRESS) in
  [ ("controller", JNumber (controller (source original)));
    ("button", JNumber (button (source original)));
    ("Name", JString (name (source original)));
    ("color", JString (color (source original)));
    ("pressed", JBoolean isPressed);
    ("state", JString (if isPressed then "pressed" else "released")) ].

(** What is published on the error channel: a message or an error object. *)
Inductive ErrorPayload :=
| EText (msg : string)
| EExn (err : Exn).

(** A consumer callback: an identity and, for each argument, whether the
    call returns ([None]) or throws. *)
Record Callback (A : Type) := {
  cb_id : nat;
  cb_run : A -> option Exn
}.
Arguments cb_id {A} _.
Arguments cb_run {A} _ _.

(** The three subscriptions to button events wrap the consumer callback in
    a handler that formats the published object first. *)
Inductive Subscription := ViaOnPress | ViaOnRelease | ViaOnChange.

Record ButtonListener := {
  via : Subscription;
  consumer : Callback JsObject
}.

(** The listeners of the session's [EventEmitter], one FIFO list per event
    name of [EVENTS]. *)
Record EventEmitter := {
  press_listeners : list ButtonListener;
  release_listeners : list ButtonListener;
  ready_listeners : list (Callback unit);
  error_listeners : list (Callback ErrorPayload)
}.

(** ** Promises, microtasks and timers *)

Inductive Result (A : Type) :=
| Return (a : A)
| Throw (e : Exn).
Arguments Return {A} a.
Arguments Throw {A} e.

Definition PromiseId : Type := nat.

(** What a caller of [ensureReady] chains on the promise it receives. *)
Inductive Reaction :=
| ThenSetLeds (api : string) (player1 player2 player3 player4 : bool)
| CatchEmitError
| CatchCall (callback : Callback ErrorPayload).

Record Promise := {
  outcome : option (Result unit);
  reactions : list Reaction
}.

(** What [await ensureReady()] waits for: nothing when the session is
    ready already, the shared promise otherwise. *)
Inductive Awaited :=
| AlreadyReady
| Shared (p : PromiseId).

Inductive Job :=
| ResumeSetup (p : PromiseId) (opened : Result unit)
| React (r : Reaction) (settled : Result unit).

Inductive TimerAction :=
| Leds (on : bool)
| BecomeReady (p : PromiseId).

(** ** Observable effects *)

Inductive UsbCall :=
| FindByIds | Open | Interface0 | DetachKernelDriver | Claim
| HidOpen | StartPoll | StopPoll | Release | DeviceClose | HidClose.

Inductive Effect :=
| FxEmitButton (eventType : string) (ev : RawEvent)
| FxEmitReady
| FxEmitError (payload : ErrorPayload)
| FxDeliver (eventType : string) (callback : nat) (arg : JsObject)
| FxDeliverReady (callback : nat)
| FxDeliverError (callback : nat) (payload : ErrorPayload)
| FxUsb (call : UsbCall)
| FxHidWrite (report : Js.Buffer) (accepted : bool)
| FxSetTimeout (delay : nat) (action : TimerAction)
| FxAwait (api : string) (on : Awaited)
| FxResolved (api : string)
| FxRejected (api : string) (e : Exn)
| FxUncaught (e : Exn)
| FxWarn (msg : string).

(** ** The session: the variables closed over by [Buzzer()] *)

Inductive Handle := handle.

Record Session := {
  ee : EventEmitter;
  device : option Handle;
  iface : option Handle;
  endpoint : option Handle;
  hidDevice : option Handle;
  currentStates : Js.BoolArray;
  isReady : bool;
  readyPromise : option PromiseId;
  (* the runtime around them *)
  promises : list Promise;
  jobs : list Job;
  timers : list (nat * TimerAction);
  now : nat;
  polling : bool;
  trace : list Effect
}.

(** The state in which [Buzzer()] returns. *)
Definition Buzzer : Session := {|
  ee := {| press_listeners := []; release_listeners := [];
           ready_listeners := []; error_listeners := [] |};
  device := None;
  iface := None;
  endpoint := None;
  hidDevice := None;
  currentStates := replicate (length BUTTONS_DATA) (Some false);
  isReady := false;
  readyPromise := None;
  promises := [];
  jobs := [];
  timers := [];
  now := 0;
  polling := false;
  trace := []
|}.

(** Assignments to the session's variables. *)
Definition set_ee (v : EventEmitter) (s : Session) : Session :=
  {| ee := v; device := device s; iface := iface s; endpoint := endpoint s;
     hidDevice := hidDevice s; currentStates := currentStates s;
     isReady := isReady s; readyPromise := readyPromise s;
     promises := promises s; jobs := jobs s; timers := timers s;
     now := now s; polling := polling s; trace := trace s |}.
Definition set_device (v : option Handle) (s : Session) : Session :=
  {| ee := ee s; device := v; iface := iface s; endpoint := endpoint s;
     hidDevice := hidDevice s; currentStates := currentStates s;
     isReady := isReady s; readyPromise := readyPromise s;
     promises := promises s; jobs := jobs s; timers := timers s;
     now := now s; polling := polling s; trace := trace s |}.
Definition set_iface (v : option Handle) (s : Session) : Session :=
  {| ee := ee s; device := device s; iface := v; endpoint := endpoint s;
     hidDevice := hidDevice s; currentStates := currentStates s;
     isReady := isReady s; readyPromise := readyPromise s;
     promises := promises s; jobs := jobs s; timers := timers s;
     now := now s; polling := polling s; trace := trace s |}.
Definition set_endpoint (v : option Handle) (s : Session) : Session :=
  {| ee := ee s; device := device s; iface := iface s; endpoint := v;
     hidDevice := hidDevice s; currentStates := currentStates s;
     isReady := isReady s; readyPromise := readyPromise s;
     promises := promises s; jobs := jobs s; timers := timers s;
     now := now s; polling := polling s; trace := trace s |}.
Definition set_hidDevice (v : option Handle) (s : Session) : Session :=
  {| ee := ee s; device := device s; iface := iface s; endpoint := endpoint s;
     hidDevice := v; currentStates := currentStates s;
     isReady := isReady s; readyPromise := readyPromise s;
     promises := promises s; jobs := jobs s; timers := timers s;
     now := now s; polling := polling s; trace := trace s |}.
Definition set_currentStates (v : Js.BoolArray) (s : Session) : Session :=
  {| ee := ee s; device := device s; iface := iface s; endpoint := endpoint s;
     hidDevice := hidDevice s; currentStates := v;
     isReady := isReady s; readyPromise := readyPromise s;
     promises := promises s; jobs := jobs s; timers := timers s;
     now := now s; polling := polling s; trace := trace s |}.
Definition set_isReady (v : bool) (s : Session) : Session :=
  {| ee := ee s; device := device s; iface := iface s; endpoint := endpoint s;
     hidDevice := hidDevice s; currentStates := currentStates s;
     isReady := v; readyPromise := readyPromise s;
     promises := promises s; jobs := jobs s; timers := timers s;
     now := now s; polling := polling s; trace := trace s |}.
Definition set_readyPromise (v : option PromiseId) (s : Session) : Session :=
  {| ee := ee s; device := device s; iface := iface s; endpoint := endpoint s;
     hidDevice := hidDevice s; currentStates := currentStates s;
     isReady := isReady s; readyPromise := v;
     promises := promises s; jobs := jobs s; timers := timers s;
     now := now s; polling := polling s; trace := trace s |}.
Definition set_promises (v : list Promise) (s : Session) : Session :=
  {| ee := ee s; device := device s; iface := iface s; endpoint := endpoint s;
     hidDevice := hidDevice s; currentStates := currentStates s;
     isReady := isReady s; readyPromise := readyPromise s;
     promises := v; jobs := jobs s; timers := timers s;
     now := now s; polling := polling s; trace := trace s |}.
Definition set_jobs (v : list Job) (s : Session) : Session :=
  {| ee := ee s; device := device s; iface := iface s; endpoint := endpoint s;
     hidDevice := hidDevice s; currentStates := currentStates s;
     isReady := isReady s; readyPromise := readyPromise s;
     promises := promises s; jobs := v; timers := timers s;
     now := now s; polling := polling s; trace := trace s |}.
Definition set_timers (v : list (nat * TimerAction)) (s : Session) : Session :=
  {| ee := ee s; device := device s; iface := iface s; endpoint := endpoint s;
     hidDevice := hidDevice s; currentStates := currentStates s;
     isReady := isReady s; readyPromise := readyPromise s;
     promises := promises s; jobs := jobs s; timers := v;
     now := now s; polling := polling s; trace := trace s |}.
Definition set_now (v : nat) (s : Session) : Session :=
  {| ee := ee s; device := device s; iface := iface s; endpoint := endpoint s;
     hidDevice := hidDevice s; currentStates := currentStates s;
     isReady := isReady s; readyPromise := readyPromise s;
     promises := promises s; jobs := jobs s; timers := timers s;
     now := v; polling := polling s; trace := trace s |}.
Definition set_polling (v : bool) (s : Session) : Session :=
  {| ee := ee s; device := device s; iface := iface s; endpoint := endpoint s;
     hidDevice := hidDevice s; currentStates := currentStates s;
     isReady := isReady s; readyPromise := readyPromise s;
     promises := promises s; jobs := jobs s; timers := timers s;
     now := now s; polling := v; trace := trace s |}.
Definition set_trace (v : list Effect) (s : Session) : Session :=
  {| ee := ee s; device := device s; iface := iface s; endpoint := endpoint s;
     hidDevice := hidDevice s; currentStates := currentStates s;
     isReady := isReady s; readyPromise := readyPromise s;
     promises := promises s; jobs := jobs s; timers := timers s;
     now := now s; polling := polling s; trace := v |}.

(** ** The monad of the inner functions: session state and exceptions *)

Definition M (A : Type) : Type := Session -> Result A * Session.

Definition ret {A} (a : A) : M A := fun s => (Return a, s).

Definition bind {A B} (m : M A) (k : A -> M B) : M B :=
  fun s => match m s with
           | (Return a, s') => k a s'
           | (Throw e, s') => (Throw e, s')
           end.

Notation "'let*' x ':=' m 'in' k" := (bind m (fun x => k))
  (at level 10, x name, m at level 100, k at level 200).
Notation "m ';;' k" := (bind m (fun _ => k))
  (at level 100, k at level 200, right associativity).

Definition throw {A} (e : Exn) : M A := fun s => (Throw e, s).

(** [try { m } catch (err) { h err }] *)
Definition try_catch {A} (m : M A) (h : Exn -> M A) : M A :=
  fun s => match m s with
           | (Throw e, s') => h e s'
           | r => r
           end.

(** Runs [m] and hands back how it ended: the settlement of the promise
    of an async function, or of a callback run by the event loop. *)
Definition attempt {A} (m : M A) : M (Result A) :=
  fun s => let '(r, s') := m s in (Return r, s').

Definition gets {A} (f : Session -> A) : M A := fun s => (Return (f s), s).
Definition modify (f : Session -> Session) : M unit := fun s => (Return tt, f s).
Definition log (fx : Effect) : M unit :=
  modify (fun s => set_trace (trace s ++ [fx])%list s).

(** [list.forEach((x, index) => body)] *)
Fixpoint forEach_from {A} (body : A -> nat -> M unit) (l : list A) (index : nat) : M unit :=
  match l with
  | [] => ret tt
  | x :: l' => body x index ;; forEach_from body l' (S index)
  end.
Definition forEach {A} (body : A -> nat -> M unit) (l : list A) : M unit :=
  forEach_from body l 0.

(** ** The collaborators

    The usb and node-hid bindings are not part of the repository: a
    [World] says, for each of their calls, whether it succeeds. *)

Record UsbEndpoint := {
  direction : string;
  transferType : Z;
  address : Z
}.

Record World := {
  dongle_present : bool;          (* findByIds(VID, PID) finds the dongle *)
  open_fails : bool;              (* device.open() throws *)
  interface0_present : bool;      (* device.interface(0) is defined *)
  is_win32 : bool;                (* process.platform === 'win32' *)
  kernel_driver_active : bool;    (* iface.isKernelDriverActive?.() *)
  detach_fails : bool;            (* iface.detachKernelDriver() throws *)
  claim_fails : bool;             (* iface.claim() throws *)
  hid_open_fails : bool;          (* new HID.HID(VID, PID) throws *)
  endpoints : list UsbEndpoint;   (* iface.endpoints *)
  startPoll_fails : bool;         (* endpoint.startPoll(..) throws *)
  hid_write_fails : Js.Buffer -> bool;  (* hidDevice.write(report) throws *)
  stopPoll_fails : bool;          (* endpoint.stopPoll() throws *)
  release_fails : bool;           (* iface.release(..) throws *)
  device_close_fails : bool;      (* device.close() throws *)
  hid_close_fails : bool          (* hidDevice.close() throws *)
}.

(** A call into the usb binding. *)
Definition usb (call : UsbCall) (fails : bool) : M unit :=
  log (FxUsb call) ;;
  if fails then throw (HostError "usb") else ret tt.

(** [hidDevice.write(report)] *)
Definition hid_write (w : World) (report : Js.Buffer) : M unit :=
  let fails := hid_write_fails w report in
  log (FxHidWrite report (negb fails)) ;;
  if fails then throw (HostError "hid") else ret tt.

(** ** node:events

    [emit] calls the listeners of the event, in subscription order, in the
    caller's stack: the first listener that throws ends the publication. *)

Fixpoint call_listeners {L} (deliver : L -> Effect) (run : L -> option Exn)
    (listeners : list L) : M unit :=
  match listeners with
  | [] => ret tt
  | l :: listeners' =>
      log (deliver l) ;;
      match run l with
      | Some e => throw e
      | None => call_listeners deliver run listeners'
      end
  end.

(** The handlers that [onPress], [onRelease] and [onChange] subscribe. *)
Definition handler_argument (l : ButtonListener) (originalEvent : RawEvent) : JsObject :=
  match via l with
  | ViaOnPress => formatEvent originalEvent EVENTS.PRESS
  | ViaOnRelease => formatEvent originalEvent EVENTS.RELEASE
  | ViaOnChange => formatEvent originalEvent (type originalEvent)
  end.

Definition button_listeners (eventType : string) (e : EventEmitter) : list ButtonListener :=
  if decide (eventType = EVENTS.PRESS) then press_listeners e
  else if decide (eventType = EVENTS.RELEASE) then release_listeners e
  else [].

(** [ee.emit(eventType, ev)] for the press and release events. *)
Definition emit_button (eventType : string) (ev : RawEvent) : M unit :=
  log (FxEmitButton eventType ev) ;;
  let* ls := gets (fun s => button_listeners eventType (ee s)) in
  call_listeners
    (fun l => FxDeliver eventType (cb_id (consumer l)) (handler_argument l ev))
    (fun l => cb_run (consumer l) (handler_argument l ev))
    ls.

(** [ee.emit(EVENTS.READY)] *)
Definition emit_ready : M unit :=
  log FxEmitReady ;;
  let* ls := gets (fun s => ready_listeners (ee s)) in
  call_listeners (fun l => FxDeliverReady (cb_id l)) (fun l => cb_run l tt) ls.

(** [ee.emit(EVENTS.ERROR, payload)]: without a listener for 'error', the
    emitter throws the payload if it is an error object, and an
    ERR_UNHANDLED_ERROR around it otherwise. *)
Definition emit_error (payload : ErrorPayload) : M unit :=
  log (FxEmitError payload) ;;
  let* ls := gets (fun s => error_listeners (ee s)) in
  match ls with
  | [] => throw (match payload with
                 | EExn err => err
                 | EText msg => UnhandledError msg
                 end)
  | _ => call_listeners (fun l => FxDeliverError (cb_id l) payload)
                        (fun l => cb_run l payload) ls
  end.

(** config.js *)
Definition prefix : string := "[Buzzer]".

(** ** LEDs *)

(** [player ? 0xFF : 0x00] *)
Definition led (player : bool) : byte := if player then xff else x00.

Definition privateSetLeds (w : World) (player1 player2 player3 player4 : bool) : M unit :=
  let* hid := gets hidDevice in
  match hid with
  | None => log (FxWarn (prefix ++ " HID device not available"))
  | Some _ =>
      let report := replicate 8 x00 in
      let report := <[0 := x00]> report in
      let report := <[1 := x00]> report in
      let report := <[2 := led player1]> report in
      let report := <[3 := led player2]> report in
      let report := <[4 := led player3]> report in
      let report := <[5 := led player4]> report in
      let report := <[6 := x00]> report in
      let report := <[7 := x00]> report in
      try_catch (hid_write w report) (fun err =>
        let shortReport :=
          [x00; x00; led player1; led player2; led player3; led player4] in
        try_catch (hid_write w shortReport) (fun innerErr =>
          emit_error (EText "Failed to set LEDs")))
  end.

(** ** The listener of the endpoint's 'data' event *)

(** The body of [BUTTONS_DATA.forEach((button, index) => ..)]. *)
Definition update_button (previousStates : Js.BoolArray) (pressedBits : Z)
    (button : Button) (index : nat) : M unit :=
  let isPressedNow := negb (Js.bitand pressedBits (bit button) =? 0)%Z in
  let wasPressed := Js.get previousStates index in
  modify (fun s => set_currentStates (Js.set (currentStates s) index isPressedNow) s) ;;
  if Js.strict_neq isPressedNow wasPressed then
    let eventType := if isPressedNow then EVENTS.PRESS else EVENTS.RELEASE in
    emit_button eventType {| source := button; type := eventType |}
  else ret tt.

(** [data.readUInt16LE(2) | (data.readUInt8(4) << 16)] *)
Definition pressedBits (data : Js.Buffer) : option Z :=
  match Js.readUInt16LE data 2, Js.readUInt8 data 4 with
  | Some low, Some high => Some (Js.bitor low (Js.shl high 16))
  | _, _ => None
  end.

Definition on_data (data : Js.Buffer) : M unit :=
  if decide (length data < 5) then ret tt
  else
    let* previousStates := gets currentStates in
    match pressedBits data with
    | None => throw RangeError
    | Some pressedBits => forEach (update_button previousStates pressedBits) BUTTONS_DATA
    end.

(** ** Promises *)

Definition enqueue (j : Job) : M unit :=
  modify (fun s => set_jobs (jobs s ++ [j])%list s).

Definition new_promise : M PromiseId :=
  let* p := gets (fun s => length (promises s)) in
  modify (fun s => set_promises
                     (promises s ++ [{| outcome := None; reactions := [] |}])%list s) ;;
  ret p.

(** Resolving or rejecting a pending promise queues a microtask for each
    reaction chained on it; a promise that is settled stays as it is. *)
Fixpoint enqueue_reactions (ks : list Reaction) (r : Result unit) : M unit :=
  match ks with
  | [] => ret tt
  | k :: ks' => enqueue (React k r) ;; enqueue_reactions ks' r
  end.

Definition settle (p : PromiseId) (r : Result unit) : M unit :=
  let* store := gets promises in
  match store !! p with
  | Some {| outcome := None; reactions := ks |} =>
      modify (set_promises (<[p := {| outcome := Some r; reactions := [] |}]> store)) ;;
      enqueue_reactions ks r
  | _ => ret tt
  end.

(** Chaining a reaction on what [ensureReady()] returned. *)
Definition chain (on : Awaited) (k : Reaction) : M unit :=
  match on with
  | AlreadyReady => enqueue (React k (Return tt))
  | Shared p =>
      let* store := gets promises in
      match store !! p with
      | Some {| outcome := Some r |} => enqueue (React k r)
      | Some {| outcome := None; reactions := ks |} =>
          modify (set_promises
                    (<[p := {| outcome := None; reactions := ks ++ [k] |}]> store))
      | None => ret tt
      end
  end.

(** ** USB device management *)

Definition openAndClaim (w : World) : M unit :=
  try_catch
    (log (FxUsb FindByIds) ;;
     modify (set_device (if dongle_present w then Some handle else None)) ;;
     let* dev := gets device in
     match dev with
     | None =>
         let errMsg := "Dongle not found. Check connection and VID/PID." in
         emit_error (EText errMsg) ;;
         throw (CustomError errMsg None)
     | Some _ =>
         usb Open (open_fails w) ;;
         log (FxUsb Interface0) ;;
         modify (set_iface (if interface0_present w then Some handle else None)) ;;
         let* itf := gets iface in
         match itf with
         | None =>
             let errMsg := "Interface 0 not found" in
             emit_error (EText errMsg) ;;
             throw (CustomError errMsg None)
         | Some _ =>
             (if negb (is_win32 w) && kernel_driver_active w
              then usb DetachKernelDriver (detach_fails w)
              else ret tt) ;;
             usb Claim (claim_fails w)
         end
     end)
    (fun err =>
       let errMsg := "Failed to open the connection to the dongle." in
       emit_error (EText errMsg) ;;
       throw (CustomError errMsg (Some err))).

Definition newline : string := String (Ascii.ascii_of_nat 10) "".

Fixpoint join (sep : string) (l : list string) : string :=
  match l with
  | [] => ""
  | [x] => x
  | x :: l' => x ++ sep ++ join sep l'
  end.

Definition findInterruptEndpoint (w : World) : M Handle :=
  match List.find (fun ep => bool_decide (direction ep = "in")
                             && (transferType ep =? 3)%Z) (endpoints w) with
  | Some _ => ret handle
  | None =>
      let errMsg :=
        "No INTERRUPT IN endpoint found!" ++ newline ++
        "Available endpoints:" ++ newline ++
        join newline
          (map (fun e => "  - " ++ direction e ++ " " ++ pretty (transferType e)
                         ++ " (addr " ++ HexString.of_Z (address e) ++ ")")
               (endpoints w)) in
      emit_error (EText errMsg) ;;
      throw (CustomError errMsg None)
  end.

(** ** Setup *)

(** [setupBuzzListener] runs [openAndClaim] in the caller's stack and
    suspends on its [await]; this is the rest of its body, given how
    [openAndClaim] ended.  [polling] records that the endpoint polls and
    that the 'data' listener [on_data] is attached to it. *)
Definition setupBuzzListener_resume (w : World) (opened : Result unit) : M unit :=
  try_catch
    (match opened with
     | Throw e => throw e
     | Return _ => ret tt
     end ;;
     log (FxUsb HidOpen) ;;
     (if hid_open_fails w then throw (HostError "hid")
      else modify (set_hidDevice (Some handle))) ;;
     let* ep := findInterruptEndpoint w in
     modify (set_endpoint (Some ep)) ;;
     usb StartPoll (startPoll_fails w) ;;
     modify (set_polling true))
    (fun err => throw (CustomError "Buzzers setup failed" (Some err))).

(** [setTimeout(action, delay)] *)
Definition setTimeout (action : TimerAction) (delay : nat) : M unit :=
  log (FxSetTimeout delay action) ;;
  modify (fun s => set_timers (timers s ++ [(now s + delay, action)])%list s).

Definition onTime : nat := 350.
Definition offTime : nat := 200.

(** The loop [for (let i = 0; i < cycles; i++)] of the startup animation;
    it returns the final value of [delay]. *)
Fixpoint blink (cycles delay : nat) : M nat :=
  match cycles with
  | 0 => ret delay
  | S cycles' =>
      setTimeout (Leds true) delay ;;
      let delay := delay + onTime in
      setTimeout (Leds false) delay ;;
      let delay := delay + offTime in
      blink cycles' delay
  end.

(** The [.then] callback of [ensureReady]: the executor of the promise it
    returns, which the last timer resolves. *)
Definition startup_animation (p : PromiseId) : M unit :=
  let cycles := 3 in
  let* delay := blink cycles 0 in
  setTimeout (BecomeReady p) (delay + 200).

(** The microtasks that follow the first [ensureReady]: the rest of
    [setupBuzzListener], then the [.then] or the [.catch] callback; an
    exception leaving the [.catch] callback rejects [readyPromise]. *)
Definition resume_setup (w : World) (p : PromiseId) (opened : Result unit) : M unit :=
  let* r := attempt
    (try_catch
       (setupBuzzListener_resume w opened ;; startup_animation p)
       (fun err =>
          let customError := CustomError (message_or err "Setup failed") (Some err) in
          emit_error (EExn customError) ;;
          throw customError)) in
  match r with
  | Return _ => ret tt
  | Throw e => settle p (Throw e)
  end.

Definition ensureReady (w : World) : M Awaited :=
  let* ready := gets isReady in
  if ready then ret AlreadyReady
  else
    let* rp := gets readyPromise in
    match rp with
    | Some p => ret (Shared p)
    | None =>
        let* opened := attempt (openAndClaim w) in
        let* p := new_promise in
        enqueue (ResumeSetup p opened) ;;
        modify (set_readyPromise (Some p)) ;;
        ret (Shared p)
    end.

(** [ensureReady()] as its callers use it: the call, then a reaction
    chained on the result. *)
Definition await_ready (w : World) (api : string) (k : Reaction) : M unit :=
  let* on := ensureReady w in
  log (FxAwait api on) ;;
  chain on k.

(** ** The public API *)

(** The argument of [setLedsarray]: an array, whose elements count by
    their truthiness, or something that is not an array. *)
Inductive Argument :=
| ArrayOf (elements : list bool)
| NotAnArray.

Definition setLeds (w : World) (api : string)
    (player1 player2 player3 player4 : bool) : M unit :=
  await_ready w api (ThenSetLeds api player1 player2 player3 player4).

Definition setLedsarray (w : World) (players : Argument) : M unit :=
  match players with
  | ArrayOf elements =>
      if decide (length elements ≠ 4)
      then throw (CustomError "Invalid array: must be boolean[4]" None)
      else setLeds w "setLedsarray"
             (default false (elements !! 0)) (default false (elements !! 1))
             (default false (elements !! 2)) (default false (elements !! 3))
  | NotAnArray => throw (CustomError "Invalid array: must be boolean[4]" None)
  end.

Definition on_ready_listeners (f : list (Callback unit) -> list (Callback unit))
    (e : EventEmitter) : EventEmitter :=
  {| press_listeners := press_listeners e; release_listeners := release_listeners e;
     ready_listeners := f (ready_listeners e); error_listeners := error_listeners e |}.
Definition on_press_listeners (f : list ButtonListener -> list ButtonListener)
    (e : EventEmitter) : EventEmitter :=
  {| press_listeners := f (press_listeners e); release_listeners := release_listeners e;
     ready_listeners := ready_listeners e; error_listeners := error_listeners e |}.
Definition on_release_listeners (f : list ButtonListener -> list ButtonListener)
    (e : EventEmitter) : EventEmitter :=
  {| press_listeners := press_listeners e; release_listeners := f (release_listeners e);
     ready_listeners := ready_listeners e; error_listeners := error_listeners e |}.
Definition on_error_listeners
    (f : list (Callback ErrorPayload) -> list (Callback ErrorPayload))
    (e : EventEmitter) : EventEmitter :=
  {| press_listeners := press_listeners e; release_listeners := release_listeners e;
     ready_listeners := ready_listeners e; error_listeners := f (error_listeners e) |}.

(** [ee.on(eventName, listener)] appends to the listeners of the event. *)
Definition onReady (callback : Callback unit) : M unit :=
  modify (fun s => set_ee (on_ready_listeners (fun ls => ls ++ [callback])%list (ee s)) s).

Definition onPress (w : World) (callback : Callback JsObject) : M unit :=
  await_ready w "onPress" CatchEmitError ;;
  let handler := {| via := ViaOnPress; consumer := callback |} in
  modify (fun s => set_ee (on_press_listeners (fun ls => ls ++ [handler])%list (ee s)) s).

Definition onRelease (w : World) (callback : Callback JsObject) : M unit :=
  await_ready w "onRelease" CatchEmitError ;;
  let handler := {| via := ViaOnRelease; consumer := callback |} in
  modify (fun s => set_ee (on_release_listeners (fun ls => ls ++ [handler])%list (ee s)) s).

Definition onChange (w : World) (callback : Callback JsObject) : M unit :=
  await_ready w "onChange" CatchEmitError ;;
  let handler := {| via := ViaOnChange; consumer := callback |} in
  modify (fun s => set_ee (on_press_listeners (fun ls => ls ++ [handler])%list (ee s)) s) ;;
  modify (fun s => set_ee (on_release_listeners (fun ls => ls ++ [handler])%list (ee s)) s).

Definition onError (w : World) (callback : Callback ErrorPayload) : M unit :=
  await_ready w "onError" (CatchCall callback) ;;
  modify (fun s => set_ee (on_error_listeners (fun ls => ls ++ [callback])%list (ee s)) s).

(** [close()]: the result tells whether the promise it returns resolves.
    The callback handed to [iface.release] runs outside the [try]: an
    exception in it is uncaught and leaves the promise pending.  The usb
    binding calls that callback in a later turn of the event loop; here it
    runs at the end of the turn of [close()], so that a [CallClose] event
    stands for the call together with the callback of the release, and no
    other event comes between the two. *)
Definition close (w : World) : M bool :=
  try_catch
    (let* ep := gets endpoint in
     match ep with
     | Some _ => usb StopPoll (stopPoll_fails w) ;; modify (set_polling false)
     | None => ret tt
     end ;;
     let* itf := gets iface in
     match itf with
     | Some _ =>
         usb Release (release_fails w) ;;
         let* released := attempt
           (let* dev := gets device in
            match dev with
            | Some _ => usb DeviceClose (device_close_fails w)
            | None => ret tt
            end ;;
            let* hid := gets hidDevice in
            match hid with
            | Some _ => usb HidClose (hid_close_fails w)
            | None => ret tt
            end ;;
            modify (set_isReady false) ;;
            modify (set_readyPromise None)) in
         match released with
         | Return _ => ret true
         | Throw e => log (FxUncaught e) ;; ret false
         end
     | None => ret true
     end)
    (fun err => log (FxWarn (prefix ++ " Close error:")) ;; ret true).

(** ** The event loop *)

(** A timer callback of [ensureReady]. *)
Definition run_timer (w : World) (action : TimerAction) : M unit :=
  match action with
  | Leds on => privateSetLeds w on on on on
  | BecomeReady p =>
      modify (set_isReady true) ;;
      emit_ready ;;
      settle p (Return tt)
  end.

(** A reaction chained on [ensureReady()], once that promise is settled. *)
Definition react (w : World) (k : Reaction) (settled : Result unit) : M unit :=
  match k, settled with
  | ThenSetLeds api player1 player2 player3 player4, Return _ =>
      let* r := attempt (privateSetLeds w player1 player2 player3 player4) in
      match r with
      | Return _ => log (FxResolved api)
      | Throw e => log (FxRejected api e)
      end
  | ThenSetLeds api _ _ _ _, Throw err => log (FxRejected api err)
  | CatchEmitError, Throw err => emit_error (EExn err)
  | CatchCall callback, Throw err =>
      log (FxDeliverError (cb_id callback) (EExn err)) ;;
      match cb_run callback (EExn err) with
      | Some e => throw e
      | None => ret tt
      end
  | _, Return _ => ret tt
  end.

(** The timer that is due first (the earliest registered among equals). *)
Fixpoint earliest (ts : list (nat * TimerAction)) : option (nat * (nat * TimerAction)) :=
  match ts with
  | [] => None
  | t :: ts' =>
      match earliest ts' with
      | Some (i, t') => if decide (t'.1 < t.1) then Some (S i, t') else Some (0, t)
      | None => Some (0, t)
      end
  end.

Inductive Event :=
| CallSetLeds (player1 player2 player3 player4 : bool)
| CallSetLedsarray (players : Argument)
| CallOnReady (callback : Callback unit)
| CallOnPress (callback : Callback JsObject)
| CallOnRelease (callback : Callback JsObject)
| CallOnChange (callback : Callback JsObject)
| CallOnError (callback : Callback ErrorPayload)
| CallClose
| Microtask
| Timer
| Report (data : Js.Buffer).

(** The rejection of the promise of an async API function is recorded in
    the trace. *)
Definition async (api : string) (m : M unit) : M unit :=
  let* r := attempt m in
  match r with
  | Return _ => ret tt
  | Throw e => log (FxRejected api e)
  end.

Definition handle_event (w : World) (ev : Event) : M unit :=
  match ev with
  | CallSetLeds player1 player2 player3 player4 =>
      async "setLeds" (setLeds w "setLeds" player1 player2 player3 player4)
  | CallSetLedsarray players => async "setLedsarray" (setLedsarray w players)
  | CallOnReady callback => onReady callback
  | CallOnPress callback => onPress w callback
  | CallOnRelease callback => onRelease w callback
  | CallOnChange callback => onChange w callback
  | CallOnError callback => onError w callback
  | CallClose =>
      let* resolved := close w in
      if resolved then log (FxResolved "close") else ret tt
  | Microtask =>
      let* queue := gets jobs in
      match queue with
      | [] => ret tt
      | ResumeSetup p opened :: queue' =>
          modify (set_jobs queue') ;; resume_setup w p opened
      | React k settled :: queue' =>
          modify (set_jobs queue') ;; react w k settled
      end
  | Timer =>
      let* ts := gets timers in
      match earliest ts with
      | None => ret tt
      | Some (i, (due, action)) =>
          modify (set_timers (delete i ts)) ;;
          modify (fun s => set_now (now s `max` due) s) ;;
          run_timer w action
      end
  | Report data =>
      let* listening := gets polling in
      if listening then on_data data else ret tt
  end.

(** One turn of the event loop.  An exception that escapes a turn reaches
    the process-wide 'uncaughtException' / 'unhandledRejection' handlers
    the module installs, which keep the process running. *)
Definition step (w : World) (ev : Event) (s : Session) : Session :=
  match handle_event w ev s with
  | (Return _, s') => s'
  | (Throw e, s') => set_trace (trace s' ++ [FxUncaught e])%list s'
  end.

Definition run (evs : list (World * Event)) (s : Session) : Session :=
  foldl (fun s we => step we.1 we.2 s) s evs.

(** ** Unsubscribing

    [onPress], [onRelease], [onChange] and [onError] return a function
    that removes what they subscribed, [() => ee.off(eventName, listener)].
    [ee.off] finds the listener by identity and removes its most recent
    registration.  The callback of [onError] is subscribed as it is, and is
    found by its own identity.  The handlers of the other three are
    function objects that the subscription creates: [Handlers] keeps,
    beside the emitter, the identity of the handler in each position of the
    press and of the release channel. *)

(** The position of the most recent registration of a listener. *)
Fixpoint last_index {A} (same : A -> bool) (listeners : list A) : option nat :=
  match listeners with
  | [] => None
  | l :: listeners' =>
      match last_index same listeners' with
      | Some i => Some (S i)
      | None => if same l then Some 0 else None
      end
  end.

Definition remove_at {A} (i : option nat) (listeners : list A) : list A :=
  match i with
  | Some i => delete i listeners
  | None => listeners
  end.

Definition HandlerId : Type := nat.

Record Handlers := {
  press_handlers : list HandlerId;
  release_handlers : list HandlerId;
  created : nat
}.

Record Tracked := {
  session : Session;
  handlers : Handlers
}.

Definition tracked_Buzzer : Tracked :=
  {| session := Buzzer;
     handlers := {| press_handlers := []; release_handlers := []; created := 0 |} |}.

(** The functions that the subscriptions return. *)
Inductive Unsubscription :=
| OffPress (handler : HandlerId)
| OffRelease (handler : HandlerId)
| OffChange (handler : HandlerId)
| OffError (callback : Callback ErrorPayload).

(** [ee.off(EVENTS.PRESS, handler)] *)
Definition off_press (handler : HandlerId) (t : Tracked) : Tracked :=
  let hs := handlers t in
  let i := last_index (fun h => bool_decide (h = handler)) (press_handlers hs) in
  {| session := set_ee (on_press_listeners (remove_at i) (ee (session t))) (session t);
     handlers := {| press_handlers := remove_at i (press_handlers hs);
                    release_handlers := release_handlers hs;
                    created := created hs |} |}.

(** [ee.off(EVENTS.RELEASE, handler)] *)
Definition off_release (handler : HandlerId) (t : Tracked) : Tracked :=
  let hs := handlers t in
  let i := last_index (fun h => bool_decide (h = handler)) (release_handlers hs) in
  {| session := set_ee (on_release_listeners (remove_at i) (ee (session t))) (session t);
     handlers := {| press_handlers := press_handlers hs;
                    release_handlers := remove_at i (release_handlers hs);
                    created := created hs |} |}.

(** [ee.off(EVENTS.ERROR, callback)] *)
Definition off_error (callback : Callback ErrorPayload) (t : Tracked) : Tracked :=
  let same := fun l : Callback ErrorPayload => bool_decide (cb_id l = cb_id callback) in
  {| session :=
       set_ee (on_error_listeners
                 (fun ls => remove_at (last_index same ls) ls) (ee (session t)))
         (session t);
     handlers := handlers t |}.

Definition unsubscribe (u : Unsubscription) (t : Tracked) : Tracked :=
  match u with
  | OffPress handler => off_press handler t
  | OffRelease handler => off_release handler t
  | OffChange handler => off_release handler (off_press handler t)
  | OffError callback => off_error callback t
  end.

(** A turn of the event loop, with what the call returns to its caller:
    the subscriptions other than [onReady] return the function that
    unsubscribes. *)
Definition turn (w : World) (ev : Event) (t : Tracked) : option Unsubscription * Tracked :=
  let hs := handlers t in
  let handler := created hs in
  let s' := step w ev (session t) in
  match ev with
  | CallOnPress _ =>
      (Some (OffPress handler),
       {| session := s';
          handlers := {| press_handlers := (press_handlers hs ++ [handler])%list;
                         release_handlers := release_handlers hs;
                         created := S handler |} |})
  | CallOnRelease _ =>
      (Some (OffRelease handler),
       {| session := s';
          handlers := {| press_handlers := press_handlers hs;
                         release_handlers := (release_handlers hs ++ [handler])%list;
                         created := S handler |} |})
  | CallOnChange _ =>
      (Some (OffChange handler),
       {| session := s';
          handlers := {| press_handlers := (press_handlers hs ++ [handler])%list;
                         release_handlers := (release_handlers hs ++ [handler])%list;
                         created := S handler |} |})
  | CallOnError callback => (Some (OffError callback), {| session := s'; handlers := hs |})
  | _ => (None, {| session := s'; handlers := hs |})
  end.

(** What happens to a session: turns of the event loop, and calls of the
    functions that subscriptions returned. *)
Inductive Action :=
| Turn (w : World) (ev : Event)
| Unsubscribe (u : Unsubscription).

Definition act (t : Tracked) (a : Action) : Tracked :=
  match a with
  | Turn w ev => (turn w ev t).2
  | Unsubscribe u => unsubscribe u t
  end.

Definition play (actions : list Action) (t : Tracked) : Tracked :=
  foldl act t actions.

(** * The vocabulary of the properties *)

Local Open Scope list_scope.
Local Open Scope nat_scope.

(** ** Reports and the update step *)

(** The field of a report: the bytes at offsets 2 and 3 as a little-endian
    16-bit number, and the byte at offset 4 above them. *)
Definition field_of (b2 b3 b4 : byte) : Z :=
  Z.lor (Js.byte_value b2 + 256 * Js.byte_value b3)
        (Z.shiftl (Js.byte_value b4) 16).

(** [(pressedBits & button.bit) !== 0], as the listener computes it. *)
Definition isPressedNow (pressedBits : Z) (b : Button) : bool :=
  negb (Js.bitand pressedBits (bit b) =? 0)%Z.

(** [(field & descriptor.bitMask) != 0] *)
Definition pressed (field : Z) (b : Button) : bool :=
  negb (Z.land field (bit b) =? 0)%Z.

(** [isPressedNow ? EVENTS.PRESS : EVENTS.RELEASE] *)
Definition eventType_of (isPressedNow : bool) : string :=
  if isPressedNow then EVENTS.PRESS else EVENTS.RELEASE.

(** The update step of [on_data]: the pass over the registry, against a
    snapshot of the stored states. *)
Definition update (field : Z) : M unit :=
  fun s => forEach (update_button (currentStates s) field) BUTTONS_DATA s.

(** What one button contributes to the publications of an update. *)
Definition transition_of (now : bool) (was : option bool) (b : Button)
  : list (string * RawEvent) :=
  if Js.strict_neq now was
  then [(eventType_of now, {| source := b; type := eventType_of now |})]
  else [].

(** The transitions of an update, in registry order: one for each button
    whose new state differs from the stored one. *)
Definition transitions (stored : Js.BoolArray) (field : Z) : list (string * RawEvent) :=
  concat (imap (λ i b, transition_of (pressed field b) (Js.get stored i) b) BUTTONS_DATA).

(** A session after an update: new stored states, a longer trace. *)
Definition updated (s : Session) (tr : list Effect) (cs : Js.BoolArray) : Session :=
  set_trace (trace s ++ tr) (set_currentStates cs s).

(** ** Publications and deliveries *)

(** The listeners a publication reaches, and the exception that ends it. *)
Fixpoint reached {L} (run : L → option Exn) (listeners : list L) : list L * option Exn :=
  match listeners with
  | [] => ([], None)
  | l :: listeners' =>
      match run l with
      | Some e => ([l], Some e)
      | None => let '(ls, r) := reached run listeners' in (l :: ls, r)
      end
  end.

(** How a publication ends, given the exception of a listener, if any. *)
Definition ended (r : option Exn) : Result unit :=
  match r with
  | None => Return tt
  | Some e => Throw e
  end.

(** The delivery of a button event to a listener, and how the listener
    takes it. *)
Definition deliver_button (eventType : string) (ev : RawEvent) (l : ButtonListener) : Effect :=
  FxDeliver eventType (cb_id (consumer l)) (handler_argument l ev).

Definition run_button (ev : RawEvent) (l : ButtonListener) : option Exn :=
  cb_run (consumer l) (handler_argument l ev).

(** No button listener of the emitter throws. *)
Definition quiet (e : EventEmitter) : Prop :=
  ∀ t ev, Forall (λ l, run_button ev l = None) (button_listeners t e).

(** What the emitter throws for an error event nobody listens to. *)
Definition unhandled (payload : ErrorPayload) : Exn :=
  match payload with
  | EExn err => err
  | EText msg => UnhandledError msg
  end.

(** The button publications, the LED reports and the error publications
    of a trace. *)
Definition emitted (tr : list Effect) : list (string * RawEvent) :=
  omap (λ fx, match fx with
              | FxEmitButton t ev => Some (t, ev)
              | _ => None
              end) tr.

Definition hid_writes (tr : list Effect) : list Js.Buffer :=
  omap (λ fx, match fx with FxHidWrite report _ => Some report | _ => None end) tr.

Definition error_publications (tr : list Effect) : list ErrorPayload :=
  omap (λ fx, match fx with FxEmitError payload => Some payload | _ => None end) tr.

(** The effects of an update: publications of button events, and
    deliveries of them to listeners of the emitter. *)
Definition button_effect (e : EventEmitter) (bs : list Button) (fx : Effect) : Prop :=
  match fx with
  | FxEmitButton t ev => True
  | FxDeliver t cb o =>
      ∃ l b, l ∈ button_listeners t e ∧ b ∈ bs ∧
             (t = EVENTS.PRESS ∨ t = EVENTS.RELEASE) ∧
             o = handler_argument l {| source := b; type := t |}
  | _ => False
  end.

(** The object a consumer receives for descriptor [d] on a press or a
    release. *)
Definition consumer_event (eventType : string) (d : Button) : JsObject :=
  [ ("controller", JNumber (controller d));
    ("button", JNumber (button d));
    ("Name", JString (name d));
    ("color", JString (color d));
    ("pressed", JBoolean (bool_decide (eventType = "press")));
    ("state", JString (if bool_decide (eventType = "press") then "pressed" else "released")) ].

(** The handler of [onPress] listens to presses only, that of [onRelease]
    to releases only. *)
Definition well_subscribed (e : EventEmitter) : Prop :=
  Forall (λ l, via l ≠ ViaOnRelease) (press_listeners e) ∧
  Forall (λ l, via l ≠ ViaOnPress) (release_listeners e).

(** A delivery of a button event hands over the object of a descriptor. *)
Definition delivered_ok (fx : Effect) : Prop :=
  match fx with
  | FxDeliver t cb o =>
      ∃ d, d ∈ BUTTONS_DATA ∧ (t = "press" ∨ t = "release") ∧ o = consumer_event t d
  | _ => True
  end.

Definition deliveries_ok (s : Session) : Prop :=
  well_subscribed (ee s) ∧ Forall delivered_ok (trace s).

(** ** LED reports *)

Definition primary_report (player1 player2 player3 player4 : bool) : Js.Buffer :=
  [x00; x00; led player1; led player2; led player3; led player4; x00; x00].

Definition fallback_report (player1 player2 player3 player4 : bool) : Js.Buffer :=
  [x00; x00; led player1; led player2; led player3; led player4].

(** The error of [setLedsarray]. *)
Definition invalid_array : Exn := CustomError "Invalid array: must be boolean[4]" None.

(** ** Footprints

    [stable R m]: every run of [m] takes a session to an [R]-related one.
    The relations are preorders: a view of the session is kept ([keep]),
    the trace grows by effects of a given kind ([logging]), an invariant is
    preserved ([preserving]), or two of these at once ([both]). *)

Definition stable (R : relation Session) {A} (m : M A) : Prop :=
  ∀ s, R s (m s).2.

Definition keep {V} (v : Session → V) : relation Session :=
  λ s s', v s' = v s.

Definition logging (P : Effect → Prop) : relation Session :=
  λ s s', ∃ tr, trace s' = trace s ++ tr ∧ Forall P tr.

Definition preserving (I : Session → Prop) : relation Session :=
  λ s s', I s → I s'.

Definition both (R1 R2 : relation Session) : relation Session :=
  λ s s', R1 s s' ∧ R2 s s'.

(** The effects of error and ready publications, LED writes, button
    publications and the settlement of API calls: everything but calls into
    the usb binding, timers and awaits. *)
Definition plain (fx : Effect) : Prop :=
  match fx with
  | FxUsb _ | FxSetTimeout _ _ | FxAwait _ _ => False
  | _ => True
  end.

(** Effects that belong to the start of a setup: discovery, claim and the
    awaits of callers. *)
Definition starts_setup (fx : Effect) : Prop :=
  match fx with
  | FxUsb FindByIds | FxUsb Claim | FxAwait _ _ => True
  | _ => False
  end.

(** Effects that belong to the rest of a setup, or to an await. *)
Definition resumes_setup (fx : Effect) : Prop :=
  match fx with
  | FxUsb HidOpen | FxUsb StartPoll | FxSetTimeout _ _ | FxAwait _ _ => True
  | _ => False
  end.

(** Views of the session: what a computation that starts no setup keeps;
    the same up to the reactions and settlements of promises; the same
    with the emitter; the emitter and the trace. *)
Definition lifecycle (s : Session) : list Promise * list Job * option PromiseId * bool :=
  (promises s, jobs s, readyPromise s, isReady s).

(** The setups that wait in the microtask queue. *)
Fixpoint count_resume (js : list Job) : nat :=
  match js with
  | [] => 0
  | ResumeSetup _ _ :: js' => S (count_resume js')
  | React _ _ :: js' => count_resume js'
  end.

Definition progress_view (s : Session) : nat * nat * option PromiseId :=
  (length (promises s), count_resume (jobs s), readyPromise s).

Definition bookkeeping (s : Session)
  : list Promise * list Job * option PromiseId * bool * EventEmitter :=
  (promises s, jobs s, readyPromise s, isReady s, ee s).

Definition publications (s : Session) : EventEmitter * list Effect :=
  (ee s, trace s).

(** ** Counting effects *)

#[global] Instance UsbCall_eq_dec : EqDecision UsbCall.
Proof. solve_decision. Defined.

Fixpoint count (c : Effect → bool) (tr : list Effect) : nat :=
  match tr with
  | [] => 0
  | fx :: tr' => (if c fx then 1 else 0) + count c tr'
  end.

(** A given call into the usb binding. *)
Definition is_usb (call : UsbCall) (fx : Effect) : bool :=
  match fx with
  | FxUsb c => bool_decide (c = call)
  | _ => false
  end.

(** The timer that ends the startup animation is set. *)
Definition is_animation (fx : Effect) : bool :=
  match fx with
  | FxSetTimeout _ (BecomeReady _) => true
  | _ => false
  end.

(** [grows c n m]: a run of [m] adds at most [n] effects selected by [c]
    to the trace. *)
Definition grows (c : Effect → bool) (n : nat) {A} (m : M A) : Prop :=
  ∀ s, ∃ tr, trace (m s).2 = trace s ++ tr ∧ count c tr ≤ n.

(** ** The lifecycle *)

Inductive LifecyclePhase :=
| NotStarted
| InProgress (sharedFuture : PromiseId)
| Ready.

Definition phase (s : Session) : LifecyclePhase :=
  if isReady s then Ready
  else match readyPromise s with
       | Some p => InProgress p
       | None => NotStarted
       end.

(** A promise that nobody has chained on yet. *)
Definition pending : Promise := {| outcome := None; reactions := [] |}.

(** The outcome of promise [p], once it is settled. *)
Definition outcome_of (s : Session) (p : PromiseId) : option (Result unit) :=
  match promises s !! p with
  | Some pr => outcome pr
  | None => None
  end.

(** Promise [p] is settled with [r]. *)
Definition settled (p : PromiseId) (r : Result unit) (s : Session) : Prop :=
  outcome_of s p = Some r.

(** As long as [close] is not called: there is at most one promise of
    readiness, [readyPromise] is that promise once it exists, every part
    of the setup sequence has run at most once, counting the setups that
    still wait in the microtask queue, and every caller that was handed a
    promise was handed [readyPromise]. *)
Definition single_setup (s : Session) : Prop :=
  let n := length (promises s) in
  n ≤ 1 ∧
  (readyPromise s = None → n = 0) ∧
  (∀ p, readyPromise s = Some p → p = 0) ∧
  count (is_usb FindByIds) (trace s) ≤ n ∧
  count (is_usb Claim) (trace s) ≤ n ∧
  count (is_usb HidOpen) (trace s) + count_resume (jobs s) ≤ n ∧
  count (is_usb StartPoll) (trace s) + count_resume (jobs s) ≤ n ∧
  count is_animation (trace s) + count_resume (jobs s) ≤ n ∧
  (∀ api p, FxAwait api (Shared p) ∈ trace s → readyPromise s = Some p).

(** ** Worlds, callbacks and sessions of the examples *)

(** A dongle that is plugged in and answers every call. *)
Definition plugged : World := {|
  dongle_present := true; open_fails := false; interface0_present := true;
  is_win32 := false; kernel_driver_active := true; detach_fails := false;
  claim_fails := false; hid_open_fails := false;
  endpoints := [ {| direction := "out"; transferType := 3; address := 1 |};
                 {| direction := "in"; transferType := 3; address := 129 |} ]%Z;
  startPoll_fails := false; hid_write_fails := λ _, false;
  stopPoll_fails := false; release_fails := false;
  device_close_fails := false; hid_close_fails := false
|}.

(** No dongle. *)
Definition unplugged : World := {|
  dongle_present := false; open_fails := false; interface0_present := false;
  is_win32 := false; kernel_driver_active := false; detach_fails := false;
  claim_fails := false; hid_open_fails := true;
  endpoints := [];
  startPoll_fails := true; hid_write_fails := λ _, true;
  stopPoll_fails := true; release_fails := true;
  device_close_fails := true; hid_close_fails := true
|}.

(** A dongle whose HID channel rejects every report. *)
Definition leds_broken : World := {|
  dongle_present := true; open_fails := false; interface0_present := true;
  is_win32 := false; kernel_driver_active := true; detach_fails := false;
  claim_fails := false; hid_open_fails := false;
  endpoints := [ {| direction := "in"; transferType := 3; address := 129 |} ]%Z;
  startPoll_fails := false; hid_write_fails := λ _, true;
  stopPoll_fails := false; release_fails := false;
  device_close_fails := false; hid_close_fails := false
|}.

(** A consumer callback that returns. *)
Definition listening {A} (id : nat) : Callback A :=
  {| cb_id := id; cb_run := λ _, None |}.

(** A session brought to readiness by one [onPress] subscription: the
    setup microtask, the seven timers of the startup animation, and the
    microtask of the reaction chained by [onPress]. *)
Definition ready_session : Session :=
  run [ (plugged, CallOnPress (listening 1)); (plugged, Microtask);
        (plugged, Timer); (plugged, Timer); (plugged, Timer); (plugged, Timer);
        (plugged, Timer); (plugged, Timer); (plugged, Timer);
        (plugged, Microtask) ] Buzzer.

(** The ready session with a listener for the error event. *)
Definition supervised_session : Session :=
  run [(plugged, CallOnError (listening 2))] ready_session.

(** Fifty callers in a row, then the setup and its animation. *)
Definition fifty_callers : list (World * Event) :=
  replicate 50 (plugged, CallOnPress (listening 1))
  ++ [ (plugged, Microtask);
       (plugged, Timer); (plugged, Timer); (plugged, Timer); (plugged, Timer);
       (plugged, Timer); (plugged, Timer); (plugged, Timer) ].
(** ** The usb binding *)

(** [ep.direction === 'in' && ep.transferType === 3] *)
Definition interrupt_in (ep : UsbEndpoint) : bool :=
  bool_decide (direction ep = "in") && (transferType ep =? 3)%Z.

(** The kernel driver is detached before the claim. *)
Definition detaches (w : World) : bool :=
  negb (is_win32 w) && kernel_driver_active w.

(** Every call that [openAndClaim] makes succeeds. *)
Definition claimable (w : World) : bool :=
  dongle_present w && negb (open_fails w) && interface0_present w
  && negb (detaches w && detach_fails w) && negb (claim_fails w).

(** The calls of an [openAndClaim] that succeeds. *)
Definition claim_calls (w : World) : list UsbCall :=
  [FindByIds; Open; Interface0]
  ++ (if detaches w then [DetachKernelDriver] else []) ++ [Claim].

(** The calls into the usb binding of a trace. *)
Definition usb_calls (tr : list Effect) : list UsbCall :=
  omap (λ fx, match fx with FxUsb call => Some call | _ => None end) tr.

(** The error objects delivered to listeners of the error event and to
    the [catch] callbacks of [onError], with the callback that received
    them. *)
Definition error_objects_delivered (tr : list Effect) : list (nat * Exn) :=
  omap (λ fx, match fx with
              | FxDeliverError cb (EExn err) => Some (cb, err)
              | _ => None
              end) tr.

(** No error listener throws. *)
Definition supervised (e : EventEmitter) : Prop :=
  error_listeners e ≠ [] ∧
  ∀ payload, Forall (λ l, cb_run l payload = None) (error_listeners e).

Definition connection_error (cause : Exn) : Exn :=
  CustomError "Failed to open the connection to the dongle." (Some cause).

Definition dongle_not_found : string := "Dongle not found. Check connection and VID/PID.".

(** The rest of the setup succeeds: the HID channel opens, the interface
    has an interrupt IN endpoint, and polling starts. *)
Definition listenable (w : World) : bool :=
  negb (hid_open_fails w) && existsb interrupt_in (endpoints w)
  && negb (startPoll_fails w).

Definition setup_error (cause : Exn) : Exn :=
  CustomError "Buzzers setup failed" (Some cause).

(** A dongle without an interrupt IN endpoint. *)
Definition deaf : World := {|
  dongle_present := true; open_fails := false; interface0_present := true;
  is_win32 := false; kernel_driver_active := true; detach_fails := false;
  claim_fails := false; hid_open_fails := false;
  endpoints := [ {| direction := "out"; transferType := 3; address := 1 |};
                 {| direction := "in"; transferType := 2; address := 130 |} ]%Z;
  startPoll_fails := false; hid_write_fails := λ _, false;
  stopPoll_fails := false; release_fails := false;
  device_close_fails := false; hid_close_fails := false
|}.

(** ** The startup animation *)

(** The delays at which the animation loop of [cycles] cycles, entered
    with [delay], switches the LEDs on and off. *)
Definition blink_delays (cycles delay : nat) : list (nat * TimerAction) :=
  flat_map (λ i, [ (delay + i * (onTime + offTime), Leds true);
                   (delay + i * (onTime + offTime) + onTime, Leds false) ])
           (seq 0 cycles).

(** Registering timers with the given delays. *)
Definition with_timers (ds : list (nat * TimerAction)) (s : Session) : Session :=
  set_timers (timers s ++ map (λ da, (now s + da.1, da.2)) ds)
    (set_trace (trace s ++ map (λ da, FxSetTimeout da.1 da.2) ds) s).

(** The timers of the startup animation, by their delays: three cycles of
    the loop, and the timer that ends the animation. *)
Definition animation (p : PromiseId) : list (nat * TimerAction) :=
  [ (0, Leds true); (350, Leds false); (550, Leds true); (900, Leds false);
    (1100, Leds true); (1450, Leds false); (1850, BecomeReady p) ].

(** The report that switches all four LEDs on, or off. *)
Definition all_leds (on : bool) : Js.Buffer := primary_report on on on on.

(** Timers that switch the LEDs, with their due times. *)
Definition led_timers (leds : list (nat * bool)) : list (nat * TimerAction) :=
  map (λ t, (t.1, Leds t.2)) leds.

(** No timer is due before one that was registered earlier. *)
Fixpoint in_due_order (ts : list (nat * TimerAction)) : Prop :=
  match ts with
  | [] => True
  | t :: ts' => Forall (λ t', t.1 ≤ t'.1) ts' ∧ in_due_order ts'
  end.

(** The delivery of the ready event to a listener. *)
Definition deliver_ready (l : Callback unit) : Effect := FxDeliverReady (cb_id l).

Definition resolved : Promise := {| outcome := Some (Return tt); reactions := [] |}.

(** A consumer callback that throws. *)
Definition throwing {A} (id tag : nat) : Callback A :=
  {| cb_id := id; cb_run := λ _, Some (CallbackError tag) |}.

(** ** LED reports and turns of the event loop *)

(** Anything but a report written to the HID channel. *)
Definition no_led_report (fx : Effect) : Prop :=
  match fx with
  | FxHidWrite _ _ => False
  | _ => True
  end.

(** How the promise of an async API call is settled. *)
Definition settlement (api : string) (r : Result unit) : Effect :=
  match r with
  | Return _ => FxResolved api
  | Throw e => FxRejected api e
  end.

(** ** Subscriptions *)

(** Events that call neither a subscription other than [onReady] nor
    [setLeds]. *)
Definition starts_nothing (ev : Event) : Prop :=
  match ev with
  | CallOnReady _ | CallClose | Microtask | Timer | Report _ => True
  | _ => False
  end.

(** A session in which no setup was ever started. *)
Definition idle (s : Session) : Prop :=
  isReady s = false ∧ readyPromise s = None ∧ jobs s = [] ∧ timers s = [] ∧
  polling s = false ∧ endpoint s = None ∧ iface s = None ∧
  Forall (λ fx, fx = FxResolved "close") (trace s).

(** ** Teardown *)

(** What [close] leaves alone: the subscriptions, the handles, and what
    is pending in the runtime. *)
Definition untouched_by_close (s : Session) :=
  (ee s, device s, iface s, endpoint s, hidDevice s,
   promises s, jobs s, timers s, now s).

(** ** The stored states *)

(** Every button of the registry has a stored state, and nothing else is
    stored. *)
Definition states_defined (s : Session) : Prop :=
  length (currentStates s) = length BUTTONS_DATA ∧
  Forall is_Some (currentStates s).

#[global] Instance Button_eq_dec : EqDecision Button.
Proof. solve_decision. Defined.

(** The changes published for button [b]: [true] for a press, [false] for
    a release, in the order of publication. *)
Definition changes_of (b : Button) (tr : list Effect) : list bool :=
  omap (λ fx, match fx with
              | FxEmitButton eventType ev =>
                  if decide (source ev = b)
                  then Some (bool_decide (eventType = EVENTS.PRESS))
                  else None
              | _ => None
              end) tr.

(** The state that a sequence of changes leads to from [state], provided
    each of them is a change: a press when released, a release when
    pressed. *)
Fixpoint replay (state : bool) (changes : list bool) : option bool :=
  match changes with
  | [] => Some state
  | change :: changes' =>
      if Bool.eqb change state then None else replay change changes'
  end.

(** The stored state of each button is where the changes published for
    it lead, from released. *)
Definition consistent (s : Session) : Prop :=
  ∀ i b, BUTTONS_DATA !! i = Some b →
    ∃ state, currentStates s !! i = Some (Some state) ∧
             replay false (changes_of b (trace s)) = Some state.

(** Anything but the publication of a button event. *)
Definition no_button_event (fx : Effect) : Prop :=
  match fx with
  | FxEmitButton _ _ => False
  | _ => True
  end.

(** The bit field that the stored states stand for: the masks of the
    buttons stored as pressed. *)
Definition field_of_states (cs : Js.BoolArray) : Z :=
  foldr Z.lor 0%Z
    (imap (λ i b, match Js.get cs i with
                  | Some true => bit b
                  | _ => 0%Z
                  end) BUTTONS_DATA).

(** The event published for a button whose state changes to [now]. *)
Definition change_event (now : bool) (b : Button) : string * RawEvent :=
  (eventType_of now, {| source := b; type := eventType_of now |}).

(** ** The ready event *)

Definition is_ready_event (fx : Effect) : bool :=
  match fx with
  | FxEmitReady => true
  | _ => false
  end.

(** The timers that end a startup animation, among the pending ones. *)
Fixpoint pending_ready (ts : list (nat * TimerAction)) : nat :=
  match ts with
  | [] => 0
  | (_, BecomeReady _) :: ts' => S (pending_ready ts')
  | (_, Leds _) :: ts' => pending_ready ts'
  end.

(** Each publication of the ready event, and each timer that is still to
    publish it, belongs to a startup animation of its own. *)
Definition readiness_budget (s : Session) : Prop :=
  count is_ready_event (trace s) + pending_ready (timers s)
  ≤ count is_animation (trace s).

(** ** Promises that nothing settles *)

(** Promise [p] is pending, and neither a queued setup nor a timer of a
    startup animation is left that would settle it. *)
Definition abandoned (p : PromiseId) (s : Session) : Prop :=
  p < length (promises s) ∧
  outcome_of s p = None ∧
  Forall (λ j, match j with ResumeSetup q _ => q ≠ p | React _ _ => True end) (jobs s) ∧
  Forall (λ t, t.2 ≠ BecomeReady p) (timers s).

(** ** Errors of the setup *)

(** Anything but the delivery of an error object. *)
Definition no_error_object (fx : Effect) : Prop :=
  match fx with
  | FxDeliverError _ (EExn _) => False
  | _ => True
  end.

Definition rejected (e : Exn) : Promise :=
  {| outcome := Some (Throw e); reactions := [] |}.

(** ** Subscriptions and their handlers *)

(** The handlers subscribed to the press channel, each with the listener
    it stands for, and those of the release channel. *)
Definition press_subscriptions (t : Tracked) : list (HandlerId * ButtonListener) :=
  zip (press_handlers (handlers t)) (press_listeners (ee (session t))).

Definition release_subscriptions (t : Tracked) : list (HandlerId * ButtonListener) :=
  zip (release_handlers (handlers t)) (release_listeners (ee (session t))).

(** Each listener of the two channels has its handler, no handler is
    subscribed twice to a channel, and the handlers that exist were
    created. *)
Definition aligned (t : Tracked) : Prop :=
  let hs := handlers t in
  length (press_handlers hs) = length (press_listeners (ee (session t))) ∧
  length (release_handlers hs) = length (release_listeners (ee (session t))) ∧
  NoDup (press_handlers hs) ∧
  NoDup (release_handlers hs) ∧
  Forall (λ h, h < created hs) (press_handlers hs) ∧
  Forall (λ h, h < created hs) (release_handlers hs).

(** The listeners after a turn of the event loop: those of before, and
    behind them the one that a subscription adds. *)
Definition subscribed (ev : Event) (e : EventEmitter) : EventEmitter :=
  match ev with
  | CallOnReady cb => on_ready_listeners (λ ls, ls ++ [cb]) e
  | CallOnPress cb =>
      on_press_listeners (λ ls, ls ++ [{| via := ViaOnPress; consumer := cb |}]) e
  | CallOnRelease cb =>
      on_release_listeners (λ ls, ls ++ [{| via := ViaOnRelease; consumer := cb |}]) e
  | CallOnChange cb =>
      on_release_listeners (λ ls, ls ++ [{| via := ViaOnChange; consumer := cb |}])
        (on_press_listeners (λ ls, ls ++ [{| via := ViaOnChange; consumer := cb |}]) e)
  | CallOnError cb => on_error_listeners (λ ls, ls ++ [cb]) e
  | _ => e
  end.

(** The registrations of a callback on the error channel, and those of
    the other callbacks. *)
Definition registrations_of (cb : Callback ErrorPayload) (t : Tracked) :
    list (Callback ErrorPayload) :=
  filter (λ l, cb_id l = cb_id cb) (error_listeners (ee (session t))).

Definition registrations_beside (cb : Callback ErrorPayload) (t : Tracked) :
    list (Callback ErrorPayload) :=
  filter (λ l, cb_id l ≠ cb_id cb) (error_listeners (ee (session t))).

(** * Properties *)

(** ** Numbers and buffers *)

Section JsFacts.
Local Open Scope Z_scope.

Lemma byte_value_range (b : byte) : 0 ≤ Js.byte_value b < 256.
Proof. destruct b; vm_compute; split; congruence. Qed.

Lemma ToInt32_small (x : Z) : 0 ≤ x < 2 ^ 31 → Js.ToInt32 x = x.
Proof.
  intros Hx. unfold Js.ToInt32.
  rewrite Z.mod_small by lia.
  destruct (Z.ltb_spec x (2 ^ 31)); lia.
Qed.

Lemma lor_below (n a b : Z) :
  0 ≤ n → 0 ≤ a < 2 ^ n → 0 ≤ b < 2 ^ n → 0 ≤ Z.lor a b < 2 ^ n.
Proof.
  intros Hn Ha Hb. split; [apply Z.lor_nonneg; lia|].
  assert (0 < 2 ^ n) by (apply Z.pow_pos_nonneg; lia).
  destruct (decide (Z.lor a b = 0)) as [->|Hne]; [lia|].
  assert (0 ≤ Z.lor a b) by (apply Z.lor_nonneg; lia).
  apply Z.log2_lt_pow2; [lia|].
  rewrite Z.log2_lor by lia.
  destruct (decide (a = 0)) as [->|]; destruct (decide (b = 0)) as [->|];
    rewrite ?Z.log2_nonpos by lia.
  - exfalso. apply Hne. reflexivity.
  - change (Z.log2 0) with 0.
    assert (Z.log2 b < n) by (apply Z.log2_lt_pow2; lia).
    pose proof (Z.log2_nonneg b). lia.
  - change (Z.log2 0) with 0.
    assert (Z.log2 a < n) by (apply Z.log2_lt_pow2; lia).
    pose proof (Z.log2_nonneg a). lia.
  - assert (Z.log2 a < n) by (apply Z.log2_lt_pow2; lia).
    assert (Z.log2 b < n) by (apply Z.log2_lt_pow2; lia).
    lia.
Qed.

Lemma land_below (n a b : Z) :
  0 ≤ n → 0 ≤ a < 2 ^ n → 0 ≤ b → 0 ≤ Z.land a b < 2 ^ n.
Proof.
  intros Hn Ha Hb.
  assert (0 ≤ Z.land a b) by (apply Z.land_nonneg; lia).
  split; [done|].
  assert (0 < 2 ^ n) by (apply Z.pow_pos_nonneg; lia).
  destruct (decide (Z.land a b = 0)) as [->|Hne]; [lia|].
  apply Z.log2_lt_pow2; [lia|].
  pose proof (Z.log2_land a b ltac:(lia) ltac:(lia)).
  destruct (decide (a = 0)) as [->|]; [rewrite Z.land_0_l in Hne; done|].
  assert (Z.log2 a < n) by (apply Z.log2_lt_pow2; lia).
  lia.
Qed.

(** On operands below 2^31 the operators of JavaScript are those of [Z]. *)
Lemma bitor_small (a b : Z) :
  0 ≤ a < 2 ^ 31 → 0 ≤ b < 2 ^ 31 → Js.bitor a b = Z.lor a b.
Proof.
  intros Ha Hb. unfold Js.bitor.
  rewrite (ToInt32_small a), (ToInt32_small b) by lia.
  apply ToInt32_small, (lor_below 31); lia.
Qed.

Lemma bitand_small (a b : Z) :
  0 ≤ a < 2 ^ 31 → 0 ≤ b < 2 ^ 31 → Js.bitand a b = Z.land a b.
Proof.
  intros Ha Hb. unfold Js.bitand.
  rewrite (ToInt32_small a), (ToInt32_small b) by lia.
  apply ToInt32_small, (land_below 31); lia.
Qed.

Lemma shl16_byte (a : Z) :
  0 ≤ a < 256 → Js.shl a 16 = Z.shiftl a 16 ∧ 0 ≤ Z.shiftl a 16 < 2 ^ 24.
Proof.
  intros Ha. unfold Js.shl.
  change (16 mod 32) with 16.
  rewrite (ToInt32_small a) by lia.
  rewrite Z.shiftl_mul_pow2 by lia.
  rewrite ToInt32_small by lia. lia.
Qed.
End JsFacts.

Lemma field_of_range (b2 b3 b4 : byte) : (0 ≤ field_of b2 b3 b4 < 2 ^ 24)%Z.
Proof.
  pose proof (byte_value_range b2). pose proof (byte_value_range b3).
  pose proof (shl16_byte _ (byte_value_range b4)) as [_ ?].
  apply (lor_below 24); lia.
Qed.

Lemma pressedBits_long (data : Js.Buffer) :
  5 ≤ length data →
  ∃ b2 b3 b4,
    data !! 2 = Some b2 ∧ data !! 3 = Some b3 ∧ data !! 4 = Some b4 ∧
    pressedBits data = Some (field_of b2 b3 b4).
Proof.
  intros Hlen.
  destruct (lookup_lt_is_Some_2 data 2 ltac:(lia)) as [b2 H2].
  destruct (lookup_lt_is_Some_2 data 3 ltac:(lia)) as [b3 H3].
  destruct (lookup_lt_is_Some_2 data 4 ltac:(lia)) as [b4 H4].
  exists b2, b3, b4. repeat split; try done.
  unfold pressedBits, Js.readUInt16LE, Js.readUInt8.
  rewrite H2, H3, H4. simpl. f_equal.
  pose proof (byte_value_range b2). pose proof (byte_value_range b3).
  destruct (shl16_byte _ (byte_value_range b4)) as [-> ?].
  unfold field_of. apply bitor_small; lia.
Qed.

(** ** Sessions and traces *)

Lemma set_trace_same (s : Session) : set_trace (trace s) s = s.
Proof. by destruct s. Qed.

Lemma set_trace_twice (t1 t2 : list Effect) (s : Session) :
  set_trace t2 (set_trace t1 s) = set_trace t2 s.
Proof. by destruct s. Qed.

Lemma set_trace_nil (s : Session) : set_trace (trace s ++ []) s = s.
Proof. rewrite app_nil_r. apply set_trace_same. Qed.

Lemma set_trace_more (t1 t2 : list Effect) (s : Session) :
  set_trace (trace (set_trace (trace s ++ t1) s) ++ t2) (set_trace (trace s ++ t1) s)
  = set_trace (trace s ++ t1 ++ t2) s.
Proof. destruct s; simpl. by rewrite app_assoc. Qed.

Lemma call_listeners_eq {L} (deliver : L → Effect) (run : L → option Exn)
    (ls : list L) (s : Session) :
  call_listeners deliver run ls s =
  (ended (reached run ls).2, set_trace (trace s ++ map deliver (reached run ls).1) s).
Proof.
  revert s. induction ls as [|l ls IH]; intros s; simpl.
  - unfold ret. by rewrite set_trace_nil.
  - unfold bind, log, modify. destruct (run l) as [e|] eqn:Hrun; simpl.
    + done.
    + rewrite IH. destruct (reached run ls) as [ls' r]. simpl.
      f_equal. apply (set_trace_more [deliver l]).
Qed.

Lemma reached_all {L} (run : L → option Exn) (ls : list L) :
  Forall (λ l, run l = None) ls → reached run ls = (ls, None).
Proof.
  induction 1 as [|l ls Hl _ IH]; simpl; [done|]. by rewrite Hl, IH.
Qed.

Lemma reached_throw {L} (run : L → option Exn) (ls1 ls2 : list L) (l : L) (e : Exn) :
  Forall (λ l, run l = None) ls1 → run l = Some e →
  reached run (ls1 ++ l :: ls2) = (ls1 ++ [l], Some e).
Proof.
  induction 1 as [|l1 ls1 Hl _ IH]; intros Hrun; simpl.
  - by rewrite Hrun.
  - by rewrite Hl, IH.
Qed.

Lemma reached_sublist {L} (run : L → option Exn) (ls : list L) :
  (reached run ls).1 ⊆ ls.
Proof.
  induction ls as [|l ls IH]; simpl; [done|].
  destruct (run l).
  - intros x Hx. apply list_elem_of_singleton in Hx as ->. left.
  - destruct (reached run ls) as [ls' r]. simpl in *. intros x Hx.
    apply elem_of_cons in Hx as [->|Hx]; [left|right; by apply IH].
Qed.

Lemma emit_button_eq (eventType : string) (ev : RawEvent) (s : Session) :
  let ls := button_listeners eventType (ee s) in
  emit_button eventType ev s =
  (ended (reached (run_button ev) ls).2,
   set_trace (trace s ++ FxEmitButton eventType ev
                :: map (deliver_button eventType ev) (reached (run_button ev) ls).1) s).
Proof.
  unfold emit_button, bind, log, modify, gets. simpl.
  rewrite call_listeners_eq. simpl. f_equal.
  apply (set_trace_more [FxEmitButton eventType ev]).
Qed.

(** ** The update step of [on_data] *)

Lemma update_button_eq (prev : Js.BoolArray) (bits : Z) (b : Button) (i : nat) (s : Session) :
  update_button prev bits b i s =
  let s1 := set_currentStates (Js.set (currentStates s) i (isPressedNow bits b)) s in
  if Js.strict_neq (isPressedNow bits b) (Js.get prev i)
  then emit_button (eventType_of (isPressedNow bits b))
         {| source := b; type := eventType_of (isPressedNow bits b) |} s1
  else (Return tt, s1).
Proof.
  unfold update_button, bind, modify, isPressedNow, eventType_of. simpl.
  by destruct (Js.strict_neq _ _).
Qed.

Lemma emitted_app (t1 t2 : list Effect) : emitted (t1 ++ t2) = emitted t1 ++ emitted t2.
Proof. apply omap_app. Qed.

Lemma emitted_deliveries (t : string) (ev : RawEvent) (ls : list ButtonListener) :
  emitted (map (deliver_button t ev) ls) = [].
Proof. induction ls; simpl; done. Qed.

Lemma button_effect_mono (e : EventEmitter) (bs bs' : list Button) (fx : Effect) :
  bs ⊆ bs' → button_effect e bs fx → button_effect e bs' fx.
Proof.
  intros Hsub. destruct fx; simpl; try done.
  intros (l & b & ? & ? & ? & ?). exists l, b. repeat split; try done. by apply Hsub.
Qed.

Section ArrayFacts.
Context (cs : Js.BoolArray) (i : nat) (v : bool).
Hypothesis in_range : i ≤ length cs.

Lemma set_next : Js.set cs i v = take i cs ++ Some v :: drop (S i) cs.
Proof.
  unfold Js.set. destruct (decide (i < length cs)) as [Hlt|Hge].
  - by apply insert_take_drop.
  - assert (i = length cs) as -> by lia.
    rewrite Nat.sub_diag, firstn_all. simpl.
    rewrite drop_ge by lia. done.
Qed.

Lemma set_length : S i ≤ length (Js.set cs i v).
Proof.
  rewrite set_next, length_app, length_take. simpl. lia.
Qed.

Lemma set_take : take (S i) (Js.set cs i v) = take i cs ++ [Some v].
Proof.
  rewrite set_next.
  rewrite take_app_ge by (rewrite length_take; lia).
  rewrite length_take. replace (S i - i `min` length cs) with 1 by lia.
  done.
Qed.

Lemma set_drop (n : nat) : drop (S i + n) (Js.set cs i v) = drop (S i + n) cs.
Proof.
  rewrite set_next.
  rewrite drop_app_ge by (rewrite length_take; lia).
  rewrite length_take. replace (S i + n - i `min` length cs) with (S n) by lia.
  simpl. rewrite drop_drop. f_equal; lia.
Qed.
End ArrayFacts.

Lemma updated_id (s : Session) : updated s [] (currentStates s) = s.
Proof. destruct s; unfold updated; simpl. by rewrite app_nil_r. Qed.

Lemma updated_updated (s : Session) (t1 t2 : list Effect) (c1 c2 : Js.BoolArray) :
  updated (updated s t1 c1) t2 c2 = updated s (t1 ++ t2) c2.
Proof. destruct s; unfold updated; simpl. by rewrite app_assoc. Qed.

Lemma forEach_update (prev : Js.BoolArray) (bits : Z) (bs : list Button) :
  ∀ (i : nat) (s : Session) (r : Result unit) (s' : Session),
    forEach_from (update_button prev bits) bs i s = (r, s') →
    ∃ tr cs,
      s' = updated s tr cs ∧
      Forall (button_effect (ee s) bs) tr ∧
      (r = Return tt →
       emitted tr =
         concat (imap (λ j b, transition_of (isPressedNow bits b) (Js.get prev (i + j)) b) bs) ∧
       (i ≤ length (currentStates s) →
        cs = take i (currentStates s)
             ++ map (λ b, Some (isPressedNow bits b)) bs
             ++ drop (i + length bs) (currentStates s))).
Proof.
  induction bs as [|b bs IH]; intros i s r s' Hrun.
  - inversion Hrun; subst. exists [], (currentStates s').
    split; [by rewrite updated_id|]. split; [constructor|].
    intros _. split; [done|]. intros _. simpl.
    rewrite Nat.add_0_r. by rewrite take_drop.
  - simpl in Hrun. unfold bind in Hrun at 1. rewrite update_button_eq in Hrun.
    set (now_ := isPressedNow bits b) in *.
    set (s1 := set_currentStates (Js.set (currentStates s) i now_) s) in *.
    assert (∃ (t1 : list Effect) (r1 : Result unit),
              Forall (button_effect (ee s) (b :: bs)) t1 ∧
              emitted t1 = transition_of now_ (Js.get prev i) b ∧
              (let s2 := updated s t1 (Js.set (currentStates s) i now_) in
               match r1 with
               | Return _ => forEach_from (update_button prev bits) bs (S i) s2 = (r, s')
               | Throw e => r = Throw e ∧ s' = s2
               end)) as (t1 & r1 & Ht1 & Hem1 & Hrest).
    { unfold transition_of. simpl in Hrun.
      destruct (Js.strict_neq now_ (Js.get prev i)).
      - rewrite emit_button_eq in Hrun.
        set (ls := button_listeners (eventType_of now_) (ee s1)) in *.
        set (ev := {| source := b; type := eventType_of now_ |}) in *.
        exists (FxEmitButton (eventType_of now_) ev
                  :: map (deliver_button (eventType_of now_) ev) (reached (run_button ev) ls).1),
               (ended (reached (run_button ev) ls).2).
        split; [|split].
        + constructor; [done|]. apply Forall_forall. intros fx Hfx.
          apply list_elem_of_fmap in Hfx as (l & -> & Hl).
          apply reached_sublist in Hl. simpl.
          exists l, b. repeat split; try done; [left|].
          unfold eventType_of. destruct now_; [by left|by right].
        + simpl. by rewrite emitted_deliveries.
        + simpl. destruct (ended _); [done|]. by inversion Hrun.
      - exists [], (Return tt). split; [constructor|]. split; [done|].
        simpl. unfold updated. rewrite app_nil_r.
        replace (set_trace (trace s) (set_currentStates (Js.set (currentStates s) i now_) s))
          with s1 by (by destruct s).
        done. }
    destruct r1 as [[]|e]; simpl in Hrest.
    + apply IH in Hrest as (tr & cs & -> & Htr & Hok).
      exists (t1 ++ tr), cs. split; [by rewrite updated_updated|]. split.
      * apply Forall_app. split; [done|].
        eapply Forall_impl; [exact Htr|]. intros fx.
        replace (ee (updated s t1 (Js.set (currentStates s) i now_))) with (ee s)
          by (by destruct s).
        apply button_effect_mono. intros x Hx. by right.
      * intros ->. destruct (Hok eq_refl) as [Hem Hcs]. split.
        -- rewrite emitted_app, Hem1, Hem. simpl. rewrite Nat.add_0_r. f_equal.
           f_equal. apply imap_ext. intros j x _. simpl.
           by replace (i + S j) with (S i + j) by lia.
        -- intros Hi.
           replace (currentStates (updated s t1 (Js.set (currentStates s) i now_)))
             with (Js.set (currentStates s) i now_) in Hcs by (by destruct s).
           rewrite Hcs by (by apply set_length).
           rewrite set_take, set_drop by done. simpl.
           rewrite <- app_assoc. simpl.
           by replace (i + S (length bs)) with (S (i + length bs)) by lia.
    + destruct Hrest as [-> ->]. eexists _, _. split; [done|].
      split; [done|]. intros [=].
Qed.

(** Whether or not a listener throws, what an update publishes is an
    initial segment of the transitions. *)
Lemma forEach_update_prefix (prev : Js.BoolArray) (bits : Z) (bs : list Button) :
  ∀ (i : nat) (s : Session),
    ∃ tr,
      trace (forEach_from (update_button prev bits) bs i s).2 = trace s ++ tr ∧
      emitted tr `prefix_of`
        concat (imap (λ j b, transition_of (isPressedNow bits b) (Js.get prev (i + j)) b) bs).
Proof.
  induction bs as [|b bs IH]; intros i s.
  - exists []. simpl. rewrite app_nil_r. split; [done|]. apply prefix_nil.
  - simpl. unfold bind at 1. rewrite update_button_eq. simpl.
    set (now_ := isPressedNow bits b).
    set (s1 := set_currentStates (Js.set (currentStates s) i now_) s).
    rewrite Nat.add_0_r. unfold transition_of at 1.
    assert (∀ tr, emitted tr `prefix_of`
                    concat (imap (λ j b, transition_of (isPressedNow bits b)
                                           (Js.get prev (S i + j)) b) bs) →
                  emitted tr `prefix_of`
                    concat (imap ((λ j b, transition_of (isPressedNow bits b)
                                            (Js.get prev (i + j)) b) ∘ S) bs)) as Hshift.
    { intros tr Hpre. erewrite imap_ext; [exact Hpre|].
      intros j x _. simpl. by replace (i + S j) with (S (i + j)) by lia. }
    destruct (Js.strict_neq now_ (Js.get prev i)).
    + rewrite emit_button_eq. simpl.
      set (ev := {| source := b; type := eventType_of now_ |}).
      set (ls := button_listeners (eventType_of now_) (ee s)).
      set (t1 := FxEmitButton (eventType_of now_) ev
                   :: map (deliver_button (eventType_of now_) ev) (reached (run_button ev) ls).1).
      assert (emitted t1 = [(eventType_of now_, ev)]) as Hem1.
      { unfold t1. simpl. by rewrite emitted_deliveries. }
      destruct (ended _) as [[]|e].
      * destruct (IH (S i) (set_trace (trace s ++ t1) s1)) as (tr & Htr & Hpre).
        exists (t1 ++ tr). split.
        -- rewrite Htr. simpl. by rewrite <- app_assoc.
        -- rewrite emitted_app, Hem1. simpl. apply prefix_cons. by apply Hshift.
      * exists t1. split; [done|]. rewrite Hem1. simpl.
        apply prefix_cons, prefix_nil.
    + destruct (IH (S i) s1) as (tr & Htr & Hpre). exists tr. split.
      * by rewrite Htr.
      * simpl. by apply Hshift.
Qed.

(** ** The registry *)

Lemma registry_order :
  map (λ b, (controller b, button b)) BUTTONS_DATA =
  [ (1, 0); (1, 1); (1, 2); (1, 3); (1, 4);
    (2, 0); (2, 1); (2, 2); (2, 3); (2, 4);
    (3, 0); (3, 1); (3, 2); (3, 3); (3, 4);
    (4, 0); (4, 1); (4, 2); (4, 3); (4, 4) ]%Z.
Proof. reflexivity. Qed.

Lemma registry_bits (b : Button) : b ∈ BUTTONS_DATA → (0 < bit b < 2 ^ 24)%Z.
Proof.
  intros Hb. unfold BUTTONS_DATA in Hb.
  repeat (apply elem_of_cons in Hb as [->|Hb]; [simpl; lia|]).
  by apply elem_of_nil in Hb.
Qed.

Lemma registry_identity (b : Button) :
  b ∈ BUTTONS_DATA → (1 ≤ controller b ≤ 4)%Z ∧ (0 ≤ button b ≤ 4)%Z.
Proof.
  intros Hb. unfold BUTTONS_DATA in Hb.
  repeat (apply elem_of_cons in Hb as [->|Hb]; [simpl; lia|]).
  by apply elem_of_nil in Hb.
Qed.

Lemma isPressedNow_pressed (field : Z) (b : Button) :
  (0 ≤ field < 2 ^ 24)%Z → b ∈ BUTTONS_DATA → isPressedNow field b = pressed field b.
Proof.
  intros Hf Hb. apply registry_bits in Hb.
  unfold isPressedNow, pressed. rewrite bitand_small; [done|lia..].
Qed.

Lemma on_data_long (data : Js.Buffer) (s : Session) :
  5 ≤ length data →
  ∃ b2 b3 b4,
    data !! 2 = Some b2 ∧ data !! 3 = Some b3 ∧ data !! 4 = Some b4 ∧
    on_data data s = update (field_of b2 b3 b4) s.
Proof.
  intros Hlen. destruct (pressedBits_long data Hlen) as (b2 & b3 & b4 & ? & ? & ? & Hbits).
  exists b2, b3, b4. repeat split; try done.
  unfold on_data. destruct (decide (length data < 5)); [lia|].
  unfold bind, gets. by rewrite Hbits.
Qed.

Lemma on_data_short (data : Js.Buffer) (s : Session) :
  length data < 5 → on_data data s = (Return tt, s).
Proof.
  intros Hlen. unfold on_data. by destruct (decide (length data < 5)).
Qed.

Lemma forEach_update_returns (prev : Js.BoolArray) (bits : Z) (bs : list Button) :
  ∀ (i : nat) (s : Session),
    quiet (ee s) → (forEach_from (update_button prev bits) bs i s).1 = Return tt.
Proof.
  induction bs as [|b bs IH]; intros i s Hq; [done|].
  simpl. unfold bind at 1. rewrite update_button_eq. simpl.
  destruct (Js.strict_neq _ _).
  - rewrite emit_button_eq. simpl.
    rewrite reached_all by apply Hq. simpl. apply IH.
    intros t ev. specialize (Hq t ev). by destruct s.
  - apply IH. intros t ev. specialize (Hq t ev). by destruct s.
Qed.

Lemma update_returns (field : Z) (s : Session) :
  quiet (ee s) → ∃ s', update field s = (Return tt, s').
Proof.
  intros Hq. unfold update, forEach.
  pose proof (forEach_update_returns (currentStates s) field BUTTONS_DATA 0 s Hq) as H.
  destruct (forEach_from _ _ _ _) as [r s']. simpl in H. subst. by exists s'.
Qed.

(** An update against states that agree with the field already. *)
Lemma forEach_update_same (prev : Js.BoolArray) (bits : Z) (bs : list Button) :
  ∀ (i : nat) (s : Session),
    (∀ j b, bs !! j = Some b →
            prev !! (i + j) = Some (Some (isPressedNow bits b)) ∧
            currentStates s !! (i + j) = Some (Some (isPressedNow bits b))) →
    forEach_from (update_button prev bits) bs i s = (Return tt, s).
Proof.
  induction bs as [|b bs IH]; intros i s Hsame; [done|].
  simpl. unfold bind at 1. rewrite update_button_eq. simpl.
  destruct (Hsame 0 b eq_refl) as [Hprev Hcur]. rewrite Nat.add_0_r in Hprev, Hcur.
  unfold Js.get. rewrite Hprev. simpl. rewrite Bool.eqb_reflx. simpl.
  assert (Js.set (currentStates s) i (isPressedNow bits b) = currentStates s) as ->.
  { unfold Js.set. destruct (decide _) as [|Hge]; [by apply list_insert_id|].
    apply lookup_lt_Some in Hcur. lia. }
  replace (set_currentStates (currentStates s) s) with s by (by destruct s).
  apply IH. intros j b' Hj. specialize (Hsame (S j) b' Hj).
  by replace (S i + j) with (i + S j) by lia.
Qed.

Lemma update_spec (field : Z) (s s' : Session) :
  (0 ≤ field < 2 ^ 24)%Z →
  update field s = (Return tt, s') →
  ∃ tr,
    s' = updated s tr (map (λ b, Some (pressed field b)) BUTTONS_DATA
                       ++ drop (length BUTTONS_DATA) (currentStates s)) ∧
    Forall (button_effect (ee s) BUTTONS_DATA) tr ∧
    emitted tr = transitions (currentStates s) field.
Proof.
  intros Hf Hrun. unfold update, forEach in Hrun.
  apply forEach_update in Hrun as (tr & cs & -> & Htr & Hok).
  destruct (Hok eq_refl) as [Hem Hcs]. rewrite Hcs by lia.
  exists tr. split; [|split; [done|]].
  - rewrite take_0, app_nil_l. f_equal. f_equal.
    apply map_ext_in. intros b Hb. f_equal.
    apply isPressedNow_pressed; [done|]. by apply list_elem_of_In.
  - rewrite Hem. unfold transitions. f_equal. apply imap_ext.
    intros i b Hb. cbv beta. rewrite isPressedNow_pressed; [done..|].
    by eapply list_elem_of_lookup_2.
Qed.

Lemma update_publishes_a_prefix (field : Z) (s : Session) :
  (0 ≤ field < 2 ^ 24)%Z →
  ∃ tr,
    trace (update field s).2 = trace s ++ tr ∧
    emitted tr `prefix_of` transitions (currentStates s) field.
Proof.
  intros Hf. unfold update, forEach.
  destruct (forEach_update_prefix (currentStates s) field BUTTONS_DATA 0 s)
    as (tr & Htr & Hpre).
  exists tr. split; [done|].
  unfold transitions. erewrite imap_ext; [exact Hpre|].
  intros i b Hb. cbv beta. rewrite isPressedNow_pressed; [done..|].
  by eapply list_elem_of_lookup_2.
Qed.

Lemma updated_states (s : Session) (tr : list Effect) (cs : Js.BoolArray) :
  currentStates (updated s tr cs) = cs.
Proof. by destruct s. Qed.

Lemma updated_trace (s : Session) (tr : list Effect) (cs : Js.BoolArray) :
  trace (updated s tr cs) = trace s ++ tr.
Proof. by destruct s. Qed.

Lemma updated_lookup (field : Z) (rest : Js.BoolArray) (i : nat) (b : Button) :
  BUTTONS_DATA !! i = Some b →
  (map (λ b, Some (pressed field b)) BUTTONS_DATA ++ rest) !! i
  = Some (Some (pressed field b)).
Proof.
  intros Hb. rewrite lookup_app_l.
  - change (map ?f ?l) with (f <$> l). by rewrite list_lookup_fmap, Hb.
  - rewrite length_map. by eapply lookup_lt_Some.
Qed.

(** An update that a listener ends: the pass stops at the button whose
    event was being published. *)
Lemma forEach_update_throws (prev : Js.BoolArray) (bits : Z) (bs : list Button) :
  ∀ (i : nat) (s : Session) (e : Exn) (s' : Session),
    forEach_from (update_button prev bits) bs i s = (Throw e, s') →
    ∃ n b tr,
      bs !! n = Some b ∧
      Js.strict_neq (isPressedNow bits b) (Js.get prev (i + n)) = true ∧
      trace s' = trace s ++ tr ∧
      emitted tr =
        concat (imap (λ j b, transition_of (isPressedNow bits b) (Js.get prev (i + j)) b)
                  (take (S n) bs)) ∧
      (i ≤ length (currentStates s) →
       currentStates s' =
         take i (currentStates s)
         ++ map (λ b, Some (isPressedNow bits b)) (take (S n) bs)
         ++ drop (i + S n) (currentStates s)).
Proof.
  induction bs as [|b bs IH]; intros i s e s' Hrun; [done|].
  simpl in Hrun. unfold bind in Hrun at 1. rewrite update_button_eq in Hrun.
  set (now_ := isPressedNow bits b) in *.
  set (s1 := set_currentStates (Js.set (currentStates s) i now_) s) in *.
  assert (currentStates s1 = Js.set (currentStates s) i now_) as Hcs1 by (by destruct s).
  assert (trace s1 = trace s) as Htr1 by (by destruct s).
  assert (∀ (s2 : Session) (t1 : list Effect),
            trace s2 = trace s ++ t1 →
            currentStates s2 = Js.set (currentStates s) i now_ →
            emitted t1 = transition_of now_ (Js.get prev i) b →
            forEach_from (update_button prev bits) bs (S i) s2 = (Throw e, s') →
            ∃ n b' tr,
              (b :: bs) !! n = Some b' ∧
              Js.strict_neq (isPressedNow bits b') (Js.get prev (i + n)) = true ∧
              trace s' = trace s ++ tr ∧
              emitted tr =
                concat (imap (λ j b, transition_of (isPressedNow bits b)
                                       (Js.get prev (i + j)) b)
                          (take (S n) (b :: bs))) ∧
              (i ≤ length (currentStates s) →
               currentStates s' =
                 take i (currentStates s)
                 ++ map (λ b, Some (isPressedNow bits b)) (take (S n) (b :: bs))
                 ++ drop (i + S n) (currentStates s))) as Hnext.
  { intros s2 t1 Ht2 Hcs2 Hem1 Hrest.
    apply IH in Hrest as (n & b' & tr & Hb' & Hneq & Htr & Hem & Hcs).
    exists (S n), b', (t1 ++ tr). split; [done|]. split.
    { by replace (i + S n) with (S i + n) by lia. }
    split; [by rewrite Htr, Ht2, <- app_assoc|]. split.
    - rewrite emitted_app, Hem1, Hem. simpl. rewrite Nat.add_0_r. f_equal.
      f_equal. apply imap_ext. intros j x _. simpl.
      by replace (i + S j) with (S i + j) by lia.
    - intros Hi. rewrite Hcs2 in Hcs. rewrite Hcs by (by apply set_length).
      rewrite set_take, set_drop by done.
      rewrite <- app_assoc. simpl.
      by replace (i + S (S n)) with (S (i + S n)) by lia. }
  simpl in Hrun. destruct (Js.strict_neq now_ (Js.get prev i)) eqn:Hneq.
  - rewrite emit_button_eq in Hrun.
    set (ls := button_listeners (eventType_of now_) (ee s1)) in *.
    set (ev := {| source := b; type := eventType_of now_ |}) in *.
    set (t1 := FxEmitButton (eventType_of now_) ev
                 :: map (deliver_button (eventType_of now_) ev)
                      (reached (run_button ev) ls).1) in *.
    assert (emitted t1 = transition_of now_ (Js.get prev i) b) as Hem1.
    { unfold transition_of. rewrite Hneq. unfold t1. simpl.
      by rewrite emitted_deliveries. }
    simpl in Hrun. destruct (ended _) as [[]|e1].
    + apply (Hnext _ t1) in Hrun; try done; destruct s; simpl in *; congruence.
    + injection Hrun as <- <-. exists 0, b, t1.
      split; [done|]. split; [by rewrite Nat.add_0_r|].
      split; [by destruct s|]. split.
      * simpl. rewrite Nat.add_0_r, app_nil_r. exact Hem1.
      * intros Hi. replace (currentStates (set_trace _ s1)) with (currentStates s1)
          by (by destruct s).
        rewrite Hcs1, set_next by done. simpl.
        by replace (i + 1) with (S i) by lia.
  - apply (Hnext s1 []) in Hrun; try done.
    + by rewrite app_nil_r.
    + unfold transition_of. by rewrite Hneq.
Qed.

Lemma update_throws (field : Z) (s : Session) (e : Exn) (s' : Session) :
  (0 ≤ field < 2 ^ 24)%Z →
  update field s = (Throw e, s') →
  ∃ n b tr,
    BUTTONS_DATA !! n = Some b ∧
    Js.strict_neq (pressed field b) (Js.get (currentStates s) n) = true ∧
    trace s' = trace s ++ tr ∧
    emitted tr =
      concat (imap (λ i b, transition_of (pressed field b) (Js.get (currentStates s) i) b)
                (take (S n) BUTTONS_DATA)) ∧
    currentStates s' =
      map (λ b, Some (pressed field b)) (take (S n) BUTTONS_DATA)
      ++ drop (S n) (currentStates s).
Proof.
  intros Hf Hrun. unfold update, forEach in Hrun.
  apply forEach_update_throws in Hrun as (n & b & tr & Hb & Hneq & Htr & Hem & Hcs).
  assert (∀ i x, take (S n) BUTTONS_DATA !! i = Some x →
                 isPressedNow field x = pressed field x) as Hsame.
  { intros i x Hx. apply isPressedNow_pressed; [done|].
    apply lookup_take_Some in Hx as [Hx _]. by eapply list_elem_of_lookup_2. }
  exists n, b, tr. split; [done|]. split.
  { rewrite <- (isPressedNow_pressed field b Hf); [done|].
    by eapply list_elem_of_lookup_2. }
  split; [done|]. split.
  - rewrite Hem. f_equal. apply imap_ext. intros i x Hx. cbv beta.
    by rewrite (Hsame i x Hx).
  - rewrite Hcs by lia. rewrite take_0, app_nil_l. f_equal.
    apply list_eq. intros i. change (map ?f ?l) with (f <$> l).
    rewrite !list_lookup_fmap.
    destruct (take (S n) BUTTONS_DATA !! i) as [x|] eqn:Hx; [|done].
    simpl. by rewrite (Hsame i x Hx).
Qed.

(** The stored states after an update that stopped at button [n]: the
    entries up to [n] are those of the field, the later ones are left. *)
Lemma stopped_states (field : Z) (n : nat) (cs cs' : Js.BoolArray) :
  n < length BUTTONS_DATA →
  cs' = map (λ b, Some (pressed field b)) (take (S n) BUTTONS_DATA) ++ drop (S n) cs →
  (∀ i b, i ≤ n → BUTTONS_DATA !! i = Some b → Js.get cs' i = Some (pressed field b)) ∧
  (∀ i, n < i → Js.get cs' i = Js.get cs i).
Proof.
  intros Hn ->.
  assert (length (map (λ b, Some (pressed field b)) (take (S n) BUTTONS_DATA)) = S n)
    as Hlen by (rewrite length_map, length_take; lia).
  split.
  - intros i b Hi Hb. unfold Js.get. rewrite lookup_app_l by lia.
    change (map ?f ?l) with (f <$> l). rewrite list_lookup_fmap.
    rewrite lookup_take_lt by lia. by rewrite Hb.
  - intros i Hi. unfold Js.get. rewrite lookup_app_r by lia.
    rewrite Hlen, lookup_drop. f_equal. f_equal. lia.
Qed.

(** ** Claims about the report listener *)

(** C3. A report of at least 5 bytes is decoded into the field made of the
    little-endian 16-bit value at offset 2 or-ed with the byte at offset 4
    shifted left by 16 bits, a 24-bit value, and the listener runs the
    update step on that field; a report of fewer than 5 bytes is dropped:
    the listener returns normally and leaves the whole session (stored
    states, trace of publications and errors) as it was. *)
Theorem on_data_decodes_or_discards (data : Js.Buffer) (s : Session) :
  (5 ≤ length data →
   ∃ b2 b3 b4,
     data !! 2 = Some b2 ∧ data !! 3 = Some b3 ∧ data !! 4 = Some b4 ∧
     let field := Z.lor (Js.byte_value b2 + 256 * Js.byte_value b3)
                        (Z.shiftl (Js.byte_value b4) 16) in
     pressedBits data = Some field ∧
     (0 ≤ field < 2 ^ 24)%Z ∧
     on_data data s = update field s) ∧
  (length data < 5 → on_data data s = (Return tt, s)).
Proof.
  split.
  - intros Hlen.
    destruct (pressedBits_long data Hlen) as (b2 & b3 & b4 & H2 & H3 & H4 & Hbits).
    exists b2, b3, b4. repeat split; try done; try apply field_of_range.
    unfold on_data. destruct (decide (length data < 5)); [lia|].
    unfold bind, gets. by rewrite Hbits.
  - apply on_data_short.
Qed.

Lemma on_data_decodes_or_discards_witness :
  (∃ b2 b3 b4,
     [x00; x00; x11; x02; x01] !! 2 = Some b2 ∧
     [x00; x00; x11; x02; x01] !! 3 = Some b3 ∧
     [x00; x00; x11; x02; x01] !! 4 = Some b4 ∧
     let field := Z.lor (Js.byte_value b2 + 256 * Js.byte_value b3)
                        (Z.shiftl (Js.byte_value b4) 16) in
     pressedBits [x00; x00; x11; x02; x01] = Some field ∧
     (0 ≤ field < 2 ^ 24)%Z ∧
     on_data [x00; x00; x11; x02; x01] Buzzer = update field Buzzer) ∧
  on_data [x00; x00; x11; x02] Buzzer = (Return tt, Buzzer).
Proof.
  split.
  - apply (proj1 (on_data_decodes_or_discards [x00; x00; x11; x02; x01] Buzzer)).
    simpl. lia.
  - apply (proj2 (on_data_decodes_or_discards [x00; x00; x11; x02] Buzzer)).
    simpl. lia.
Defined.

(** C4, as the claim states it, fails.  With a press listener that throws,
    an update on a field with C1_RED and C1_BLUE down publishes the press
    of C1_RED only, although both buttons changed, and leaves the entry of
    C1_BLUE as it was; the same field processed again then publishes the
    press of C1_BLUE. *)
Lemma aborted_update_counterexample :
  let thrower := {| cb_id := 1; cb_run := λ _ : JsObject, Some (CallbackError 5) |} in
  let s := run [ (plugged, CallOnPress thrower) ] Buzzer in
  let red := {| name := "C1_RED"; color := "red"; controller := 1; button := 0;
                bit := 0x01 |} in
  let blue := {| name := "C1_BLUE"; color := "blue"; controller := 1; button := 1;
                 bit := 0x10 |} in
  let s1 := (update 0x11 s).2 in
  let s2 := (update 0x11 s1).2 in
  BUTTONS_DATA !! 0 = Some red ∧ BUTTONS_DATA !! 1 = Some blue ∧
  emitted (trace s) = [] ∧
  Js.get (currentStates s) 0 = Some false ∧ pressed 0x11 red = true ∧
  Js.get (currentStates s) 1 = Some false ∧ pressed 0x11 blue = true ∧
  emitted (trace s1) = [("press", {| source := red; type := "press" |})] ∧
  Js.get (currentStates s1) 1 = Some false ∧
  emitted (trace s2) = [("press", {| source := red; type := "press" |});
                        ("press", {| source := blue; type := "press" |})].
Proof. vm_compute. repeat split. Qed.

(** C4, amended.  One update step on a 24-bit field visits the
    descriptors in registry order (controller 1 to 4, button 0 to 4 within
    each); for each it overwrites the stored entry with
    [(field & bit) != 0] and, when that differs from the entry stored
    before the step, publishes one press or release.  The step runs to its
    end whenever no subscribed listener throws.  When it runs to its end,
    it has published, in registry order, one event for exactly the
    descriptors that changed, several of them from the same step when
    several buttons change, every stored entry is overwritten, and the same
    field processed again publishes nothing and changes nothing.  When a
    listener throws, the step stops at the descriptor whose event was being
    published: the events of the changed descriptors up to that one are
    published, the entries up to that one are overwritten, and the later
    entries are left as they were, so that their transitions are published
    by a later step. *)
Theorem update_publishes_transitions (field : Z) (s : Session) :
  (0 ≤ field < 2 ^ 24)%Z →
  let changes := λ (i : nat) (b : Button),
    if Js.strict_neq (pressed field b) (Js.get (currentStates s) i)
    then [(eventType_of (pressed field b),
           {| source := b; type := eventType_of (pressed field b) |})]
    else [] in
  map (λ b, (controller b, button b)) BUTTONS_DATA =
    [ (1, 0); (1, 1); (1, 2); (1, 3); (1, 4);
      (2, 0); (2, 1); (2, 2); (2, 3); (2, 4);
      (3, 0); (3, 1); (3, 2); (3, 3); (3, 4);
      (4, 0); (4, 1); (4, 2); (4, 3); (4, 4) ]%Z ∧
  (quiet (ee s) → (update field s).1 = Return tt) ∧
  (∀ s', update field s = (Return tt, s') →
     (∃ tr, trace s' = trace s ++ tr ∧ emitted tr = concat (imap changes BUTTONS_DATA)) ∧
     (∀ i b, BUTTONS_DATA !! i = Some b →
             Js.get (currentStates s') i = Some (pressed field b)) ∧
     update field s' = (Return tt, s')) ∧
  (∀ e s', update field s = (Throw e, s') →
     ∃ n b,
       BUTTONS_DATA !! n = Some b ∧
       Js.strict_neq (pressed field b) (Js.get (currentStates s) n) = true ∧
       (∃ tr, trace s' = trace s ++ tr ∧
              emitted tr = concat (imap changes (take (S n) BUTTONS_DATA))) ∧
       (∀ i b', i ≤ n → BUTTONS_DATA !! i = Some b' →
                Js.get (currentStates s') i = Some (pressed field b')) ∧
       (∀ i, n < i → Js.get (currentStates s') i = Js.get (currentStates s) i)).
Proof.
  intros Hf changes. split; [apply registry_order|]. split; [|split].
  - intros Hq. destruct (update_returns field s Hq) as [s' Hrun]. by rewrite Hrun.
  - intros s' Hrun.
    destruct (update_spec field s s' Hf Hrun) as (tr & -> & _ & Hem).
    split; [|split].
    + exists tr. split; [apply updated_trace|]. exact Hem.
    + intros i b Hb. rewrite updated_states. unfold Js.get.
      by rewrite (updated_lookup field _ i b Hb).
    + unfold update, forEach. apply forEach_update_same.
      intros j b Hb. rewrite updated_states. change (0 + j) with j.
      rewrite (updated_lookup field _ j b Hb).
      rewrite isPressedNow_pressed; [done..|]. by eapply list_elem_of_lookup_2.
  - intros e s' Hrun.
    destruct (update_throws field s e s' Hf Hrun) as (n & b & tr & Hb & Hneq & Htr & Hem & Hcs).
    exists n, b. split; [done|]. split; [done|]. split; [by exists tr|].
    apply (stopped_states field n (currentStates s)); [|done].
    by eapply lookup_lt_Some.
Qed.

Lemma update_publishes_transitions_witness :
  let thrower := {| cb_id := 1; cb_run := λ _ : JsObject, Some (CallbackError 5) |} in
  let s := run [ (plugged, CallOnPress thrower) ] Buzzer in
  (0 ≤ 17 < 2 ^ 24)%Z ∧
  (update 17 Buzzer).1 = Return tt ∧
  update 17 (update 17 Buzzer).2 = (Return tt, (update 17 Buzzer).2) ∧
  ∃ n b,
    BUTTONS_DATA !! n = Some b ∧
    Js.strict_neq (pressed 17 b) (Js.get (currentStates s) n) = true ∧
    (∀ i, n < i → Js.get (currentStates (update 17 s).2) i = Js.get (currentStates s) i).
Proof.
  intros thrower s.
  assert (0 ≤ 17 < 2 ^ 24)%Z as Hf by lia.
  split; [exact Hf|]. split; [vm_compute; reflexivity|]. split.
  - apply (proj1 (proj2 (proj2 (update_publishes_transitions 17 Buzzer Hf)))
             (update 17 Buzzer).2).
    vm_compute. reflexivity.
  - destruct (proj2 (proj2 (proj2 (update_publishes_transitions 17 s Hf)))
                (CallbackError 5) (update 17 s).2)
      as (n & b & Hb & Hneq & _ & _ & Hlater).
    + vm_compute. reflexivity.
    + exists n, b. split; [exact Hb|]. split; [exact Hneq|exact Hlater].
Defined.

(** After a report with C1_RED down, a report with C1_RED and C1_BLUE down
    publishes one transition, the press of C1_BLUE. *)
Example red_then_red_and_blue :
  let s1 := (on_data [x00; x00; x01; x00; x00] Buzzer).2 in
  emitted (trace (on_data [x00; x00; x11; x00; x00] s1).2) =
  emitted (trace s1) ++
  [("press", {| source := {| name := "C1_BLUE"; color := "blue"; controller := 1;
                              button := 1; bit := 0x10 |};
                type := "press" |})].
Proof. vm_compute. reflexivity. Qed.

(** C10, as the claim states it, fails.  With a press listener that
    throws, a report with C1_BLUE down followed by a report with only
    C1_RED down leaves C1_BLUE stored as pressed: the listener ends the
    second update at C1_RED, before the entry of C1_BLUE is overwritten. *)
Lemma aborted_report_keeps_pressed_counterexample :
  let thrower := {| cb_id := 1; cb_run := λ _ : JsObject, Some (CallbackError 5) |} in
  let s := run [ (plugged, CallOnPress thrower) ] Buzzer in
  let blue := {| name := "C1_BLUE"; color := "blue"; controller := 1; button := 1;
                 bit := 0x10 |} in
  let s1 := (on_data [x00; x00; x10; x00; x00] s).2 in
  let s2 := (on_data [x00; x00; x01; x00; x00] s1).2 in
  BUTTONS_DATA !! 1 = Some blue ∧
  pressedBits [x00; x00; x01; x00; x00] = Some 1%Z ∧
  negb (Z.land 1 (bit blue) =? 0)%Z = false ∧
  (on_data [x00; x00; x01; x00; x00] s1).1 = Throw (CallbackError 5) ∧
  Js.get (currentStates s2) 1 = Some true ∧
  take 3 (currentStates s2) = [Some true; Some true; Some false].
Proof. vm_compute. repeat split. Qed.

(** C10, amended.  When the listener has processed a report of at least 5
    bytes to its end, which it does whenever no subscribed listener throws,
    the stored entry of each of the 20 buttons is [(field & bit) != 0] for
    the field decoded from that report: the first 20 stored entries are a
    function of the report alone, whatever was stored before.  When a
    subscribed listener throws, the update stops at the button whose event
    was being published: the entries up to that button are those of the
    report, and the later entries keep what was stored before, also a
    pressed flag that the report does not assert. *)
Theorem on_data_stores_the_report (data : Js.Buffer) (s : Session) :
  5 ≤ length data →
  ∃ b2 b3 b4,
    data !! 2 = Some b2 ∧ data !! 3 = Some b3 ∧ data !! 4 = Some b4 ∧
    let field := Z.lor (Js.byte_value b2 + 256 * Js.byte_value b3)
                       (Z.shiftl (Js.byte_value b4) 16) in
    (quiet (ee s) → (on_data data s).1 = Return tt) ∧
    (∀ s', on_data data s = (Return tt, s') →
       (∀ i b, BUTTONS_DATA !! i = Some b →
               Js.get (currentStates s') i = Some (negb (Z.land field (bit b) =? 0)%Z)) ∧
       take (length BUTTONS_DATA) (currentStates s') =
         map (λ b, Some (negb (Z.land field (bit b) =? 0)%Z)) BUTTONS_DATA) ∧
    (∀ e s', on_data data s = (Throw e, s') →
       ∃ n, n < length BUTTONS_DATA ∧
         (∀ i b, i ≤ n → BUTTONS_DATA !! i = Some b →
                 Js.get (currentStates s') i = Some (negb (Z.land field (bit b) =? 0)%Z)) ∧
         (∀ i, n < i → Js.get (currentStates s') i = Js.get (currentStates s) i)).
Proof.
  intros Hlen.
  destruct (on_data_long data s Hlen) as (b2 & b3 & b4 & H2 & H3 & H4 & Heq).
  exists b2, b3, b4. split; [done|]. split; [done|]. split; [done|].
  cbv zeta. fold (field_of b2 b3 b4). rewrite Heq.
  pose proof (field_of_range b2 b3 b4) as Hf.
  split; [|split].
  - intros Hq. destruct (update_returns (field_of b2 b3 b4) s Hq) as [s' Hrun].
    by rewrite Hrun.
  - intros s' Hrun.
    destruct (update_spec _ s s' Hf Hrun) as (tr & -> & _ & _).
    rewrite updated_states. split.
    + intros i b Hb. unfold Js.get.
      by rewrite (updated_lookup (field_of b2 b3 b4) _ i b Hb).
    + rewrite take_app_length'; [done|]. by rewrite length_map.
  - intros e s' Hrun.
    destruct (update_throws _ s e s' Hf Hrun) as (n & b & tr & Hb & _ & _ & _ & Hcs).
    assert (n < length BUTTONS_DATA) as Hn by (by eapply lookup_lt_Some).
    exists n. split; [done|].
    apply (stopped_states (field_of b2 b3 b4) n (currentStates s)); done.
Qed.

Lemma on_data_stores_the_report_witness :
  let data := [x00; x00; x11; x02; x01] in
  let s := (on_data [x00; x00; xff; xff; xff] Buzzer).2 in
  ∃ b2 b3 b4,
    data !! 2 = Some b2 ∧ data !! 3 = Some b3 ∧ data !! 4 = Some b4 ∧
    let field := Z.lor (Js.byte_value b2 + 256 * Js.byte_value b3)
                       (Z.shiftl (Js.byte_value b4) 16) in
    (∀ i b, BUTTONS_DATA !! i = Some b →
            Js.get (currentStates (on_data data s).2) i
            = Some (negb (Z.land field (bit b) =? 0)%Z)) ∧
    take (length BUTTONS_DATA) (currentStates (on_data data s).2) =
      map (λ b, Some (negb (Z.land field (bit b) =? 0)%Z)) BUTTONS_DATA.
Proof.
  intros data s.
  assert (5 ≤ length data) as Hlen by (simpl; lia).
  destruct (on_data_stores_the_report data s Hlen)
    as (b2 & b3 & b4 & H2 & H3 & H4 & _ & Hend & _).
  exists b2, b3, b4. split; [exact H2|]. split; [exact H3|]. split; [exact H4|].
  apply (Hend (on_data data s).2). vm_compute. reflexivity.
Defined.

(** ** Publication *)

Lemma emit_error_eq (payload : ErrorPayload) (s : Session) :
  emit_error payload s =
  match error_listeners (ee s) with
  | [] => (Throw (unhandled payload), set_trace (trace s ++ [FxEmitError payload]) s)
  | l :: ls =>
      (ended (reached (λ l, cb_run l payload) (l :: ls)).2,
       set_trace (trace s ++ FxEmitError payload
                    :: map (λ l, FxDeliverError (cb_id l) payload)
                         (reached (λ l, cb_run l payload) (l :: ls)).1) s)
  end.
Proof.
  unfold emit_error, bind, log, modify, gets, throw. simpl.
  destruct (error_listeners (ee s)) as [|l ls] eqn:Hls.
  - by destruct payload.
  - replace (error_listeners (ee s)) with (l :: ls) by (by destruct s).
    rewrite call_listeners_eq. f_equal.
    apply (set_trace_more [FxEmitError payload]).
Qed.




Example ready_session_is_ready :
  isReady ready_session = true ∧
  readyPromise ready_session = Some 0 ∧
  promises ready_session = [ {| outcome := Some (Return tt); reactions := [] |} ] ∧
  hidDevice ready_session = Some handle ∧
  timers ready_session = [] ∧
  jobs ready_session = [] ∧
  now ready_session = 1850.
Proof. vm_compute. done. Qed.

(** ** The LED controller *)

Lemma privateSetLeds_eq (w : World) (p1 p2 p3 p4 : bool) (s : Session) (h : Handle) :
  hidDevice s = Some h →
  privateSetLeds w p1 p2 p3 p4 s =
  let primary := primary_report p1 p2 p3 p4 in
  let fallback := fallback_report p1 p2 p3 p4 in
  if hid_write_fails w primary then
    if hid_write_fails w fallback then
      emit_error (EText "Failed to set LEDs")
        (set_trace (trace s ++ [FxHidWrite primary false; FxHidWrite fallback false]) s)
    else
      (Return tt,
       set_trace (trace s ++ [FxHidWrite primary false; FxHidWrite fallback true]) s)
  else (Return tt, set_trace (trace s ++ [FxHidWrite primary true]) s).
Proof.
  intros Hhid. unfold privateSetLeds, bind at 1, gets. rewrite Hhid.
  change (<[7:=x00]> _) with (primary_report p1 p2 p3 p4).
  unfold try_catch, hid_write, bind, log, modify, throw, ret. cbv zeta.
  change ([x00; x00; led p1; led p2; led p3; led p4]) with (fallback_report p1 p2 p3 p4).
  destruct (hid_write_fails w (primary_report p1 p2 p3 p4)); simpl; [|done].
  destruct (hid_write_fails w (fallback_report p1 p2 p3 p4)); simpl.
  - f_equal. destruct s; simpl. by rewrite <- app_assoc.
  - f_equal. destruct s; simpl. by rewrite <- app_assoc.
Qed.

(** C7, as the claim states it, fails: in a ready session without any
    listener for the error event, an LED write whose two reports are both
    rejected raises ERR_UNHANDLED_ERROR to its caller, and [setLeds]
    rejects with it. *)
Lemma led_failure_thrown_counterexample :
  (privateSetLeds leds_broken true false false false ready_session).1
  = Throw (UnhandledError "Failed to set LEDs") ∧
  last (trace (run [ (leds_broken, CallSetLeds true false false false);
                     (leds_broken, Microtask) ] ready_session))
  = Some (FxRejected "setLeds" (UnhandledError "Failed to set LEDs")).
Proof. vm_compute. done. Qed.

(** C7, amended.  An LED write on an open HID handle first writes the
    8-byte report [00 00 P1 P2 P3 P4 00 00], each Pn being FF or 00; it
    writes the 6-byte report [00 00 P1 P2 P3 P4] if and only if the first
    write is rejected; it publishes one error event, "Failed to set LEDs",
    if and only if both writes are rejected, and writes nothing more.  The
    call returns normally when a write is accepted, and also after the
    publication when error listeners are subscribed and none of them
    throws; without an error listener the publication raises to the
    caller. *)
Theorem privateSetLeds_primary_then_fallback
    (w : World) (p1 p2 p3 p4 : bool) (s : Session) (h : Handle) :
  hidDevice s = Some h →
  let primary := [x00; x00; led p1; led p2; led p3; led p4; x00; x00] in
  let fallback := [x00; x00; led p1; led p2; led p3; led p4] in
  let both_rejected := hid_write_fails w primary && hid_write_fails w fallback in
  ∃ tr r,
    privateSetLeds w p1 p2 p3 p4 s = (r, set_trace (trace s ++ tr) s) ∧
    hid_writes tr = (if hid_write_fails w primary then [primary; fallback] else [primary]) ∧
    error_publications tr =
      (if both_rejected then [EText "Failed to set LEDs"] else []) ∧
    (both_rejected = false → r = Return tt) ∧
    (both_rejected = true → error_listeners (ee s) ≠ [] →
     Forall (λ l, cb_run l (EText "Failed to set LEDs") = None) (error_listeners (ee s)) →
     r = Return tt) ∧
    (both_rejected = true → error_listeners (ee s) = [] →
     r = Throw (UnhandledError "Failed to set LEDs")).
Proof.
  intros Hhid primary fallback both_rejected.
  rewrite (privateSetLeds_eq w p1 p2 p3 p4 s h Hhid). cbv zeta.
  change (primary_report p1 p2 p3 p4) with primary.
  change (fallback_report p1 p2 p3 p4) with fallback.
  subst both_rejected.
  destruct (hid_write_fails w primary); simpl.
  2: { eexists _, _. split; [done|]. repeat split; try done. }
  destruct (hid_write_fails w fallback); simpl.
  2: { eexists _, _. split; [done|]. repeat split; try done. }
  rewrite emit_error_eq.
  set (s1 := set_trace _ s).
  replace (error_listeners (ee s1)) with (error_listeners (ee s)) by (by destruct s).
  destruct (error_listeners (ee s)) as [|l ls] eqn:Hls.
  - exists [FxHidWrite primary false; FxHidWrite fallback false;
            FxEmitError (EText "Failed to set LEDs")], (Throw (UnhandledError "Failed to set LEDs")).
    split; [|repeat split; done].
    f_equal. subst s1.
    apply (set_trace_more [FxHidWrite primary false; FxHidWrite fallback false]).
  - set (run := λ l : Callback ErrorPayload, cb_run l (EText "Failed to set LEDs")).
    exists (FxHidWrite primary false :: FxHidWrite fallback false
            :: FxEmitError (EText "Failed to set LEDs")
            :: map (λ l, FxDeliverError (cb_id l) (EText "Failed to set LEDs"))
                 (reached run (l :: ls)).1),
           (ended (reached run (l :: ls)).2).
    split; [|repeat split; try done].
    + f_equal. subst s1.
      apply (set_trace_more [FxHidWrite primary false; FxHidWrite fallback false]).
    + unfold hid_writes. cbn [omap list_omap]. do 2 f_equal.
      generalize (reached run (l :: ls)).1.
      intros delivered. induction delivered; simpl; done.
    + unfold error_publications. cbn [omap list_omap]. f_equal.
      generalize (reached run (l :: ls)).1.
      intros delivered. induction delivered; simpl; done.
    + intros _ _ Hall. by rewrite reached_all.
Qed.

Lemma privateSetLeds_primary_then_fallback_witness :
  ∃ tr r,
    privateSetLeds leds_broken true false true false supervised_session
    = (r, set_trace (trace supervised_session ++ tr) supervised_session) ∧
    hid_writes tr = [ [x00; x00; xff; x00; xff; x00; x00; x00];
                      [x00; x00; xff; x00; xff; x00] ] ∧
    error_publications tr = [EText "Failed to set LEDs"] ∧
    r = Return tt.
Proof.
  assert (hidDevice supervised_session = Some handle) as Hhid
    by (vm_compute; reflexivity).
  destruct (privateSetLeds_primary_then_fallback leds_broken true false true false
              supervised_session handle Hhid)
    as (tr & r & Hrun & Hw & He & _ & Hr & _).
  exists tr, r.
  split; [exact Hrun|]. split; [exact Hw|]. split; [exact He|].
  apply Hr.
  - reflexivity.
  - vm_compute. discriminate.
  - vm_compute. repeat constructor.
Defined.

(** ** A logic of footprints

    For a preorder [R] the judgement [stable R m] follows the structure of
    the computation; what remains to be checked are the assignments. *)

Section Stable.
Context (R : relation Session) `{!PreOrder R}.

Lemma stable_ret {A} (a : A) : stable R (ret a).
Proof. intros s. simpl. reflexivity. Qed.

Lemma stable_throw {A} (e : Exn) : stable R (@throw A e).
Proof. intros s. simpl. reflexivity. Qed.

Lemma stable_gets {A} (f : Session → A) : stable R (gets f).
Proof. intros s. simpl. reflexivity. Qed.

Lemma stable_modify (g : Session → Session) :
  (∀ s, R s (g s)) → stable R (modify g).
Proof. intros Hg s. apply Hg. Qed.

Lemma stable_bind {A B} (m : M A) (k : A → M B) :
  stable R m → (∀ a, stable R (k a)) → stable R (bind m k).
Proof.
  intros Hm Hk s. unfold bind. specialize (Hm s).
  destruct (m s) as [[a|e] s1]; simpl in *; [|done].
  by etrans; [|apply Hk].
Qed.

Lemma stable_try_catch {A} (m : M A) (h : Exn → M A) :
  stable R m → (∀ e, stable R (h e)) → stable R (try_catch m h).
Proof.
  intros Hm Hh s. unfold try_catch. specialize (Hm s).
  destruct (m s) as [[a|e] s1]; simpl in *; [done|].
  by etrans; [|apply Hh].
Qed.

Lemma stable_attempt {A} (m : M A) : stable R m → stable R (attempt m).
Proof.
  intros Hm s. unfold attempt. specialize (Hm s).
  by destruct (m s) as [r s1].
Qed.

Lemma stable_call_listeners {L} (deliver : L → Effect) (run : L → option Exn)
    (ls : list L) :
  (∀ l, stable R (log (deliver l))) → stable R (call_listeners deliver run ls).
Proof.
  intros Hlog. induction ls as [|l ls IH]; simpl; [apply stable_ret|].
  apply stable_bind; [apply Hlog|]. intros _.
  destruct (run l); [apply stable_throw|apply IH].
Qed.

Lemma stable_forEach_from {A} (body : A → nat → M unit) (l : list A) (i : nat) :
  (∀ x j, stable R (body x j)) → stable R (forEach_from body l i).
Proof.
  intros Hbody. revert i. induction l as [|x l IH]; intros i; simpl.
  - apply stable_ret.
  - apply stable_bind; [apply Hbody|]. intros _. apply IH.
Qed.

Lemma stable_enqueue_reactions (ks : list Reaction) (r : Result unit) :
  (∀ k, stable R (enqueue (React k r))) → stable R (enqueue_reactions ks r).
Proof.
  intros Hq. induction ks as [|k ks IH]; simpl; [apply stable_ret|].
  apply stable_bind; [apply Hq|]. intros _. apply IH.
Qed.

Lemma stable_blink (cycles delay : nat) :
  (∀ on d, stable R (setTimeout (Leds on) d)) → stable R (blink cycles delay).
Proof.
  intros Ht. revert delay. induction cycles as [|n IH]; intros delay; simpl.
  - apply stable_ret.
  - apply stable_bind; [apply Ht|]. intros _.
    apply stable_bind; [apply Ht|]. intros _. apply IH.
Qed.
End Stable.

#[global] Instance keep_preorder {V} (v : Session → V) : PreOrder (keep v).
Proof.
  split.
  - by intros s.
  - intros s1 s2 s3 H12 H23. unfold keep in *. congruence.
Qed.

#[global] Instance logging_preorder (P : Effect → Prop) : PreOrder (logging P).
Proof.
  split.
  - intros s. exists []. by rewrite app_nil_r.
  - intros s1 s2 s3 (t1 & H1 & F1) (t2 & H2 & F2). exists (t1 ++ t2).
    split; [by rewrite H2, H1, app_assoc|by apply Forall_app].
Qed.

#[global] Instance both_preorder (R1 R2 : relation Session)
  `{!PreOrder R1, !PreOrder R2} : PreOrder (both R1 R2).
Proof.
  split.
  - intros s. split; reflexivity.
  - intros s1 s2 s3 [? ?] [? ?]. split; etrans; done.
Qed.

Lemma logging_log (P : Effect → Prop) (fx : Effect) :
  P fx → stable (logging P) (log fx).
Proof.
  intros HP s. exists [fx]. split; [by destruct s|by constructor].
Qed.

Lemma logging_silent (P : Effect → Prop) (g : Session → Session) (s : Session) :
  trace (g s) = trace s → logging P s (g s).
Proof. intros Hg. exists []. by rewrite app_nil_r. Qed.

Lemma stable_weaken (R R' : relation Session) {A} (m : M A) :
  (∀ s s', R s s' → R' s s') → stable R m → stable R' m.
Proof. intros HR Hm s. apply HR, Hm. Qed.

Lemma stable_both (R1 R2 : relation Session) {A} (m : M A) :
  stable R1 m → stable R2 m → stable (both R1 R2) m.
Proof. intros H1 H2 s. split; [apply H1|apply H2]. Qed.

Create HintDb footprint discriminated.
Create HintDb ops discriminated.

#[local] Hint Unfold
  emit_button emit_ready emit_error usb hid_write privateSetLeds update_button
  on_data forEach enqueue openAndClaim findInterruptEndpoint
  setupBuzzListener_resume setTimeout startup_animation resume_setup
  setLeds setLedsarray onReady onPress onRelease onChange onError
  run_timer react async : ops.

(** Applies a rule of the logic; the preorder is found by instance search. *)
Ltac rule lem :=
  apply lem; try (lazymatch goal with |- PreOrder _ => apply _ end).

(** Follows the structure of a computation down to its assignments, which
    [leaf] has to settle; judgements recorded in [footprint] are used as
    they are. *)
Ltac stable_with leaf :=
  repeat first
    [ solve [auto with footprint nocore]
    | lazymatch goal with
      | |- stable _ (ret _) => rule @stable_ret
      | |- stable _ (throw _) => rule @stable_throw
      | |- stable _ (gets _) => rule @stable_gets
      | |- stable _ (bind _ _) => (rule @stable_bind); [|intros ?]
      | |- stable _ (try_catch _ _) => (rule @stable_try_catch); [|intros ?]
      | |- stable _ (attempt _) => rule @stable_attempt
      | |- stable _ (call_listeners _ _ _) => (rule @stable_call_listeners); intros ?
      | |- stable _ (forEach_from _ _ _) => (rule @stable_forEach_from); intros ? ?
      | |- stable _ (enqueue_reactions _ _) => (rule @stable_enqueue_reactions); intros ?
      | |- stable _ (blink _ _) => (rule @stable_blink); intros ? ?
      | |- stable _ (match ?x with _ => _ end) => destruct x
      end
    | progress cbv zeta
    | leaf
    | progress autounfold with ops ].

(** An assignment to a variable that the view does not read. *)
Ltac keep_leaf :=
  idtac;
  lazymatch goal with
  | |- stable (keep _) (log _) => unfold log
  | |- stable (keep _) (modify _) => rule @stable_modify; intros []; reflexivity
  end.

(** An effect of the kind that is logged, or an assignment that leaves
    the trace alone. *)
Ltac logging_leaf :=
  idtac;
  lazymatch goal with
  | |- stable (logging _) (log _) => apply logging_log; done
  | |- stable (logging _) (modify _) =>
      rule @stable_modify; intros []; apply logging_silent; reflexivity
  end.

Lemma emit_error_plain (payload : ErrorPayload) :
  stable (both (logging plain) (keep lifecycle)) (emit_error payload).
Proof.
  apply stable_both; [stable_with logging_leaf|stable_with keep_leaf].
Qed.

Lemma privateSetLeds_plain (w : World) (p1 p2 p3 p4 : bool) :
  stable (both (logging plain) (keep lifecycle)) (privateSetLeds w p1 p2 p3 p4).
Proof.
  apply stable_both; [stable_with logging_leaf|stable_with keep_leaf].
Qed.

Lemma on_data_plain (data : Js.Buffer) :
  stable (both (logging plain) (keep lifecycle)) (on_data data).
Proof.
  apply stable_both; [stable_with logging_leaf|stable_with keep_leaf].
Qed.

(** ** Counting effects and jobs *)

Lemma count_app (c : Effect → bool) (t1 t2 : list Effect) :
  count c (t1 ++ t2) = count c t1 + count c t2.
Proof. induction t1 as [|fx t1 IH]; simpl; [done|]. rewrite IH. lia. Qed.

Lemma count_none (c : Effect → bool) (tr : list Effect) :
  Forall (λ fx, c fx = false) tr → count c tr = 0.
Proof. induction 1 as [|fx tr Hfx _ IH]; simpl; [done|]. by rewrite Hfx, IH. Qed.

Lemma count_resume_app (j1 j2 : list Job) :
  count_resume (j1 ++ j2) = count_resume j1 + count_resume j2.
Proof. induction j1 as [|[] j1 IH]; simpl; lia. Qed.

Lemma keep_lifecycle_progress (s s' : Session) :
  keep lifecycle s s' → keep progress_view s s'.
Proof.
  unfold keep, lifecycle, progress_view. intros [=]. congruence.
Qed.

Lemma enqueue_react_progress (k : Reaction) (r : Result unit) :
  stable (both (logging plain) (keep progress_view)) (enqueue (React k r)).
Proof.
  intros s. split.
  - apply logging_silent. by destruct s.
  - unfold keep, progress_view, enqueue, modify. destruct s; simpl.
    rewrite count_resume_app. simpl. by rewrite Nat.add_0_r.
Qed.
#[local] Hint Resolve enqueue_react_progress : footprint.

Lemma settle_progress (p : PromiseId) (r : Result unit) :
  stable (both (logging plain) (keep progress_view)) (settle p r).
Proof.
  unfold settle. intros s. unfold bind at 1, gets. simpl.
  destruct (promises s !! p) as [[[o|] ks]|] eqn:Hp; simpl; try reflexivity.
  unfold bind, modify. simpl.
  etrans; [|apply (stable_enqueue_reactions _); intros k; apply enqueue_react_progress].
  split.
  - apply logging_silent. by destruct s.
  - unfold keep, progress_view. destruct s; simpl in *. by rewrite length_insert.
Qed.
#[local] Hint Resolve settle_progress : footprint.

Lemma chain_progress (on : Awaited) (k : Reaction) :
  stable (both (logging plain) (keep progress_view)) (chain on k).
Proof.
  unfold chain. destruct on as [|p]; [apply enqueue_react_progress|].
  intros s. unfold bind at 1, gets. simpl.
  destruct (promises s !! p) as [[[o|] ks]|] eqn:Hp; simpl; try reflexivity.
  - apply enqueue_react_progress.
  - split.
    + apply logging_silent. by destruct s.
    + unfold keep, progress_view. destruct s; simpl in *. by rewrite length_insert.
Qed.
#[local] Hint Resolve chain_progress : footprint.

Lemma lifecycle_to_progress {A} (m : M A) :
  stable (both (logging plain) (keep lifecycle)) m →
  stable (both (logging plain) (keep progress_view)) m.
Proof.
  apply stable_weaken. intros s s' [? ?]. split; [done|].
  by apply keep_lifecycle_progress.
Qed.

Lemma emit_ready_plain :
  stable (both (logging plain) (keep lifecycle)) emit_ready.
Proof.
  apply stable_both; [stable_with logging_leaf|stable_with keep_leaf].
Qed.

Lemma react_plain (w : World) (k : Reaction) (settled : Result unit) :
  stable (both (logging plain) (keep lifecycle)) (react w k settled).
Proof.
  apply stable_both; [stable_with logging_leaf|stable_with keep_leaf].
Qed.

Lemma run_timer_progress (w : World) (action : TimerAction) :
  stable (both (logging plain) (keep progress_view)) (run_timer w action).
Proof.
  destruct action as [on|p]; simpl.
  - apply lifecycle_to_progress, privateSetLeds_plain.
  - rule @stable_bind.
    { intros s. split; [apply logging_silent; by destruct s|by destruct s]. }
    intros _. rule @stable_bind.
    { apply lifecycle_to_progress, emit_ready_plain. }
    intros _. apply settle_progress.
Qed.

(** ** Effects that happen at most once *)

Section Grows.
Context (c : Effect → bool).

Lemma grows_none {A} (m : M A) :
  stable (logging (λ fx, c fx = false)) m → grows c 0 m.
Proof.
  intros Hm s. destruct (Hm s) as (tr & Htr & Hnone).
  exists tr. split; [done|]. by rewrite count_none.
Qed.

Lemma grows_weaken {A} (n n' : nat) (m : M A) :
  n ≤ n' → grows c n m → grows c n' m.
Proof.
  intros Hn Hm s. destruct (Hm s) as (tr & Htr & Hc). exists tr. split; [done|lia].
Qed.

Lemma grows_log (fx : Effect) : grows c 1 (log fx).
Proof.
  intros s. exists [fx]. split; [by destruct s|]. simpl. destruct (c fx); lia.
Qed.

Lemma grows_bind {A B} (n1 n2 : nat) (m : M A) (k : A → M B) :
  grows c n1 m → (∀ a, grows c n2 (k a)) → grows c (n1 + n2) (bind m k).
Proof.
  intros Hm Hk s. unfold bind. destruct (Hm s) as (t1 & H1 & C1).
  destruct (m s) as [[a|e] s1]; simpl in *.
  - destruct (Hk a s1) as (t2 & H2 & C2). exists (t1 ++ t2).
    split; [by rewrite H2, H1, app_assoc|]. rewrite count_app. lia.
  - exists t1. split; [done|lia].
Qed.

Lemma grows_try_catch {A} (n1 n2 : nat) (m : M A) (h : Exn → M A) :
  grows c n1 m → (∀ e, grows c n2 (h e)) → grows c (n1 + n2) (try_catch m h).
Proof.
  intros Hm Hh s. unfold try_catch. destruct (Hm s) as (t1 & H1 & C1).
  destruct (m s) as [[a|e] s1]; simpl in *.
  - exists t1. split; [done|lia].
  - destruct (Hh e s1) as (t2 & H2 & C2). exists (t1 ++ t2).
    split; [by rewrite H2, H1, app_assoc|]. rewrite count_app. lia.
Qed.

Lemma grows_attempt {A} (n : nat) (m : M A) : grows c n m → grows c n (attempt m).
Proof.
  intros Hm s. unfold attempt. destruct (Hm s) as (tr & Htr & Hc).
  destruct (m s) as [r s1]. by exists tr.
Qed.
End Grows.

(** A computation none of whose effects is selected by [c]. *)
Ltac none_selected :=
  solve [apply grows_none; stable_with logging_leaf].

(** Peels the part of a computation that precedes its selected effect. *)
Ltac before_selected :=
  repeat first
    [ apply (grows_bind _ 0 1); [none_selected|intros ?]
    | progress cbv zeta
    | lazymatch goal with
      | |- grows _ _ (match ?x with _ => _ end) => destruct x
      end ].

Lemma usb_once (c : Effect → bool) (call : UsbCall) (fails : bool) :
  grows c 1 (usb call fails).
Proof.
  unfold usb. apply (grows_bind _ 1 0); [apply grows_log|].
  intros _. none_selected.
Qed.

Lemma openAndClaim_claims_once (w : World) :
  grows (is_usb Claim) 1 (openAndClaim w).
Proof.
  unfold openAndClaim. apply (grows_try_catch _ 1 0); [|intros e; none_selected].
  before_selected; first [apply usb_once | apply (grows_weaken _ 0); [lia|none_selected]].
Qed.

Lemma openAndClaim_discovers_once (w : World) :
  grows (is_usb FindByIds) 1 (openAndClaim w).
Proof.
  unfold openAndClaim. apply (grows_try_catch _ 1 0); [|intros e; none_selected].
  apply (grows_bind _ 1 0); [apply grows_log|]. intros _. none_selected.
Qed.

(** Promises are settled, chained and created without any effect. *)
Lemma settle_logs (P : Effect → Prop) (p : PromiseId) (r : Result unit) :
  stable (logging P) (settle p r).
Proof. unfold settle. stable_with logging_leaf. Qed.

Lemma chain_logs (P : Effect → Prop) (on : Awaited) (k : Reaction) :
  stable (logging P) (chain on k).
Proof. unfold chain. stable_with logging_leaf. Qed.

Lemma new_promise_logs (P : Effect → Prop) : stable (logging P) new_promise.
Proof. unfold new_promise. stable_with logging_leaf. Qed.
#[local] Hint Resolve settle_logs chain_logs new_promise_logs : footprint.

Lemma stable_right (R1 R2 : relation Session) {A} (m : M A) :
  stable (both R1 R2) m → stable R2 m.
Proof. intros Hm s. apply Hm. Qed.

Lemma settle_keeps (p : PromiseId) (r : Result unit) :
  stable (keep progress_view) (settle p r).
Proof. eapply stable_right, settle_progress. Qed.

Lemma chain_keeps (on : Awaited) (k : Reaction) :
  stable (keep progress_view) (chain on k).
Proof. eapply stable_right, chain_progress. Qed.
#[local] Hint Resolve settle_keeps chain_keeps : footprint.

(** The selected effect, then nothing selected. *)
Ltac selected_then_none :=
  apply (grows_bind _ 1 0);
  [first [apply grows_log | apply usb_once]|intros ?; none_selected].

Lemma setupBuzzListener_resume_opens_hid_once (w : World) (opened : Result unit) :
  grows (is_usb HidOpen) 1 (setupBuzzListener_resume w opened).
Proof.
  unfold setupBuzzListener_resume.
  apply (grows_try_catch _ 1 0); [|intros e; none_selected].
  before_selected; selected_then_none.
Qed.

Lemma setupBuzzListener_resume_polls_once (w : World) (opened : Result unit) :
  grows (is_usb StartPoll) 1 (setupBuzzListener_resume w opened).
Proof.
  unfold setupBuzzListener_resume.
  apply (grows_try_catch _ 1 0); [|intros e; none_selected].
  before_selected;
    first [selected_then_none | apply (grows_weaken _ 0); [lia|none_selected]].
Qed.

Lemma startup_animation_once (p : PromiseId) :
  grows is_animation 1 (startup_animation p).
Proof.
  unfold startup_animation. before_selected.
  unfold setTimeout. selected_then_none.
Qed.

(** The rest of a setup, around its one selected effect. *)
Lemma resume_setup_once (c : Effect → bool) (w : World) (p : PromiseId)
    (opened : Result unit) :
  (∀ payload, c (FxEmitError payload) = false) →
  (∀ cb payload, c (FxDeliverError cb payload) = false) →
  grows c 1 (setupBuzzListener_resume w opened ;; startup_animation p) →
  grows c 1 (resume_setup w p opened).
Proof.
  intros Hemit Hdeliver Hbody. unfold resume_setup.
  apply (grows_bind _ 1 0).
  - apply grows_attempt. apply (grows_try_catch _ 1 0); [done|].
    intros e. apply grows_none. stable_with logging_leaf.
    all: apply logging_log; done.
  - intros r. apply grows_none. stable_with logging_leaf.
Qed.

Lemma resume_setup_opens_hid_once (w : World) (p : PromiseId) (opened : Result unit) :
  grows (is_usb HidOpen) 1 (resume_setup w p opened).
Proof.
  apply resume_setup_once; [done..|].
  apply (grows_bind _ 1 0); [apply setupBuzzListener_resume_opens_hid_once|].
  intros _. none_selected.
Qed.

Lemma resume_setup_polls_once (w : World) (p : PromiseId) (opened : Result unit) :
  grows (is_usb StartPoll) 1 (resume_setup w p opened).
Proof.
  apply resume_setup_once; [done..|].
  apply (grows_bind _ 1 0); [apply setupBuzzListener_resume_polls_once|].
  intros _. none_selected.
Qed.

Lemma resume_setup_animates_once (w : World) (p : PromiseId) (opened : Result unit) :
  grows is_animation 1 (resume_setup w p opened).
Proof.
  apply resume_setup_once; [done..|].
  apply (grows_bind _ 0 1); [none_selected|].
  intros _. apply startup_animation_once.
Qed.

Lemma resume_setup_footprint (w : World) (p : PromiseId) (opened : Result unit) :
  stable (both (logging (λ fx, ¬ starts_setup fx)) (keep progress_view))
    (resume_setup w p opened).
Proof.
  apply stable_both.
  - stable_with logging_leaf. all: apply logging_log; simpl; tauto.
  - stable_with keep_leaf.
Qed.

Lemma openAndClaim_footprint (w : World) :
  stable (both (logging (λ fx, ¬ resumes_setup fx)) (keep lifecycle)) (openAndClaim w).
Proof.
  apply stable_both.
  - stable_with logging_leaf. all: apply logging_log; simpl; tauto.
  - stable_with keep_leaf.
Qed.

Lemma ensureReady_eq (w : World) (s : Session) :
  ensureReady w s =
  if isReady s then (Return AlreadyReady, s)
  else match readyPromise s with
       | Some p => (Return (Shared p), s)
       | None =>
           let opened := (openAndClaim w s).1 in
           let s1 := (openAndClaim w s).2 in
           let p := length (promises s1) in
           (Return (Shared p),
            set_readyPromise (Some p)
              (set_jobs (jobs s1 ++ [ResumeSetup p opened])
                 (set_promises (promises s1 ++ [pending]) s1)))
       end.
Proof.
  unfold ensureReady, bind at 1, gets. simpl.
  destruct (isReady s); [done|].
  unfold bind at 1. simpl. destruct (readyPromise s); [done|].
  unfold bind, attempt, new_promise, enqueue, modify, gets, ret, bind.
  by destruct (openAndClaim w s) as [opened s1].
Qed.

(** ** One setup per session *)

#[global] Instance preserving_preorder (I : Session → Prop) : PreOrder (preserving I).
Proof. split; unfold preserving; [by intros s|intros s1 s2 s3; tauto]. Qed.

Lemma single_setup_Buzzer : single_setup Buzzer.
Proof.
  unfold single_setup. simpl. repeat split; try lia; try done.
  intros api p Hin. by apply elem_of_nil in Hin.
Qed.

Lemma count_excluded (P : Effect → Prop) (c : Effect → bool) (tr : list Effect) :
  (∀ fx, P fx → c fx = false) → Forall P tr → count c tr = 0.
Proof.
  intros Hc Htr. apply count_none. eapply Forall_impl; [exact Htr|exact Hc].
Qed.

Lemma plain_not_usb (call : UsbCall) (fx : Effect) : plain fx → is_usb call fx = false.
Proof. by destruct fx. Qed.

Lemma plain_not_animation (fx : Effect) : plain fx → is_animation fx = false.
Proof. by destruct fx. Qed.

Lemma single_setup_quiet (s s' : Session) :
  logging plain s s' → keep progress_view s s' → single_setup s → single_setup s'.
Proof.
  intros (tr & Htr & Hplain) Hkeep.
  unfold keep, progress_view in Hkeep. injection Hkeep as Hn Hj Hr.
  unfold single_setup. rewrite Htr, Hn, Hj, Hr, !count_app.
  rewrite !(count_excluded plain _ tr) by auto using plain_not_usb, plain_not_animation.
  rewrite !Nat.add_0_r.
  intros (? & ? & ? & ? & ? & ? & ? & ? & Haw). repeat split; try done.
  intros api p Hin. apply elem_of_app in Hin as [Hin|Hin]; [by eapply Haw|].
  rewrite Forall_forall in Hplain. by apply Hplain in Hin.
Qed.

Lemma quiet_preserving {A} (m : M A) :
  stable (both (logging plain) (keep progress_view)) m →
  stable (preserving single_setup) m.
Proof.
  apply stable_weaken. intros s s' [? ?] HJ. by apply (single_setup_quiet s s').
Qed.

Lemma not_resuming_hid (fx : Effect) : ¬ resumes_setup fx → is_usb HidOpen fx = false.
Proof.
  intros H. destruct fx; try done.
  all: try (destruct call; try done). all: by destruct H.
Qed.

Lemma not_resuming_poll (fx : Effect) : ¬ resumes_setup fx → is_usb StartPoll fx = false.
Proof.
  intros H. destruct fx; try done.
  all: try (destruct call; try done). all: by destruct H.
Qed.

Lemma not_resuming_animation (fx : Effect) : ¬ resumes_setup fx → is_animation fx = false.
Proof. intros H. destruct fx; try done. all: by destruct H. Qed.

(** A caller of [ensureReady]: either a setup is under way or done, and the
    caller is handed its promise, or this caller starts the only setup. *)
Lemma await_ready_single_setup (w : World) (api : string) (k : Reaction) :
  stable (preserving single_setup) (await_ready w api k).
Proof.
  intros s HJ. unfold await_ready, bind at 1. rewrite ensureReady_eq.
  assert (∀ (on : Awaited) (s1 : Session),
            single_setup s1 →
            (∀ p, on = Shared p → readyPromise s1 = Some p) →
            single_setup ((log (FxAwait api on) ;; chain on k) s1).2) as Hrest.
  { intros on s1 HJ1 Hon.
    assert (single_setup (set_trace (trace s1 ++ [FxAwait api on]) s1)) as HJ2.
    { destruct HJ1 as (? & ? & ? & ? & ? & ? & ? & ? & Haw).
      unfold single_setup. destruct s1; simpl in *. rewrite !count_app. simpl.
      rewrite !Nat.add_0_r. repeat split; try done.
      intros api' p Hin. apply elem_of_app in Hin as [Hin|Hin]; [by eapply Haw|].
      apply list_elem_of_singleton in Hin. injection Hin as _ <-. by apply Hon. }
    unfold bind, log, modify. simpl.
    revert HJ2. apply (quiet_preserving (chain on k)), chain_progress. }
  destruct (isReady s); [by apply Hrest|].
  destruct (readyPromise s) as [p|] eqn:Hrp; [apply Hrest; [done|congruence]|].
  cbv zeta. apply Hrest; [|intros p [= <-]; by destruct (openAndClaim w s).2].
  destruct (openAndClaim_footprint w s) as [(tr & Htr & Hquiet) Hlife].
  destruct (openAndClaim_discovers_once w s) as (tr1 & Htr1 & Hfind).
  destruct (openAndClaim_claims_once w s) as (tr2 & Htr2 & Hclaim).
  rewrite Htr in Htr1, Htr2.
  apply app_inv_head in Htr1 as <-. apply app_inv_head in Htr2 as <-.
  unfold keep, lifecycle in Hlife. injection Hlife as Hp Hj Hr _.
  destruct HJ as (Hn1 & Hn0 & _ & Hf & Hc & Hh & Hs & Ha & Haw).
  specialize (Hn0 Hrp).
  set (s1 := (openAndClaim w s).2) in *.
  unfold single_setup.
  replace (trace (set_readyPromise _ _)) with (trace s1) by (by destruct s1).
  replace (promises (set_readyPromise _ _)) with (promises s1 ++ [pending])
    by (by destruct s1).
  replace (jobs (set_readyPromise _ _))
    with (jobs s1 ++ [ResumeSetup (length (promises s1)) (openAndClaim w s).1])
    by (by destruct s1).
  replace (readyPromise (set_readyPromise _ _)) with (Some (length (promises s1)))
    by (by destruct s1).
  rewrite Htr, Hp, Hj, length_app, count_resume_app, !count_app. simpl.
  rewrite (count_excluded _ (is_usb HidOpen) tr not_resuming_hid Hquiet).
  rewrite (count_excluded _ (is_usb StartPoll) tr not_resuming_poll Hquiet).
  rewrite (count_excluded _ is_animation tr not_resuming_animation Hquiet).
  repeat split; try lia.
  - intros [=].
  - intros p [= <-]. lia.
  - intros api' p Hin. exfalso.
    apply elem_of_app in Hin as [Hin|Hin].
    + apply Haw in Hin. congruence.
    + rewrite Forall_forall in Hquiet. by apply Hquiet in Hin.
Qed.
#[local] Hint Resolve await_ready_single_setup : footprint.

Lemma privateSetLeds_single_setup (w : World) (p1 p2 p3 p4 : bool) :
  stable (preserving single_setup) (privateSetLeds w p1 p2 p3 p4).
Proof. apply quiet_preserving, lifecycle_to_progress, privateSetLeds_plain. Qed.

Lemma react_single_setup (w : World) (k : Reaction) (settled : Result unit) :
  stable (preserving single_setup) (react w k settled).
Proof. apply quiet_preserving, lifecycle_to_progress, react_plain. Qed.

Lemma run_timer_single_setup (w : World) (action : TimerAction) :
  stable (preserving single_setup) (run_timer w action).
Proof. apply quiet_preserving, run_timer_progress. Qed.

Lemma on_data_single_setup (data : Js.Buffer) :
  stable (preserving single_setup) (on_data data).
Proof. apply quiet_preserving, lifecycle_to_progress, on_data_plain. Qed.

#[local] Hint Resolve privateSetLeds_single_setup react_single_setup
  run_timer_single_setup on_data_single_setup : footprint.

(** A plain effect, or an assignment to a variable that the invariant does
    not read. *)
Ltac single_setup_leaf :=
  idtac;
  lazymatch goal with
  | |- stable (preserving single_setup) (log _) =>
      apply quiet_preserving, stable_both;
      [apply logging_log; done|unfold log; rule @stable_modify; intros []; reflexivity]
  | |- stable (preserving single_setup) (modify _) =>
      apply quiet_preserving, stable_both; [logging_leaf|keep_leaf]
  end.

Lemma not_starting_find (fx : Effect) : ¬ starts_setup fx → is_usb FindByIds fx = false.
Proof.
  intros H. destruct fx; try done.
  all: try (destruct call; try done). all: by destruct H.
Qed.

Lemma not_starting_claim (fx : Effect) : ¬ starts_setup fx → is_usb Claim fx = false.
Proof.
  intros H. destruct fx; try done.
  all: try (destruct call; try done). all: by destruct H.
Qed.

(** The microtask of a setup: it leaves the queue, and each part of the
    rest of the setup runs at most once for it. *)
Lemma resume_setup_single_setup (w : World) (p : PromiseId) (opened : Result unit)
    (queue : list Job) (s : Session) :
  jobs s = ResumeSetup p opened :: queue →
  single_setup s →
  single_setup (resume_setup w p opened (set_jobs queue s)).2.
Proof.
  intros Hjobs (Hn1 & Hn0 & Hp0 & Hf & Hc & Hh & Hs & Ha & Haw).
  set (s0 := set_jobs queue s).
  destruct (resume_setup_footprint w p opened s0) as [(tr & Htr & Hquiet) Hkeep].
  destruct (resume_setup_opens_hid_once w p opened s0) as (t1 & Ht1 & Hhid).
  destruct (resume_setup_polls_once w p opened s0) as (t2 & Ht2 & Hpoll).
  destruct (resume_setup_animates_once w p opened s0) as (t3 & Ht3 & Hanim).
  rewrite Htr in Ht1, Ht2, Ht3.
  apply app_inv_head in Ht1 as <-. apply app_inv_head in Ht2 as <-.
  apply app_inv_head in Ht3 as <-.
  unfold keep, progress_view in Hkeep. injection Hkeep as Hlen Hres Hrp.
  replace (trace s0) with (trace s) in Htr by (by destruct s).
  replace (promises s0) with (promises s) in Hlen by (by destruct s).
  replace (jobs s0) with queue in Hres by (by destruct s).
  replace (readyPromise s0) with (readyPromise s) in Hrp by (by destruct s).
  rewrite Hjobs in Hh, Hs, Ha. simpl in Hh, Hs, Ha.
  unfold single_setup. rewrite Htr, Hlen, Hres, Hrp, !count_app.
  rewrite (count_excluded _ (is_usb FindByIds) tr not_starting_find Hquiet).
  rewrite (count_excluded _ (is_usb Claim) tr not_starting_claim Hquiet).
  repeat split; try lia; try done.
  intros api q Hin. apply elem_of_app in Hin as [Hin|Hin]; [by eapply Haw|].
  rewrite Forall_forall in Hquiet. apply Hquiet in Hin. by destruct Hin.
Qed.

Lemma handle_event_single_setup (w : World) (ev : Event) :
  ev ≠ CallClose → stable (preserving single_setup) (handle_event w ev).
Proof.
  intros Hev. destruct ev; try done; unfold handle_event.
  1-7, 9-10: stable_with single_setup_leaf.
  intros s HJ. unfold bind at 1, gets. simpl.
  destruct (jobs s) as [|[p opened|k settled] queue] eqn:Hjobs; [done| |].
  - unfold bind, modify. simpl. by apply resume_setup_single_setup.
  - unfold bind, modify. simpl.
    apply (react_single_setup w k settled).
    destruct HJ as (? & ? & ? & ? & ? & Hh & Hs & Ha & ?).
    rewrite Hjobs in Hh, Hs, Ha. simpl in Hh, Hs, Ha.
    unfold single_setup. destruct s; simpl in *. repeat split; done.
Qed.

Lemma step_single_setup (w : World) (ev : Event) (s : Session) :
  ev ≠ CallClose → single_setup s → single_setup (step w ev s).
Proof.
  intros Hev HJ. unfold step.
  pose proof (handle_event_single_setup w ev Hev s HJ) as HJ'.
  destruct (handle_event w ev s) as [[[]|e] s']; simpl in HJ'; [done|].
  revert HJ'. apply (single_setup_quiet s').
  - exists [FxUncaught e]. split; [by destruct s'|by repeat constructor].
  - by destruct s'.
Qed.

Lemma run_single_setup (evs : list (World * Event)) (s : Session) :
  Forall (λ we, we.2 ≠ CallClose) evs → single_setup s → single_setup (run evs s).
Proof.
  intros Hevs. revert s. induction Hevs as [|[w ev] evs Hev _ IH]; intros s HJ; [done|].
  simpl. apply IH. by apply step_single_setup.
Qed.

(** ** The fate of a promise *)

Lemma enqueue_reactions_keeps_promises (ks : list Reaction) (r : Result unit) :
  stable (keep promises) (enqueue_reactions ks r).
Proof. stable_with keep_leaf. Qed.

Section Settled.
Context (q : PromiseId) (r0 : Result unit).

Lemma enqueue_settled (j : Job) : stable (preserving (settled q r0)) (enqueue j).
Proof. intros [] H. exact H. Qed.

Lemma settle_settled (p : PromiseId) (r : Result unit) :
  stable (preserving (settled q r0)) (settle p r).
Proof.
  intros s Hq. unfold settle, bind at 1, gets. simpl.
  destruct (promises s !! p) as [[[o|] ks]|] eqn:Hp; simpl; try done.
  unfold bind, modify. simpl.
  unfold settled, outcome_of in *.
  rewrite (enqueue_reactions_keeps_promises ks r _).
  replace (promises (set_promises _ s))
    with (<[p := {| outcome := Some r; reactions := [] |}]> (promises s))
    by (by destruct s).
  destruct (decide (p = q)) as [->|Hne].
  - by rewrite Hp in Hq.
  - by rewrite list_lookup_insert_ne.
Qed.

Lemma chain_settled (on : Awaited) (k : Reaction) :
  stable (preserving (settled q r0)) (chain on k).
Proof.
  intros s Hq. unfold chain. destruct on as [|p].
  { by apply enqueue_settled. }
  unfold bind at 1, gets. simpl.
  destruct (promises s !! p) as [[[o|] ks]|] eqn:Hp; simpl; try done.
  unfold settled, outcome_of in *.
  replace (promises (set_promises _ s))
    with (<[p := {| outcome := None; reactions := ks ++ [k] |}]> (promises s))
    by (by destruct s).
  destruct (decide (p = q)) as [->|Hne].
  - by rewrite Hp in Hq.
  - by rewrite list_lookup_insert_ne.
Qed.

Lemma new_promise_settled : stable (preserving (settled q r0)) new_promise.
Proof.
  intros s Hq. unfold new_promise, bind, gets, modify, ret. simpl.
  unfold settled, outcome_of in *.
  replace (promises (set_promises _ s)) with (promises s ++ [pending])
    by (by destruct s).
  destruct (promises s !! q) as [pr|] eqn:Hp; [|done].
  by rewrite (lookup_app_l_Some _ _ _ _ Hp).
Qed.
End Settled.
#[local] Hint Resolve settle_settled chain_settled new_promise_settled : footprint.


Create HintDb api discriminated.
#[local] Hint Unfold await_ready ensureReady close : api.



(** ** Claims about the lifecycle *)



(** The fifty callers were all handed promise 0, and it resolved. *)
Example fifty_callers_resolve_together :
  let s := run fifty_callers Buzzer in
  omap (λ fx, match fx with FxAwait _ on => Some on | _ => None end) (trace s)
  = replicate 50 (Shared 0) ∧
  outcome_of s 0 = Some (Return tt) ∧
  count (is_usb FindByIds) (trace s) = 1 ∧
  count is_animation (trace s) = 1.
Proof. vm_compute. done. Qed.

(** ** Claims about the LED API *)

(** C9. For an argument that is not an array of exactly 4 elements,
    [setLedsarray] fails with the invalid-array error before anything
    else: the session is untouched (no readiness attempt, no call into the
    usb binding, no LED report), and the only trace the call leaves is the
    rejection of its promise. *)
Theorem setLedsarray_rejects_before_any_interaction
    (w : World) (players : Argument) (s : Session) :
  (∀ elements, players = ArrayOf elements → length elements ≠ 4) →
  setLedsarray w players s = (Throw invalid_array, s) ∧
  step w (CallSetLedsarray players) s =
    set_trace (trace s ++ [FxRejected "setLedsarray" invalid_array]) s.
Proof.
  intros Hbad.
  assert (setLedsarray w players s = (Throw invalid_array, s)) as Hthrow.
  { unfold setLedsarray. destruct players as [elements|]; [|done].
    destruct (decide (length elements ≠ 4)) as [|Hlen]; [done|].
    destruct (Hbad elements eq_refl). by apply dec_stable. }
  split; [done|].
  unfold step, handle_event, async, bind, attempt. rewrite Hthrow. done.
Qed.

Lemma setLedsarray_rejects_before_any_interaction_witness :
  (setLedsarray plugged (ArrayOf [true; false]) ready_session
     = (Throw invalid_array, ready_session) ∧
   step plugged (CallSetLedsarray (ArrayOf [true; false])) ready_session =
     set_trace (trace ready_session ++ [FxRejected "setLedsarray" invalid_array])
       ready_session) ∧
  (setLedsarray plugged NotAnArray Buzzer = (Throw invalid_array, Buzzer) ∧
   step plugged (CallSetLedsarray NotAnArray) Buzzer =
     set_trace (trace Buzzer ++ [FxRejected "setLedsarray" invalid_array]) Buzzer).
Proof.
  split.
  - apply (setLedsarray_rejects_before_any_interaction plugged (ArrayOf [true; false])).
    intros elements [= <-]. simpl. lia.
  - apply (setLedsarray_rejects_before_any_interaction plugged NotAnArray).
    intros elements. discriminate.
Defined.

(** An array of 4 elements goes on to [setLeds]. *)
Example setLedsarray_valid :
  hid_writes (trace (run [ (plugged, CallSetLedsarray (ArrayOf [true; false; true; false]));
                           (plugged, Microtask) ] ready_session))
  = hid_writes (trace ready_session) ++ [ [x00; x00; xff; x00; xff; x00; x00; x00] ].
Proof. vm_compute. reflexivity. Qed.

(** ** Claims about teardown *)






(** ** Claims about a failed setup *)

(** C2, as the claim states it, fails: after a setup that failed because
    no dongle was found, the phase is not back to NotStarted;
    [readyPromise] still is the rejected promise, and a later call of
    [ensureReady], with the dongle now plugged in, is handed that promise
    and starts no second discovery. *)
Lemma failed_setup_is_not_retried_counterexample :
  let failed := run [ (unplugged, CallOnPress (listening 1)); (unplugged, Microtask);
                      (unplugged, Microtask) ] Buzzer in
  phase failed ≠ NotStarted ∧
  readyPromise failed = Some 0 ∧
  outcome_of failed 0 =
    Some (Throw (CustomError "Buzzers setup failed"
                   (Some (CustomError "Buzzers setup failed"
                            (Some (UnhandledError
                                     "Failed to open the connection to the dongle.")))))) ∧
  ensureReady plugged failed = (Return (Shared 0), failed) ∧
  count (is_usb FindByIds)
    (trace (run [ (plugged, CallSetLeds true false false false); (plugged, Microtask) ]
              failed)) = 1.
Proof. vm_compute. repeat split; discriminate. Qed.

Lemma setupBuzzListener_resume_bookkeeping (w : World) (opened : Result unit) :
  stable (both (logging (λ _, True)) (keep bookkeeping)) (setupBuzzListener_resume w opened).
Proof.
  apply stable_both; [stable_with logging_leaf|stable_with keep_leaf].
Qed.

Lemma setupBuzzListener_resume_error (w : World) (opened : Result unit)
    (s : Session) (cause : Exn) :
  (setupBuzzListener_resume w opened s).1 = Throw cause →
  ∃ inner, cause = CustomError "Buzzers setup failed" (Some inner).
Proof.
  unfold setupBuzzListener_resume, try_catch.
  lazymatch goal with
  | |- context [match ?m s with _ => _ end] => destruct (m s) as [[[]|e] s1]
  end; simpl; [done|].
  intros [= <-]. by exists e.
Qed.

Lemma enqueue_reactions_eq (ks : list Reaction) (r : Result unit) (s : Session) :
  enqueue_reactions ks r s =
  (Return tt, set_jobs (jobs s ++ map (λ k, React k r) ks) s).
Proof.
  revert s. induction ks as [|k ks IH]; intros s; simpl.
  - unfold ret. f_equal. destruct s; simpl. by rewrite app_nil_r.
  - unfold bind, enqueue, modify. rewrite IH. f_equal.
    destruct s; simpl. by rewrite <- app_assoc.
Qed.

Lemma settle_pending (p : PromiseId) (r : Result unit) (ks : list Reaction) (s : Session) :
  promises s !! p = Some {| outcome := None; reactions := ks |} →
  settle p r s =
  (Return tt,
   set_jobs (jobs s ++ map (λ k, React k r) ks)
     (set_promises (<[p := {| outcome := Some r; reactions := [] |}]> (promises s)) s)).
Proof.
  intros Hp. unfold settle, bind at 1, gets. simpl. rewrite Hp.
  unfold bind, modify. by rewrite enqueue_reactions_eq.
Qed.

(** The [.catch] callback of [ensureReady]: the error is published, and
    the callback throws, the error itself unless a listener threw first. *)
Lemma publish_and_throw (c : Exn) (s : Session) :
  ∃ e tr,
    (emit_error (EExn c) ;; throw c) s =
      (@Throw unit e, set_trace (trace s ++ FxEmitError (EExn c) :: tr) s) ∧
    (Forall (λ l, cb_run l (EExn c) = None) (error_listeners (ee s)) → e = c) ∧
    (∀ before l behind x,
       error_listeners (ee s) = before ++ l :: behind →
       Forall (λ l', cb_run l' (EExn c) = None) before →
       cb_run l (EExn c) = Some x →
       e = x).
Proof.
  unfold bind. rewrite emit_error_eq.
  destruct (error_listeners (ee s)) as [|l ls] eqn:Hls.
  - exists c, []. split; [reflexivity|]. split; [done|].
    intros [|? ?] ? ? ? [=].
  - set (run := λ l : Callback ErrorPayload, cb_run l (EExn c)).
    assert (∀ before l0 behind x,
              l :: ls = before ++ l0 :: behind →
              Forall (λ l', cb_run l' (EExn c) = None) before →
              cb_run l0 (EExn c) = Some x →
              (reached run (l :: ls)).2 = Some x) as Hfirst.
    { intros before l0 behind x -> Hbefore Hx.
      by rewrite (reached_throw run before behind l0 x). }
    destruct (reached run (l :: ls)) as [delivered [e|]] eqn:Hreached; simpl.
    + exists e, (map (λ l, FxDeliverError (cb_id l) (EExn c)) delivered).
      split; [done|]. split.
      * intros Hall. rewrite (reached_all run (l :: ls) Hall) in Hreached. done.
      * intros before l0 behind x Hdec Hbefore Hx.
        specialize (Hfirst before l0 behind x Hdec Hbefore Hx). simpl in Hfirst.
        congruence.
    + exists c, (map (λ l, FxDeliverError (cb_id l) (EExn c)) delivered).
      split; [reflexivity|]. split; [done|].
      intros before l0 behind x Hdec Hbefore Hx.
      by specialize (Hfirst before l0 behind x Hdec Hbefore Hx).
Qed.

Lemma resume_setup_failed (w : World) (p : PromiseId) (opened : Result unit)
    (s0 : Session) (cause : Exn) (ks : list Reaction) :
  (setupBuzzListener_resume w opened s0).1 = Throw cause →
  promises s0 !! p = Some {| outcome := None; reactions := ks |} →
  let setupError := CustomError "Buzzers setup failed" (Some cause) in
  let s1 := (setupBuzzListener_resume w opened s0).2 in
  ∃ e tr,
    resume_setup w p opened s0 =
      (Return tt,
       set_jobs (jobs s0 ++ map (λ k, React k (Throw e)) ks)
         (set_promises (<[p := {| outcome := Some (Throw e); reactions := [] |}]> (promises s0))
            (set_trace (trace s1 ++ FxEmitError (EExn setupError) :: tr) s1))) ∧
    (Forall (λ l, cb_run l (EExn setupError) = None) (error_listeners (ee s0)) →
     e = setupError) ∧
    (∀ before l behind x,
       error_listeners (ee s0) = before ++ l :: behind →
       Forall (λ l', cb_run l' (EExn setupError) = None) before →
       cb_run l (EExn setupError) = Some x →
       e = x).
Proof.
  intros Hfail Hp setupError s1.
  destruct (setupBuzzListener_resume_error w opened s0 cause Hfail) as [inner Hcause].
  destruct (setupBuzzListener_resume_bookkeeping w opened s0) as [_ Hbook].
  fold s1 in Hbook. unfold keep, bookkeeping in Hbook.
  injection Hbook as Hprom Hjobs _ _ Hee.
  assert (message_or cause "Setup failed" = "Buzzers setup failed") as Hmsg
    by (by rewrite Hcause).
  destruct (publish_and_throw setupError s1) as (e & tr & Hpub & He & Hfirst).
  exists e, tr. split; [|by rewrite <- Hee].
  unfold resume_setup, bind at 1, attempt, try_catch. unfold bind at 1.
  subst s1. destruct (setupBuzzListener_resume w opened s0) as [r s1].
  simpl in *. subst r. rewrite Hmsg. fold setupError. rewrite Hpub.
  rewrite (settle_pending p _ ks) by (destruct s1; simpl in *; congruence).
  f_equal. destruct s1; simpl in *. by subst.
Qed.

(** C2, amended.  When the rest of the setup fails (discovery or claim
    failed before it, or the HID channel, the endpoint or polling fails in
    it), the microtask of the setup publishes an error event carrying the
    setup error, and rejects the shared promise: with that setup error
    when no error listener throws, and otherwise with the exception of the
    first error listener that throws.  Each reaction chained on the promise
    is queued with the rejection.  [isReady] and [readyPromise] are left as
    they are: the rejected promise stays in place, and a later
    [ensureReady] is handed it again instead of starting a new
    attempt. *)
Theorem failed_setup_rejects_and_stays (w : World) (s : Session) (p : PromiseId)
    (opened : Result unit) (queue : list Job) (ks : list Reaction) (cause : Exn) :
  jobs s = ResumeSetup p opened :: queue →
  promises s !! p = Some {| outcome := None; reactions := ks |} →
  (setupBuzzListener_resume w opened (set_jobs queue s)).1 = Throw cause →
  let s' := step w Microtask s in
  let setupError := CustomError "Buzzers setup failed" (Some cause) in
  ∃ e,
    outcome_of s' p = Some (Throw e) ∧
    (Forall (λ l, cb_run l (EExn setupError) = None) (error_listeners (ee s)) →
     e = setupError) ∧
    (∀ before l behind x,
       error_listeners (ee s) = before ++ l :: behind →
       Forall (λ l', cb_run l' (EExn setupError) = None) before →
       cb_run l (EExn setupError) = Some x →
       e = x) ∧
    FxEmitError (EExn setupError) ∈ trace s' ∧
    jobs s' = queue ++ map (λ k, React k (Throw e)) ks ∧
    isReady s' = isReady s ∧
    readyPromise s' = readyPromise s ∧
    (isReady s = false → readyPromise s = Some p →
     ∀ w2, ensureReady w2 s' = (Return (Shared p), s')).
Proof.
  intros Hjobs Hp Hfail s' setupError.
  set (s0 := set_jobs queue s).
  assert (promises s0 !! p = Some {| outcome := None; reactions := ks |}) as Hp0
    by (by destruct s).
  destruct (resume_setup_failed w p opened s0 cause ks Hfail Hp0)
    as (e & tr & Hrun & He & Hfirst).
  destruct (setupBuzzListener_resume_bookkeeping w opened s0) as [_ Hbook].
  unfold keep, bookkeeping in Hbook. injection Hbook as Hprom Hj Hrp Hready Hee.
  assert (s' = (resume_setup w p opened s0).2) as Hs'.
  { unfold s', step, handle_event, bind at 1, gets. simpl. rewrite Hjobs.
    unfold bind at 1, modify. simpl. fold s0. by rewrite Hrun. }
  rewrite Hrun in Hs'. simpl in Hs'.
  set (s1 := (setupBuzzListener_resume w opened s0).2) in *.
  assert (isReady s' = isReady s ∧ readyPromise s' = readyPromise s) as [Hr1 Hr2].
  { rewrite Hs'. destruct s1, s; simpl in *. by subst. }
  exists e. split; [|split; [|split; [|split; [|split; [|split; [|split]]]]]]; try done.
  - rewrite Hs'. unfold outcome_of.
    replace (promises (set_jobs _ _))
      with (<[p := {| outcome := Some (Throw e); reactions := [] |}]> (promises s0))
      by (by destruct s1).
    rewrite list_lookup_insert_eq; [done|]. by eapply lookup_lt_Some.
  - rewrite Hs'.
    replace (trace (set_jobs _ _))
      with (trace s1 ++ FxEmitError (EExn setupError) :: tr) by (by destruct s1).
    apply elem_of_app. right. left.
  - rewrite Hs'.
    replace (jobs (set_jobs _ _)) with (jobs s0 ++ map (λ k, React k (Throw e)) ks)
      by (by destruct s1).
    done.
  - intros Hnot Hshared w2. rewrite ensureReady_eq, Hr1, Hr2, Hnot, Hshared. done.
Qed.

Lemma failed_setup_rejects_and_stays_witness :
  let s := run [ (unplugged, CallOnError (listening 1)) ] Buzzer in
  let s' := step unplugged Microtask s in
  let cause := CustomError "Buzzers setup failed"
                 (Some (UnhandledError "Failed to open the connection to the dongle.")) in
  let setupError := CustomError "Buzzers setup failed" (Some cause) in
  ∃ e,
    outcome_of s' 0 = Some (Throw e) ∧
    (Forall (λ l, cb_run l (EExn setupError) = None) (error_listeners (ee s)) →
     e = setupError) ∧
    (∀ before l behind x,
       error_listeners (ee s) = before ++ l :: behind →
       Forall (λ l', cb_run l' (EExn setupError) = None) before →
       cb_run l (EExn setupError) = Some x →
       e = x) ∧
    FxEmitError (EExn setupError) ∈ trace s' ∧
    jobs s' = [] ++ map (λ k, React k (Throw e)) [CatchCall (listening 1)] ∧
    isReady s' = isReady s ∧
    readyPromise s' = readyPromise s ∧
    (isReady s = false → readyPromise s = Some 0 →
     ∀ w2, ensureReady w2 s' = (Return (Shared 0), s')).
Proof.
  intros s s' cause setupError.
  apply (failed_setup_rejects_and_stays unplugged s 0
           (Throw (UnhandledError "Failed to open the connection to the dongle."))
           [] [CatchCall (listening 1)] cause).
  - vm_compute. reflexivity.
  - vm_compute. reflexivity.
  - vm_compute. reflexivity.
Defined.

(** With an error listener that throws, the promise is rejected with the
    exception of that listener, not with the setup error. *)
Example failed_setup_with_a_throwing_listener :
  let thrower := {| cb_id := 1; cb_run := λ _ : ErrorPayload, Some (CallbackError 9) |} in
  let s' := run [ (unplugged, CallOnError thrower); (unplugged, Microtask) ] Buzzer in
  outcome_of s' 0 = Some (Throw (CallbackError 9)) ∧
  readyPromise s' = Some 0 ∧ isReady s' = false.
Proof. vm_compute. done. Qed.

(** ** Claims about the events handed to consumers *)

Lemma button_effect_ok (e : EventEmitter) (fx : Effect) :
  well_subscribed e → button_effect e BUTTONS_DATA fx → delivered_ok fx.
Proof.
  intros [Hpress Hrelease]. destruct fx; simpl; try done.
  intros (l & d & Hl & Hd & Ht & ->). exists d. split; [done|].
  rewrite Forall_forall in Hpress, Hrelease.
  destruct Ht as [-> | ->]; (split; [by auto|]).
  - apply Hpress in Hl. unfold handler_argument. by destruct (via l).
  - apply Hrelease in Hl. unfold handler_argument. by destruct (via l).
Qed.

Lemma on_data_deliveries_ok (data : Js.Buffer) :
  stable (preserving deliveries_ok) (on_data data).
Proof.
  intros s [Hws Htr]. unfold on_data.
  destruct (decide (length data < 5)); [done|].
  unfold bind, gets. destruct (pressedBits data) as [bits|]; [|done].
  unfold forEach.
  destruct (forEach_from _ _ _ s) as [r s'] eqn:Hrun.
  apply forEach_update in Hrun as (tr & cs & -> & Hfx & _). simpl.
  split; [by destruct s|].
  rewrite updated_trace. apply Forall_app. split; [done|].
  eapply Forall_impl; [exact Hfx|]. intros fx. by apply button_effect_ok.
Qed.
#[local] Hint Resolve on_data_deliveries_ok : footprint.

Lemma keep_publications_ok {A} (m : M A) :
  stable (keep publications) m → stable (preserving deliveries_ok) m.
Proof.
  apply stable_weaken. intros s s' Hkeep.
  unfold keep, publications in Hkeep. injection Hkeep as Hee Htr.
  unfold preserving, deliveries_ok. by rewrite Hee, Htr.
Qed.

Lemma settle_deliveries_ok (p : PromiseId) (r : Result unit) :
  stable (preserving deliveries_ok) (settle p r).
Proof. apply keep_publications_ok. unfold settle. stable_with keep_leaf. Qed.

Lemma chain_deliveries_ok (on : Awaited) (k : Reaction) :
  stable (preserving deliveries_ok) (chain on k).
Proof. apply keep_publications_ok. unfold chain. stable_with keep_leaf. Qed.

Lemma new_promise_deliveries_ok : stable (preserving deliveries_ok) new_promise.
Proof. apply keep_publications_ok. unfold new_promise. stable_with keep_leaf. Qed.
#[local] Hint Resolve settle_deliveries_ok chain_deliveries_ok
  new_promise_deliveries_ok : footprint.

(** An effect other than a delivery of a button event, or an assignment;
    the subscriptions add handlers to the channels they listen to. *)
Ltac deliveries_leaf :=
  idtac;
  lazymatch goal with
  | |- stable (preserving deliveries_ok) (log _) =>
      intros s Hs; unfold deliveries_ok, well_subscribed in *;
      destruct s; simpl in *; destruct Hs as [[? ?] ?];
      repeat split; try done;
      apply Forall_app; split; [done|]; by repeat constructor
  | |- stable (preserving deliveries_ok) (modify _) =>
      rule @stable_modify; intros s Hs;
      unfold preserving, deliveries_ok, well_subscribed in *;
      destruct s; simpl in *; destruct Hs as [[? ?] ?];
      repeat split; try done;
      apply Forall_app; split; [done|]; by repeat constructor
  end.

Lemma handle_event_deliveries_ok (w : World) (ev : Event) :
  stable (preserving deliveries_ok) (handle_event w ev).
Proof.
  destruct ev; unfold handle_event.
  1-10: autounfold with ops api; stable_with deliveries_leaf.
  stable_with deliveries_leaf.
Qed.

Lemma run_deliveries_ok (evs : list (World * Event)) (s : Session) :
  deliveries_ok s → deliveries_ok (run evs s).
Proof.
  revert s. induction evs as [|[w ev] evs IH]; intros s Hok; [done|].
  simpl. apply IH. unfold step.
  pose proof (handle_event_deliveries_ok w ev s Hok) as Hok'.
  destruct (handle_event w ev s) as [[[]|e] s']; simpl in Hok'; [done|].
  destruct Hok' as [? ?]. split; [by destruct s'|].
  destruct s'; simpl in *. apply Forall_app. split; [done|]. by repeat constructor.
Qed.

Lemma deliveries_ok_Buzzer : deliveries_ok Buzzer.
Proof. repeat split; constructor. Qed.

(** C6, as the claim states it, fails on the name of one field: the object
    handed to consumers has no field [name]; the identifier of the button
    is in its field [Name]. *)
Lemma event_has_no_name_field_counterexample :
  ¬ (∀ (evs : list (World * Event)) (eventType : string) (cb : nat) (o : JsObject),
       FxDeliver eventType cb o ∈ trace (run evs Buzzer) →
       ∃ n, prop o "name" = Some (JString n)).
Proof.
  intros Hclaim.
  set (evs := [ (plugged, CallOnPress (listening 1)); (plugged, Microtask);
                (plugged, Report [x00; x00; x01; x00; x00]) ]).
  set (o := [ ("controller", JNumber 1); ("button", JNumber 0);
              ("Name", JString "C1_RED"); ("color", JString "red");
              ("pressed", JBoolean true); ("state", JString "pressed") ]%Z).
  destruct (Hclaim evs "press" 1 o) as [n Hn].
  - apply (list_elem_of_lookup_2 _ (length (trace (run evs Buzzer)) - 1)).
    vm_compute. reflexivity.
  - vm_compute in Hn. discriminate.
Qed.

(** C6, amended.  Every button event delivered to a consumer callback, by
    [onPress], [onRelease] or [onChange], is the object
    [{controller, button, Name, color, pressed, state}] of a descriptor of
    the registry: controller in 1..4, button in 0..4, [Name] and [color]
    those of the descriptor, delivered on a press or on a release, with
    [pressed] true and [state] "pressed" exactly on a press, and [pressed]
    false and [state] "released" on a release. *)
Theorem delivered_events_are_formatted (evs : list (World * Event))
    (eventType : string) (cb : nat) (o : JsObject) :
  FxDeliver eventType cb o ∈ trace (run evs Buzzer) →
  ∃ d,
    d ∈ BUTTONS_DATA ∧
    (1 ≤ controller d ≤ 4)%Z ∧
    (0 ≤ button d ≤ 4)%Z ∧
    (eventType = "press" ∨ eventType = "release") ∧
    let isPress := bool_decide (eventType = "press") in
    o = [ ("controller", JNumber (controller d));
          ("button", JNumber (button d));
          ("Name", JString (name d));
          ("color", JString (color d));
          ("pressed", JBoolean isPress);
          ("state", JString (if isPress then "pressed" else "released")) ] ∧
    prop o "pressed" = Some (JBoolean isPress) ∧
    prop o "state" = Some (JString (if isPress then "pressed" else "released")).
Proof.
  intros Hin.
  destruct (run_deliveries_ok evs Buzzer deliveries_ok_Buzzer) as [_ Hok].
  rewrite Forall_forall in Hok. apply Hok in Hin as (d & Hd & Ht & ->).
  exists d. destruct (registry_identity d Hd) as [? ?].
  repeat split; try done; try lia; reflexivity.
Qed.

Lemma delivered_events_are_formatted_witness :
  let evs := [ (plugged, CallOnChange (listening 1)); (plugged, Microtask);
               (plugged, Report [x00; x00; x01; x00; x00]);
               (plugged, Report [x00; x00; x00; x00; x00]) ] in
  let o := [ ("controller", JNumber 1); ("button", JNumber 0);
             ("Name", JString "C1_RED"); ("color", JString "red");
             ("pressed", JBoolean false); ("state", JString "released") ]%Z in
  ∃ d,
    d ∈ BUTTONS_DATA ∧
    (1 ≤ controller d ≤ 4)%Z ∧
    (0 ≤ button d ≤ 4)%Z ∧
    ("release" = "press" ∨ "release" = "release") ∧
    let isPress := bool_decide ("release" = "press") in
    o = [ ("controller", JNumber (controller d));
          ("button", JNumber (button d));
          ("Name", JString (name d));
          ("color", JString (color d));
          ("pressed", JBoolean isPress);
          ("state", JString (if isPress then "pressed" else "released")) ] ∧
    prop o "pressed" = Some (JBoolean isPress) ∧
    prop o "state" = Some (JString (if isPress then "pressed" else "released")).
Proof.
  intros evs o.
  apply (delivered_events_are_formatted evs "release" 1 o).
  apply (list_elem_of_lookup_2 _ (length (trace (run evs Buzzer)) - 1)).
  vm_compute. reflexivity.
Defined.
(** * Further properties *)

(** ** Publications on the error channel *)

Lemma emit_error_heard (payload : ErrorPayload) (s : Session) :
  supervised (ee s) →
  emit_error payload s =
  (Return tt,
   set_trace (trace s ++ FxEmitError payload
                :: map (λ l, FxDeliverError (cb_id l) payload) (error_listeners (ee s))) s).
Proof.
  intros [Hne Hq]. rewrite emit_error_eq.
  destruct (error_listeners (ee s)) as [|l ls] eqn:Hls; [done|].
  by rewrite (reached_all _ _ (Hq payload)).
Qed.

Lemma emit_error_unheard (payload : ErrorPayload) (s : Session) :
  error_listeners (ee s) = [] →
  emit_error payload s =
  (Throw (unhandled payload), set_trace (trace s ++ [FxEmitError payload]) s).
Proof. intros Hls. rewrite emit_error_eq. by rewrite Hls. Qed.

Lemma error_publications_deliveries (payload : ErrorPayload) (ls : list (Callback ErrorPayload)) :
  error_publications (map (λ l, FxDeliverError (cb_id l) payload) ls) = [].
Proof. induction ls; simpl; done. Qed.

Lemma error_publications_app (t1 t2 : list Effect) :
  error_publications (t1 ++ t2) = error_publications t1 ++ error_publications t2.
Proof. apply omap_app. Qed.

Lemma error_publications_cons (fx : Effect) (tr : list Effect) :
  error_publications (fx :: tr) =
  match fx with
  | FxEmitError payload => payload :: error_publications tr
  | _ => error_publications tr
  end.
Proof. by destruct fx. Qed.

Lemma usb_calls_deliveries (payload : ErrorPayload) (ls : list (Callback ErrorPayload)) :
  usb_calls (map (λ l, FxDeliverError (cb_id l) payload) ls) = [].
Proof. induction ls; simpl; done. Qed.

(** ** Opening and claiming the dongle *)

(** The cases of a world for [openAndClaim], given whether it is
    claimable. *)
Ltac world_cases w Hw :=
  destruct w as [dp opf ip win kda df cf hof eps spf hwf stf rf dcf hcf];
  unfold claimable, detaches, claim_calls, detaches in *; simpl in Hw |- *;
  (destruct dp; [destruct opf; [|destruct ip; [destruct win, kda, df, cf|]]|]);
  simpl in Hw; try discriminate Hw; clear Hw.

(** Runs the computation [m] on [s], up to the publications on the error
    channel. *)
Ltac run_on m s :=
  let r := eval cbv -[emit_error app map] in (m s) in
  change (m s) with r.

Ltac run_openAndClaim :=
  lazymatch goal with
  | |- context [openAndClaim ?w ?s] => run_on (openAndClaim w) s
  end.

Lemma openAndClaim_claims (w : World) (s : Session) :
  claimable w = true →
  openAndClaim w s =
  (Return tt,
   set_trace (trace s ++ map FxUsb (claim_calls w))
     (set_iface (Some handle) (set_device (Some handle) s))).
Proof.
  intros Hw. world_cases w Hw; destruct s; run_openAndClaim.
  all: cbv -[app]; rewrite <- ?app_assoc; reflexivity.
Qed.

Lemma openAndClaim_fails (w : World) (s : Session) :
  claimable w = false → (openAndClaim w s).1 ≠ Return tt.
Proof.
  intros Hw. world_cases w Hw; run_openAndClaim.
  all: repeat lazymatch goal with
       | |- context [emit_error ?p ?s0] =>
           destruct (emit_error p s0) as [[[]|?] ?]; cbv beta iota
       end; done.
Qed.

(** X1. [openAndClaim] succeeds exactly when the dongle is found, opens,
    has an interface 0, lets its kernel driver be detached where one is
    active (never on win32) and accepts the claim.  It then has made
    these calls, in this order, and nothing else: discovery, open,
    interface lookup, the detachment if any, the claim; [device] and
    [iface] are set, and nothing is published. *)
Theorem openAndClaim_succeeds_iff (w : World) (s : Session) :
  ((openAndClaim w s).1 = Return tt ↔ claimable w = true) ∧
  (claimable w = true →
   openAndClaim w s =
   (Return tt,
    set_trace (trace s ++ map FxUsb (claim_calls w))
      (set_iface (Some handle) (set_device (Some handle) s))) ∧
   (is_win32 w = true → DetachKernelDriver ∉ claim_calls w)).
Proof.
  split.
  - split.
    + intros Hret. destruct (claimable w) eqn:Hw; [done|].
      by destruct (openAndClaim_fails w s Hw).
    + intros Hw. by rewrite openAndClaim_claims.
  - intros Hw. split; [by apply openAndClaim_claims|].
    intros Hwin. unfold claim_calls, detaches. rewrite Hwin. simpl.
    intros Hin. repeat (apply elem_of_cons in Hin as [[=]|Hin]).
    by apply elem_of_nil in Hin.
Qed.

(** X2. An [openAndClaim] that fails while error listeners are subscribed
    (none of which throws) throws the connection error, whose cause is what
    went wrong first: no dongle, no interface 0, or an exception of the usb
    binding.  The last error event it publishes is the connection message;
    a missing dongle and a missing interface are published before it, so
    that the listeners hear of these twice. *)
Theorem openAndClaim_reports_failure (w : World) (s : Session) :
  claimable w = false →
  supervised (ee s) →
  ∃ cause tr,
    (openAndClaim w s).1 = Throw (connection_error cause) ∧
    trace (openAndClaim w s).2 = trace s ++ tr ∧
    cause =
      (if negb (dongle_present w) then CustomError dongle_not_found None
       else if open_fails w then HostError "usb"
       else if negb (interface0_present w) then CustomError "Interface 0 not found" None
       else HostError "usb") ∧
    error_publications tr =
      (if negb (dongle_present w) then [EText dongle_not_found]
       else if open_fails w then []
       else if negb (interface0_present w) then [EText "Interface 0 not found"]
       else [])
      ++ [EText "Failed to open the connection to the dongle."].
Proof.
  intros Hw Hsup. world_cases w Hw; destruct s; run_openAndClaim.
  all: rewrite ?emit_error_heard by exact Hsup; cbv beta iota.
  all: rewrite ?emit_error_heard by exact Hsup; cbv beta iota.
  all: eexists _, _; split; [reflexivity|].
  all: split; [simpl; rewrite <- ?app_assoc; reflexivity|]; split; [reflexivity|].
  all: rewrite ?error_publications_app, ?error_publications_cons,
         ?error_publications_deliveries; reflexivity.
Qed.

Lemma supervised_session_supervised : supervised (ee supervised_session).
Proof.
  unfold supervised. vm_compute. split; [discriminate|].
  intros payload. repeat constructor.
Qed.

Lemma openAndClaim_reports_failure_witness :
  ∃ cause tr,
    (openAndClaim unplugged supervised_session).1 = Throw (connection_error cause) ∧
    trace (openAndClaim unplugged supervised_session).2 = trace supervised_session ++ tr ∧
    cause = CustomError dongle_not_found None ∧
    error_publications tr =
      [EText dongle_not_found; EText "Failed to open the connection to the dongle."].
Proof.
  apply (openAndClaim_reports_failure unplugged supervised_session).
  - reflexivity.
  - unfold supervised. vm_compute. split; [discriminate|].
    intros payload. repeat constructor.
Defined.

(** X3. An [openAndClaim] that fails while nobody listens to the error
    event does not throw the connection error: whatever went wrong, the
    publication of the connection message in its [catch] block raises the
    emitter's unhandled-error exception for that message, which replaces
    the error and its cause.  Nothing is delivered to anyone. *)
Theorem openAndClaim_unheard_failure (w : World) (s : Session) :
  claimable w = false →
  error_listeners (ee s) = [] →
  ∃ tr,
    openAndClaim w s =
      (Throw (UnhandledError "Failed to open the connection to the dongle."),
       set_trace (trace s ++ tr)
         (set_iface (if dongle_present w && negb (open_fails w)
                     then (if interface0_present w then Some handle else None)
                     else iface s)
            (set_device (if dongle_present w then Some handle else None) s))) ∧
    Forall (λ fx, match fx with FxUsb _ | FxEmitError _ => True | _ => False end) tr ∧
    last tr = Some (FxEmitError (EText "Failed to open the connection to the dongle.")).
Proof.
  intros Hw Hnone. world_cases w Hw; destruct s; run_openAndClaim.
  all: rewrite ?emit_error_unheard by exact Hnone; cbv beta iota.
  all: rewrite ?emit_error_unheard by exact Hnone; cbv beta iota.
  all: eexists; split; [cbv -[app]; rewrite <- ?app_assoc; reflexivity|].
  all: split; [repeat constructor|reflexivity].
Qed.

Lemma openAndClaim_unheard_failure_witness :
  ∃ tr,
    openAndClaim unplugged Buzzer =
      (Throw (UnhandledError "Failed to open the connection to the dongle."),
       set_trace (trace Buzzer ++ tr) (set_iface (iface Buzzer) (set_device None Buzzer))) ∧
    Forall (λ fx, match fx with FxUsb _ | FxEmitError _ => True | _ => False end) tr ∧
    last tr = Some (FxEmitError (EText "Failed to open the connection to the dongle.")).
Proof.
  apply (openAndClaim_unheard_failure unplugged Buzzer); reflexivity.
Defined.

(** ** The rest of the setup *)

(** Unfolds the operations of the monad and the assignments. *)
Ltac run_monad :=
  cbv beta iota zeta delta
    [bind ret throw try_catch attempt gets modify log usb hid_write
     set_ee set_device set_iface set_endpoint set_hidDevice set_currentStates
     set_isReady set_readyPromise set_promises set_jobs set_timers set_now
     set_polling set_trace
     ee device iface endpoint hidDevice currentStates isReady readyPromise
     promises jobs timers now polling trace fst snd].

Lemma find_interrupt_in (eps : list UsbEndpoint) :
  match List.find interrupt_in eps with
  | Some _ => existsb interrupt_in eps = true
  | None => existsb interrupt_in eps = false
  end.
Proof.
  induction eps as [|ep eps IH]; simpl; [done|].
  destruct (interrupt_in ep); simpl; done.
Qed.

Lemma findInterruptEndpoint_eq (w : World) (s : Session) :
  if existsb interrupt_in (endpoints w)
  then findInterruptEndpoint w s = (Return handle, s)
  else ∃ errMsg, findInterruptEndpoint w s =
                 (emit_error (EText errMsg) ;; throw (CustomError errMsg None)) s.
Proof.
  unfold findInterruptEndpoint.
  pose proof (find_interrupt_in (endpoints w)) as Hfind. unfold interrupt_in in Hfind at 1.
  destruct (List.find _ (endpoints w)); rewrite Hfind; [done|].
  by eexists.
Qed.

Lemma emit_error_keeps_handles (payload : ErrorPayload) :
  stable (keep (λ s, (device s, iface s, endpoint s, hidDevice s, polling s)))
    (emit_error payload).
Proof. stable_with keep_leaf. Qed.

Lemma setupBuzzListener_resume_listens (w : World) (s : Session) :
  listenable w = true →
  setupBuzzListener_resume w (Return tt) s =
  (Return tt,
   set_polling true
     (set_endpoint (Some handle)
        (set_hidDevice (Some handle)
           (set_trace (trace s ++ [FxUsb HidOpen; FxUsb StartPoll]) s)))).
Proof.
  unfold listenable. intros Hw.
  pose proof (findInterruptEndpoint_eq w) as Hep.
  destruct (hid_open_fails w) eqn:Hhid; [done|].
  destruct (existsb interrupt_in (endpoints w)); [|done].
  destruct (startPoll_fails w) eqn:Hpoll; [done|].
  unfold setupBuzzListener_resume. rewrite Hhid, Hpoll.
  destruct s. run_monad. rewrite Hep. run_monad.
  by rewrite <- app_assoc.
Qed.

Lemma usb_calls_plain (tr : list Effect) : Forall plain tr → usb_calls tr = [].
Proof.
  induction 1 as [|fx tr Hfx _ IH]; [done|].
  destruct fx; try done; exact IH.
Qed.

Lemma usb_calls_app (t1 t2 : list Effect) :
  usb_calls (t1 ++ t2) = usb_calls t1 ++ usb_calls t2.
Proof. apply omap_app. Qed.

(** A publication on the error channel followed by a [throw]. *)
Lemma publish_then_throw {A} (payload : ErrorPayload) (e : Exn) (s : Session) :
  ∃ e' tr,
    (emit_error payload ;; throw e) s = (@Throw A e', set_trace (trace s ++ tr) s) ∧
    Forall plain tr ∧
    Forall (λ fx, fx = FxEmitError payload ∨ ∃ cb, fx = FxDeliverError cb payload) tr.
Proof.
  unfold bind, throw. rewrite emit_error_eq.
  destruct (error_listeners (ee s)) as [|l ls].
  - eexists _, _. split; [done|]. split; repeat constructor.
  - set (run := λ l : Callback ErrorPayload, cb_run l payload).
    destruct (reached run (l :: ls)) as [delivered [e'|]]; simpl.
    all: eexists _, _; (split; [done|]);
      (split; [constructor; [done|]|constructor; [by left|]]).
    all: apply Forall_forall; intros fx Hfx.
    all: apply list_elem_of_fmap in Hfx as (l' & -> & _); first [done|by eauto].
Qed.

Lemma error_objects_of_text (msg : string) (tr : list Effect) :
  Forall (λ fx, fx = FxEmitError (EText msg) ∨ ∃ cb, fx = FxDeliverError cb (EText msg)) tr →
  error_objects_delivered tr = [].
Proof.
  induction 1 as [|fx tr [->|[cb ->]] _ IH]; [done|exact IH..].
Qed.

Lemma setupBuzzListener_resume_fails (w : World) (s : Session) :
  listenable w = false →
  ∃ cause tr,
    setupBuzzListener_resume w (Return tt) s =
      (Throw (setup_error cause),
       set_endpoint (if existsb interrupt_in (endpoints w) && negb (hid_open_fails w)
                     then Some handle else endpoint s)
         (set_hidDevice (if hid_open_fails w then hidDevice s else Some handle)
            (set_trace (trace s ++ FxUsb HidOpen :: tr) s))) ∧
    usb_calls tr = (if existsb interrupt_in (endpoints w) && negb (hid_open_fails w)
                    then [StartPoll] else []) ∧
    error_objects_delivered tr = [].
Proof.
  unfold listenable. intros Hw.
  pose proof (findInterruptEndpoint_eq w) as Hep.
  unfold setupBuzzListener_resume.
  destruct (hid_open_fails w) eqn:Hhid.
  { exists (HostError "hid"), []. rewrite andb_false_r.
    destruct s. run_monad. done. }
  destruct (existsb interrupt_in (endpoints w)).
  - destruct (startPoll_fails w) eqn:Hpoll; [|done].
    exists (HostError "usb"), [FxUsb StartPoll]. split; [|done].
    destruct s. run_monad. rewrite Hep. run_monad. by rewrite <- app_assoc.
  - set (s1 := set_hidDevice (Some handle) (set_trace (trace s ++ [FxUsb HidOpen]) s)).
    destruct (Hep s1) as (errMsg & Hfind).
    destruct (publish_then_throw (A := Handle) (EText errMsg) (CustomError errMsg None) s1)
      as (e' & tr & Hpub & Hplain & Htext).
    exists e', tr.
    split; [|split; [by apply usb_calls_plain|by eapply error_objects_of_text]].
    assert (findInterruptEndpoint w s1 = (Throw e', set_trace (trace s1 ++ tr) s1)) as Hrun.
    { by rewrite Hfind. }
    revert Hrun. subst s1. destruct s. run_monad. intros ->. run_monad.
    by rewrite <- app_assoc.
Qed.

(** X4. The rest of the setup, entered after the dongle was claimed,
    succeeds exactly when the HID channel opens, the interface has an
    interrupt IN endpoint and polling starts.  It then has opened the HID
    channel and started polling, in this order, keeps the HID handle and
    the endpoint, and the listener of reports is attached.  Entered after
    a failed claim, it does nothing but wrap that failure in the setup
    error. *)
Theorem setupBuzzListener_resume_succeeds_iff (w : World) (s : Session) :
  ((setupBuzzListener_resume w (Return tt) s).1 = Return tt ↔ listenable w = true) ∧
  (listenable w = true →
   setupBuzzListener_resume w (Return tt) s =
   (Return tt,
    set_polling true
      (set_endpoint (Some handle)
         (set_hidDevice (Some handle)
            (set_trace (trace s ++ [FxUsb HidOpen; FxUsb StartPoll]) s))))) ∧
  (∀ e, setupBuzzListener_resume w (Throw e) s = (Throw (setup_error e), s)).
Proof.
  split; [split|split].
  - intros Hret. destruct (listenable w) eqn:Hw; [done|].
    destruct (setupBuzzListener_resume_fails w s Hw) as (cause & tr & Hrun & _).
    by rewrite Hrun in Hret.
  - intros Hw. by rewrite setupBuzzListener_resume_listens.
  - apply setupBuzzListener_resume_listens.
  - intros e. by destruct s.
Qed.

(** X5. When the setup fails after the HID channel was opened (the
    interface has no interrupt IN endpoint, or polling does not start),
    the HID handle stays open and stored: the setup error is thrown, no
    listener of reports is attached, and nothing on that path closes the
    channel or stops anything. *)
Theorem failed_setup_keeps_hid_open (w : World) (s : Session) :
  hid_open_fails w = false →
  listenable w = false →
  ∃ cause tr,
    (setupBuzzListener_resume w (Return tt) s).1 = Throw (setup_error cause) ∧
    let s' := (setupBuzzListener_resume w (Return tt) s).2 in
    hidDevice s' = Some handle ∧
    polling s' = polling s ∧
    trace s' = trace s ++ FxUsb HidOpen :: tr ∧
    usb_calls tr ⊆ [StartPoll].
Proof.
  intros Hhid Hw.
  destruct (setupBuzzListener_resume_fails w s Hw) as (cause & tr & Hrun & Hcalls & _).
  exists cause, tr. rewrite Hrun, Hhid. simpl.
  split; [done|]. split; [by destruct s|]. split; [by destruct s|].
  split; [by destruct s|]. rewrite Hcalls.
  destruct (_ && _); [done|]. apply list_subseteq_nil.
Qed.


Lemma failed_setup_keeps_hid_open_witness :
  ∃ cause tr,
    (setupBuzzListener_resume deaf (Return tt) Buzzer).1 = Throw (setup_error cause) ∧
    let s' := (setupBuzzListener_resume deaf (Return tt) Buzzer).2 in
    hidDevice s' = Some handle ∧
    polling s' = polling Buzzer ∧
    trace s' = trace Buzzer ++ FxUsb HidOpen :: tr ∧
    usb_calls tr ⊆ [StartPoll].
Proof.
  apply (failed_setup_keeps_hid_open deaf Buzzer); reflexivity.
Defined.

(** ** The startup animation *)

Lemma with_timers_nil (s : Session) : with_timers [] s = s.
Proof. destruct s; unfold with_timers; simpl. by rewrite !app_nil_r. Qed.

Lemma with_timers_app (d1 d2 : list (nat * TimerAction)) (s : Session) :
  with_timers d2 (with_timers d1 s) = with_timers (d1 ++ d2) s.
Proof.
  destruct s; unfold with_timers; simpl. by rewrite !map_app, !app_assoc.
Qed.

Lemma setTimeout_eq (action : TimerAction) (delay : nat) (s : Session) :
  setTimeout action delay s = (Return tt, with_timers [(delay, action)] s).
Proof. by destruct s. Qed.

Lemma blink_delays_S (cycles delay : nat) :
  blink_delays (S cycles) delay =
  (delay, Leds true) :: (delay + onTime, Leds false)
  :: blink_delays cycles (delay + onTime + offTime).
Proof.
  unfold blink_delays. simpl seq. simpl flat_map.
  rewrite Nat.add_0_r. do 2 f_equal.
  rewrite <- seq_shift, flat_map_concat_map, map_map, <- flat_map_concat_map.
  apply flat_map_ext. intros i. unfold onTime, offTime.
  by replace (delay + S i * 550) with (delay + 350 + 200 + i * 550) by lia.
Qed.

Lemma startup_animation_eq (p : PromiseId) (s : Session) :
  startup_animation p s = (Return tt, with_timers (animation p) s).
Proof.
  destruct s. cbv -[app Nat.add]. rewrite <- !app_assoc. reflexivity.
Qed.

(** X6. The animation loop of [ensureReady], run for any number of cycles
    from any delay, registers for the i-th cycle a timer that switches
    the LEDs on after delay + 550 i ms and one that switches them off 350
    ms later, in this order, and ends with the delay advanced by 550 ms
    per cycle; it does nothing else.  With its three cycles, the startup
    animation registers seven timers: on at 0, 550 and 1100 ms, off at
    350, 900 and 1450 ms, and the timer that makes the session ready at
    1850 ms. *)
Theorem startup_animation_schedule :
  (∀ cycles delay s,
     blink cycles delay s =
     (Return (delay + cycles * (onTime + offTime)),
      with_timers (blink_delays cycles delay) s)) ∧
  (∀ p s,
     startup_animation p s =
     (Return tt, with_timers (blink_delays 3 0 ++ [(1850, BecomeReady p)]) s)).
Proof.
  assert (∀ cycles delay s,
            blink cycles delay s =
            (Return (delay + cycles * (onTime + offTime)),
             with_timers (blink_delays cycles delay) s)) as Hblink.
  { induction cycles as [|n IH]; intros delay s.
    - simpl. unfold ret. rewrite Nat.add_0_r. by rewrite with_timers_nil.
    - rewrite blink_delays_S. simpl blink. unfold bind.
      rewrite !setTimeout_eq, IH, !with_timers_app. simpl app.
      do 2 f_equal. unfold onTime, offTime. lia. }
  split; [exact Hblink|].
  intros p s. unfold startup_animation. cbv zeta. unfold bind.
  rewrite Hblink, setTimeout_eq, with_timers_app. reflexivity.
Qed.

(** ** Timers *)

Lemma earliest_elem (ts : list (nat * TimerAction)) (i : nat) (t : nat * TimerAction) :
  earliest ts = Some (i, t) → ts !! i = Some t.
Proof.
  revert i t. induction ts as [|t0 ts IH]; intros i t; simpl; [done|].
  destruct (earliest ts) as [[j t']|].
  - destruct (decide (t'.1 < t0.1)); intros [= <- <-]; [by apply IH|done].
  - by intros [= <- <-].
Qed.

Lemma earliest_head (t : nat * TimerAction) (ts : list (nat * TimerAction)) :
  Forall (λ t', t.1 ≤ t'.1) ts → earliest (t :: ts) = Some (0, t).
Proof.
  intros Hle. simpl. destruct (earliest ts) as [[j t']|] eqn:He; [|done].
  apply earliest_elem, list_elem_of_lookup_2 in He.
  rewrite Forall_forall in Hle. specialize (Hle t' He).
  destruct (decide (t'.1 < t.1)); [lia|done].
Qed.

(** An LED write changes nothing but the trace. *)
Lemma privateSetLeds_trace (w : World) (p1 p2 p3 p4 : bool) (s : Session) :
  ∃ r tr,
    privateSetLeds w p1 p2 p3 p4 s = (r, set_trace (trace s ++ tr) s) ∧
    (hidDevice s = Some handle →
     hid_write_fails w (primary_report p1 p2 p3 p4) = false →
     r = Return tt ∧ tr = [FxHidWrite (primary_report p1 p2 p3 p4) true]).
Proof.
  destruct (hidDevice s) as [h|] eqn:Hhid.
  - rewrite (privateSetLeds_eq w p1 p2 p3 p4 s h Hhid). cbv zeta.
    destruct (hid_write_fails w (primary_report p1 p2 p3 p4)).
    2: { eexists _, _. split; [done|]. done. }
    destruct (hid_write_fails w (fallback_report p1 p2 p3 p4)).
    2: { eexists _, _. split; [done|]. done. }
    rewrite emit_error_eq.
    set (s1 := set_trace _ s).
    replace (error_listeners (ee s1)) with (error_listeners (ee s)) by (by destruct s).
    destruct (error_listeners (ee s)) as [|l ls]; eexists _, _.
    + split; [|done]. f_equal. subst s1. apply set_trace_more.
    + split; [|done]. f_equal. subst s1. apply set_trace_more.
  - eexists _, _. split; [|done].
    unfold privateSetLeds, bind at 1, gets. rewrite Hhid. reflexivity.
Qed.

Lemma step_timer_leds (w : World) (s : Session) (due : nat) (on : bool)
    (rest : list (nat * TimerAction)) :
  timers s = (due, Leds on) :: rest →
  Forall (λ t, due ≤ t.1) rest →
  ∃ tr,
    step w Timer s =
      set_trace (trace s ++ tr) (set_now (now s `max` due) (set_timers rest s)) ∧
    (hidDevice s = Some handle → hid_write_fails w (all_leds on) = false →
     tr = [FxHidWrite (all_leds on) true]).
Proof.
  intros Hts Hle. unfold step, handle_event, bind at 1, gets. simpl.
  rewrite Hts, (earliest_head (due, Leds on) rest Hle). simpl.
  unfold bind, modify. simpl.
  set (s1 := set_now _ _).
  destruct (privateSetLeds_trace w on on on on s1) as (r & tr & Hrun & Hok).
  rewrite Hrun. destruct r as [[]|e].
  - exists tr. split; [by destruct s|]. intros Hhid Hw. apply Hok; [by destruct s|done].
  - exists (tr ++ [FxUncaught e]). split.
    + destruct s; simpl. by rewrite app_assoc.
    + intros Hhid Hw. destruct Hok as [[=] _]; [by destruct s|done].
Qed.

Lemma run_led_timers (w : World) (leds : list (nat * bool))
    (rest : list (nat * TimerAction)) :
  ∀ s,
    timers s = led_timers leds ++ rest →
    in_due_order (timers s) →
    ∃ tr,
      run (replicate (length leds) (w, Timer)) s =
        set_trace (trace s ++ tr)
          (set_now (foldl Nat.max (now s) leds.*1) (set_timers rest s)) ∧
      (hidDevice s = Some handle → (∀ report, hid_write_fails w report = false) →
       tr = map (λ t, FxHidWrite (all_leds t.2) true) leds).
Proof.
  induction leds as [|[due on] leds IH]; intros s Hts Hord.
  - exists []. split; [|done]. simpl in *. destruct s; simpl in *; subst.
    by rewrite app_nil_r.
  - simpl in Hts. rewrite Hts in Hord. destruct Hord as [Hle Hord].
    destruct (step_timer_leds w s due on _ Hts Hle) as (t1 & Hstep & Hok1).
    simpl. rewrite Hstep.
    set (s1 := set_trace _ _).
    destruct (IH s1) as (t2 & Hrun & Hok2); [by destruct s..|].
    rewrite Hrun. exists (t1 ++ t2). split.
    + destruct s; simpl. by rewrite app_assoc.
    + intros Hhid Hw. rewrite Hok1, Hok2; [done|by destruct s|done..].
Qed.

Lemma emit_ready_eq (s : Session) :
  emit_ready s =
  (ended (reached (λ l, cb_run l tt) (ready_listeners (ee s))).2,
   set_trace (trace s ++ FxEmitReady
                :: map deliver_ready (reached (λ l, cb_run l tt) (ready_listeners (ee s))).1) s).
Proof.
  unfold emit_ready, bind, log, modify, gets. simpl.
  replace (ready_listeners (ee (set_trace (trace s ++ [FxEmitReady]) s)))
    with (ready_listeners (ee s)) by (by destruct s).
  rewrite call_listeners_eq. f_equal. apply (set_trace_more [FxEmitReady]).
Qed.

Lemma step_timer_ready (w : World) (s : Session) (due : nat) (p : PromiseId)
    (rest : list (nat * TimerAction)) (ks : list Reaction) :
  timers s = (due, BecomeReady p) :: rest →
  Forall (λ t, due ≤ t.1) rest →
  promises s !! p = Some {| outcome := None; reactions := ks |} →
  Forall (λ l, cb_run l tt = None) (ready_listeners (ee s)) →
  step w Timer s =
    set_jobs (jobs s ++ map (λ k, React k (Return tt)) ks)
      (set_promises (<[p := resolved]> (promises s))
         (set_trace (trace s ++ FxEmitReady :: map deliver_ready (ready_listeners (ee s)))
            (set_isReady true (set_now (now s `max` due) (set_timers rest s))))).
Proof.
  intros Hts Hle Hp Hquiet. unfold step, handle_event, bind at 1, gets. simpl.
  rewrite Hts, (earliest_head (due, BecomeReady p) rest Hle). simpl.
  unfold bind, modify. simpl. rewrite emit_ready_eq.
  set (s1 := set_isReady _ _).
  replace (ready_listeners (ee s1)) with (ready_listeners (ee s)) by (by destruct s).
  rewrite (reached_all _ _ Hquiet). simpl.
  rewrite (settle_pending p _ ks) by (by destruct s).
  by destruct s.
Qed.

Lemma run_app (evs1 evs2 : list (World * Event)) (s : Session) :
  run (evs1 ++ evs2) s = run evs2 (run evs1 s).
Proof. apply foldl_app. Qed.

(** X7. Once the setup has registered the startup animation (with no
    other timer pending), seven timers later the session is ready, 1850 ms
    after the registration: [isReady] is set, the promise of readiness is
    resolved, and the reactions chained on it are queued in the order in
    which they were chained, provided no ready listener throws; whether
    the LED reports are accepted does not matter for that.  When the HID
    channel accepts them, the trace is exactly: the seven registrations,
    the reports all-on and all-off three times, then the ready event and
    its deliveries in subscription order. *)
Theorem startup_animation_reaches_ready (w : World) (s : Session) (p : PromiseId)
    (ks : list Reaction) :
  timers s = [] →
  promises s !! p = Some {| outcome := None; reactions := ks |} →
  Forall (λ l, cb_run l tt = None) (ready_listeners (ee s)) →
  let s' := run (replicate 7 (w, Timer)) (startup_animation p s).2 in
  isReady s' = true ∧
  timers s' = [] ∧
  now s' = now s + 1850 ∧
  outcome_of s' p = Some (Return tt) ∧
  jobs s' = jobs s ++ map (λ k, React k (Return tt)) ks ∧
  (hidDevice s = Some handle → (∀ report, hid_write_fails w report = false) →
   trace s' =
     trace s ++ map (λ da, FxSetTimeout da.1 da.2) (animation p)
     ++ [ FxHidWrite (all_leds true) true; FxHidWrite (all_leds false) true;
          FxHidWrite (all_leds true) true; FxHidWrite (all_leds false) true;
          FxHidWrite (all_leds true) true; FxHidWrite (all_leds false) true ]
     ++ FxEmitReady :: map deliver_ready (ready_listeners (ee s))).
Proof.
  intros Hts Hp Hquiet s'. subst s'.
  rewrite startup_animation_eq. cbn [snd].
  set (s1 := with_timers (animation p) s).
  set (leds := [ (now s + 0, true); (now s + 350, false); (now s + 550, true);
                 (now s + 900, false); (now s + 1100, true); (now s + 1450, false) ]).
  assert (timers s1 = led_timers leds ++ [(now s + 1850, BecomeReady p)]) as Hts1.
  { subst s1. destruct s; simpl in *. by subst. }
  change (replicate 7 (w, Timer)) with (replicate (length leds) (w, Timer) ++ [(w, Timer)]).
  rewrite run_app.
  destruct (run_led_timers w leds _ s1 Hts1) as (tr & Hrun & Hok).
  { rewrite Hts1. simpl. repeat split; repeat constructor; simpl; lia. }
  rewrite Hrun. set (s2 := set_trace _ _). simpl run.
  rewrite (step_timer_ready w s2 (now s + 1850) p [] ks);
    [|by destruct s|done|by destruct s|by destruct s].
  split; [by destruct s|]. split; [by destruct s|]. split.
  { destruct s; simpl. lia. }
  split.
  { unfold outcome_of.
    replace (promises (set_jobs _ _)) with (<[p := resolved]> (promises s))
      by (by destruct s).
    rewrite list_lookup_insert_eq; [done|]. by eapply lookup_lt_Some. }
  split; [by destruct s|].
  intros Hhid Hw. subst s2. rewrite Hok; [|by destruct s|done].
  destruct s; simpl. rewrite <- !app_assoc. reflexivity.
Qed.

Lemma startup_animation_reaches_ready_witness :
  let s := run [(plugged, CallOnPress (listening 1))] Buzzer in
  let s' := run (replicate 7 (plugged, Timer)) (startup_animation 0 s).2 in
  isReady s' = true ∧
  timers s' = [] ∧
  now s' = now s + 1850 ∧
  outcome_of s' 0 = Some (Return tt) ∧
  jobs s' = jobs s ++ map (λ k, React k (Return tt)) [CatchEmitError] ∧
  (hidDevice s = Some handle → (∀ report, hid_write_fails plugged report = false) →
   trace s' =
     trace s ++ map (λ da, FxSetTimeout da.1 da.2) (animation 0)
     ++ [ FxHidWrite (all_leds true) true; FxHidWrite (all_leds false) true;
          FxHidWrite (all_leds true) true; FxHidWrite (all_leds false) true;
          FxHidWrite (all_leds true) true; FxHidWrite (all_leds false) true ]
     ++ FxEmitReady :: map deliver_ready (ready_listeners (ee s))).
Proof.
  intros s.
  apply (startup_animation_reaches_ready plugged s 0 [CatchEmitError]).
  - vm_compute. reflexivity.
  - vm_compute. reflexivity.
  - vm_compute. constructor.
Defined.

(** X8. When a ready listener throws, the timer that ends the startup
    animation stops there: [isReady] is set and the listeners up to the
    one that throws have received the event, but the promise of readiness
    is not resolved and none of the reactions chained on it is queued; the
    exception is uncaught. *)
Theorem throwing_ready_listener_leaves_promise_pending
    (w : World) (s : Session) (due : nat) (p : PromiseId)
    (rest : list (nat * TimerAction))
    (before behind : list (Callback unit)) (l : Callback unit) (e : Exn) :
  timers s = (due, BecomeReady p) :: rest →
  Forall (λ t, due ≤ t.1) rest →
  ready_listeners (ee s) = before ++ l :: behind →
  Forall (λ l', cb_run l' tt = None) before →
  cb_run l tt = Some e →
  step w Timer s =
    set_trace (trace s ++ FxEmitReady :: map deliver_ready (before ++ [l])
                 ++ [FxUncaught e])
      (set_isReady true (set_now (now s `max` due) (set_timers rest s))).
Proof.
  intros Hts Hle Hls Hbefore Hl. unfold step, handle_event, bind at 1, gets. simpl.
  rewrite Hts, (earliest_head (due, BecomeReady p) rest Hle). simpl.
  unfold bind, modify. simpl. rewrite emit_ready_eq.
  set (s1 := set_isReady _ _).
  replace (ready_listeners (ee s1)) with (ready_listeners (ee s)) by (by destruct s).
  rewrite Hls, (reached_throw _ before behind l e Hbefore Hl). simpl.
  destruct s; simpl. by rewrite <- app_assoc.
Qed.

Lemma throwing_ready_listener_leaves_promise_pending_witness :
  let s := run ([ (plugged, CallOnReady (listening 1)); (plugged, CallOnReady (throwing 2 7));
                  (plugged, CallOnReady (listening 3));
                  (plugged, CallSetLeds true false false false); (plugged, Microtask) ]
                ++ replicate 6 (plugged, Timer)) Buzzer in
  step plugged Timer s =
    set_trace (trace s ++ FxEmitReady :: map deliver_ready ([listening 1] ++ [throwing 2 7])
                 ++ [FxUncaught (CallbackError 7)])
      (set_isReady true (set_now (now s `max` 1850) (set_timers [] s))).
Proof.
  intros s.
  apply (throwing_ready_listener_leaves_promise_pending plugged s 1850 0 []
           [listening 1] [listening 3] (throwing 2 7) (CallbackError 7)).
  - vm_compute. reflexivity.
  - constructor.
  - vm_compute. reflexivity.
  - repeat constructor.
  - reflexivity.
Defined.

(** The call of [setLeds] above is never answered: its reaction stays
    chained on the pending promise. *)
Example throwing_ready_listener_starves_setLeds :
  let s := run ([ (plugged, CallOnReady (throwing 2 7));
                  (plugged, CallSetLeds true false false false); (plugged, Microtask) ]
                ++ replicate 7 (plugged, Timer) ++ replicate 3 (plugged, Microtask)) Buzzer in
  isReady s = true ∧
  promises s = [ {| outcome := None;
                    reactions := [ThenSetLeds "setLeds" true false false false] |} ] ∧
  jobs s = [] ∧ timers s = [] ∧
  FxResolved "setLeds" ∉ trace s.
Proof.
  vm_compute. repeat split; try done.
  intros Hin. repeat (apply elem_of_cons in Hin as [[=]|Hin]).
  by apply elem_of_nil in Hin.
Qed.

(** ** LED reports and turns of the event loop *)

Lemma hid_writes_none (tr : list Effect) : Forall no_led_report tr → hid_writes tr = [].
Proof.
  induction 1 as [|fx tr Hfx _ IH]; [done|].
  destruct fx; try done; exact IH.
Qed.

Lemma hid_writes_app (t1 t2 : list Effect) :
  hid_writes (t1 ++ t2) = hid_writes t1 ++ hid_writes t2.
Proof. apply omap_app. Qed.

Lemma handle_event_no_led_report (w : World) (ev : Event) :
  ev ≠ Microtask → ev ≠ Timer → stable (logging no_led_report) (handle_event w ev).
Proof.
  intros Hm Ht. destruct ev; try done; unfold handle_event;
    autounfold with ops api; stable_with logging_leaf.
Qed.

(** X9. LED reports are written from microtasks and timers only: no call
    of the API, [setLeds] and [setLedsarray] included, and no input report
    writes to the HID channel in its own turn. *)
Theorem led_reports_are_deferred (w : World) (ev : Event) (s : Session) :
  ev ≠ Microtask → ev ≠ Timer →
  hid_writes (trace (step w ev s)) = hid_writes (trace s).
Proof.
  intros Hm Ht. unfold step.
  destruct (handle_event_no_led_report w ev Hm Ht s) as (tr & Htr & Hnone).
  destruct (handle_event w ev s) as [[[]|e] s']; simpl in Htr |- *.
  - rewrite Htr, hid_writes_app, (hid_writes_none tr) by done. apply app_nil_r.
  - replace (trace (set_trace _ s')) with (trace s' ++ [FxUncaught e]) by (by destruct s').
    rewrite Htr, !hid_writes_app, (hid_writes_none tr) by done.
    change (hid_writes [FxUncaught e]) with (@nil Js.Buffer). by rewrite !app_nil_r.
Qed.

Lemma led_reports_are_deferred_witness :
  hid_writes (trace (step plugged (CallSetLeds true true false false) ready_session))
  = hid_writes (trace ready_session).
Proof.
  apply (led_reports_are_deferred plugged (CallSetLeds true true false false) ready_session);
    discriminate.
Defined.

Lemma setLeds_then_microtask (w : World) (api : string) (ev : Event)
    (p1 p2 p3 p4 : bool) (s : Session) :
  handle_event w ev = async api (setLeds w api p1 p2 p3 p4) →
  isReady s = true →
  jobs s = [] →
  ∃ r tr,
    run [(w, ev); (w, Microtask)] s =
      set_trace (trace s ++ FxAwait api AlreadyReady :: tr ++ [settlement api r]) s ∧
    (hidDevice s = Some handle →
     hid_write_fails w (primary_report p1 p2 p3 p4) = false →
     r = Return tt ∧ tr = [FxHidWrite (primary_report p1 p2 p3 p4) true]).
Proof.
  intros Hev Hready Hjobs.
  set (s1 := set_jobs [React (ThenSetLeds api p1 p2 p3 p4) (Return tt)]
               (set_trace (trace s ++ [FxAwait api AlreadyReady]) s)).
  assert (step w ev s = s1) as Hstep.
  { unfold step. rewrite Hev. unfold async, attempt, bind at 1, setLeds, await_ready.
    unfold bind at 1. rewrite ensureReady_eq, Hready.
    subst s1. destruct s; simpl in *. by subst. }
  set (s2 := set_trace (trace s ++ [FxAwait api AlreadyReady]) s).
  destruct (privateSetLeds_trace w p1 p2 p3 p4 s2) as (r & tr & Hrun & Hok).
  exists r, tr. split.
  - simpl. rewrite Hstep. unfold step, handle_event, bind at 1, gets. simpl.
    replace (jobs s1) with [React (ThenSetLeds api p1 p2 p3 p4) (Return tt)]
      by (by destruct s).
    unfold bind at 1, modify. simpl.
    replace (set_jobs [] s1) with s2 by (subst s1 s2; destruct s; simpl in *; by subst).
    unfold bind, attempt. rewrite Hrun.
    subst s2. destruct r as [[]|e], s; simpl; by rewrite <- !app_assoc.
  - intros Hhid Hw. apply Hok; [by destruct s|done].
Qed.

(** X10. On a ready session with an empty microtask queue, [setLeds],
    and [setLedsarray] with an array of four booleans, do their work in
    the next microtask: one LED write with the values given, and the
    settlement of the promise of the call, resolved unless the write
    threw.  Nothing else in the session changes; when the HID channel
    accepts the report, it is the only report written. *)
Theorem setLeds_on_ready_session (w : World) (p1 p2 p3 p4 : bool) (s : Session) :
  isReady s = true →
  jobs s = [] →
  ∀ ev api,
    (ev = CallSetLeds p1 p2 p3 p4 ∧ api = "setLeds") ∨
    (ev = CallSetLedsarray (ArrayOf [p1; p2; p3; p4]) ∧ api = "setLedsarray") →
    ∃ r tr,
      run [(w, ev); (w, Microtask)] s =
        set_trace (trace s ++ FxAwait api AlreadyReady :: tr ++ [settlement api r]) s ∧
      (hidDevice s = Some handle →
       hid_write_fails w (primary_report p1 p2 p3 p4) = false →
       r = Return tt ∧ tr = [FxHidWrite (primary_report p1 p2 p3 p4) true]).
Proof.
  intros Hready Hjobs ev api [[-> ->]|[-> ->]];
    by apply setLeds_then_microtask.
Qed.

Lemma setLeds_on_ready_session_witness :
  ∃ r tr,
    run [(plugged, CallSetLedsarray (ArrayOf [true; false; true; false]));
         (plugged, Microtask)] ready_session =
      set_trace (trace ready_session ++ FxAwait "setLedsarray" AlreadyReady
                   :: tr ++ [settlement "setLedsarray" r]) ready_session ∧
    (hidDevice ready_session = Some handle →
     hid_write_fails plugged (primary_report true false true false) = false →
     r = Return tt ∧ tr = [FxHidWrite (primary_report true false true false) true]).
Proof.
  apply (setLeds_on_ready_session plugged true false true false ready_session).
  - vm_compute. reflexivity.
  - vm_compute. reflexivity.
  - right. split; reflexivity.
Defined.

(** ** Subscriptions *)

Lemma step_idle (w : World) (ev : Event) (s : Session) :
  starts_nothing ev → idle s → idle (step w ev s).
Proof.
  intros Hev (Hready & Hrp & Hjobs & Hts & Hpoll & Hep & Hif & Htr).
  destruct ev; try done; destruct s; simpl in *; subst.
  all: cbv -[app]; repeat split; try done.
  apply Forall_app. split; [done|]. by repeat constructor.
Qed.

(** X11. [onReady] does not start the setup: in a session on which
    nothing but [onReady] and [close] is called, whatever else happens,
    the dongle is never looked for, the session never becomes ready and
    the ready event is never published, so that the callbacks handed to
    [onReady] are never called. *)
Theorem onReady_does_not_start_the_setup (evs : list (World * Event)) :
  Forall (λ we, starts_nothing we.2) evs →
  let s := run evs Buzzer in
  isReady s = false ∧
  readyPromise s = None ∧
  polling s = false ∧
  usb_calls (trace s) = [] ∧
  (FxEmitReady ∉ trace s) ∧
  (∀ cb, FxDeliverReady cb ∉ trace s).
Proof.
  intros Hevs s.
  assert (idle s) as (Hready & Hrp & _ & _ & Hpoll & _ & _ & Htr).
  { subst s. assert (idle Buzzer) as Hidle by (repeat split; constructor).
    revert Hidle. generalize Buzzer.
    induction Hevs as [|[w ev] evs Hev _ IH]; intros s0 Hidle; [done|].
    simpl. apply IH. by apply step_idle. }
  repeat split; try done.
  - clear -Htr. induction Htr as [|fx tr -> _ IH]; [done|exact IH].
  - intros Hin. rewrite Forall_forall in Htr. by apply Htr in Hin.
  - intros cb Hin. rewrite Forall_forall in Htr. by apply Htr in Hin.
Qed.

Lemma onReady_does_not_start_the_setup_witness :
  let s := run [ (plugged, CallOnReady (listening 1)); (plugged, Microtask);
                 (plugged, Timer); (plugged, Report [x00; x00; x01; x00; x00]);
                 (plugged, CallClose) ] Buzzer in
  isReady s = false ∧
  readyPromise s = None ∧
  polling s = false ∧
  usb_calls (trace s) = [] ∧
  (FxEmitReady ∉ trace s) ∧
  (∀ cb, FxDeliverReady cb ∉ trace s).
Proof.
  apply (onReady_does_not_start_the_setup
           [ (plugged, CallOnReady (listening 1)); (plugged, Microtask);
             (plugged, Timer); (plugged, Report [x00; x00; x01; x00; x00]);
             (plugged, CallClose) ]).
  repeat constructor.
Defined.

Lemma chain_returns (on : Awaited) (k : Reaction) (s : Session) :
  (chain on k s).1 = Return tt.
Proof.
  unfold chain. destruct on as [|p]; [done|].
  unfold bind, gets. simpl. by destruct (promises s !! p) as [[[r|] ks]|].
Qed.

Lemma await_ready_returns (w : World) (api : string) (k : Reaction) (s : Session) :
  (await_ready w api k s).1 = Return tt.
Proof.
  unfold await_ready, bind at 1. rewrite ensureReady_eq.
  destruct (isReady s); [|destruct (readyPromise s)].
  all: unfold bind, log, modify; cbn [fst snd]; first [done|apply chain_returns].
Qed.

Lemma await_ready_keeps_ee (w : World) (api : string) (k : Reaction) :
  stable (keep ee) (await_ready w api k).
Proof.
  unfold await_ready, ensureReady, new_promise, chain. stable_with keep_leaf.
Qed.

Lemma subscribe_after_await (w : World) (api : string) (k : Reaction)
    (f : EventEmitter → EventEmitter) (s : Session) :
  ∃ s', (await_ready w api k ;; modify (λ s, set_ee (f (ee s)) s)) s = (Return tt, s') ∧
        ee s' = f (ee s).
Proof.
  unfold bind. pose proof (await_ready_returns w api k s) as Hret.
  pose proof (await_ready_keeps_ee w api k s) as Hee. unfold keep in Hee.
  destruct (await_ready w api k s) as [r s1]. simpl in *. subst r.
  eexists. split; [done|]. destruct s1; simpl in *. by subst.
Qed.

(** X12. Every subscription returns normally and registers its handler,
    whatever the state of the dongle and of the setup, even when the
    subscription is the call in which the dongle turns out to be missing:
    the handler goes behind the listeners already subscribed to its
    channel ([onChange] to both the press and the release channel), and
    the other channels are left alone. *)
Theorem subscriptions_always_register (w : World) (s : Session) :
  (∀ cb, ∃ s', onPress w cb s = (Return tt, s') ∧
     ee s' = on_press_listeners
               (λ ls, ls ++ [{| via := ViaOnPress; consumer := cb |}]) (ee s)) ∧
  (∀ cb, ∃ s', onRelease w cb s = (Return tt, s') ∧
     ee s' = on_release_listeners
               (λ ls, ls ++ [{| via := ViaOnRelease; consumer := cb |}]) (ee s)) ∧
  (∀ cb, ∃ s', onChange w cb s = (Return tt, s') ∧
     ee s' = on_release_listeners
               (λ ls, ls ++ [{| via := ViaOnChange; consumer := cb |}])
               (on_press_listeners
                  (λ ls, ls ++ [{| via := ViaOnChange; consumer := cb |}]) (ee s))) ∧
  (∀ cb, ∃ s', onError w cb s = (Return tt, s') ∧
     ee s' = on_error_listeners (λ ls, ls ++ [cb]) (ee s)) ∧
  (∀ cb, onReady cb s =
     (Return tt, set_ee (on_ready_listeners (λ ls, ls ++ [cb]) (ee s)) s)).
Proof.
  repeat split.
  - intros cb. apply (subscribe_after_await w "onPress" CatchEmitError
                        (on_press_listeners (λ ls, ls ++ [_]))).
  - intros cb. apply (subscribe_after_await w "onRelease" CatchEmitError
                        (on_release_listeners (λ ls, ls ++ [_]))).
  - intros cb.
    destruct (subscribe_after_await w "onChange" CatchEmitError
                (on_press_listeners
                   (λ ls, ls ++ [{| via := ViaOnChange; consumer := cb |}])) s)
      as (s1 & Hrun & Hee).
    unfold onChange. unfold bind at 1. unfold bind at 1 in Hrun.
    destruct (await_ready w "onChange" CatchEmitError s) as [[[]|e] s0]; [|done].
    unfold bind, modify in *. injection Hrun as <-.
    eexists. split; [done|]. simpl in *. by rewrite Hee.
  - intros cb. apply (subscribe_after_await w "onError" (CatchCall cb)
                        (on_error_listeners (λ ls, ls ++ [cb]))).
Qed.

(** ** Teardown *)

(** X13. [close()] never rejects.  Its promise stays pending in one
    situation only: the interface was claimed, the poll was stopped and
    the interface released without an exception, and then closing the
    device or the HID channel threw inside the callback of the release;
    [isReady] and [readyPromise] are then left as they were. *)
Theorem close_never_rejects (w : World) (s : Session) :
  ∃ resolved s',
    close w s = (Return resolved, s') ∧
    (resolved = false ↔
       iface s ≠ None ∧
       (endpoint s = None ∨ stopPoll_fails w = false) ∧
       release_fails w = false ∧
       ((device s ≠ None ∧ device_close_fails w = true) ∨
        (hidDevice s ≠ None ∧ hid_close_fails w = true))) ∧
    (resolved = false → isReady s' = isReady s ∧ readyPromise s' = readyPromise s).
Proof.
  destruct w as [dp opf ip win kda df cf hof eps spf hwf stf rf dcf hcf].
  destruct s as [e [[]|] [[]|] [[]|] [[]|] cs rd rp ps js ts n pl tr].
  all: destruct stf, rf, dcf, hcf.
  all: eexists _, _; (split; [cbv -[app]; reflexivity|]).
  all: cbn; split; [intuition congruence|done].
Qed.

Lemma close_keeps_the_rest (w : World) : stable (keep untouched_by_close) (close w).
Proof. unfold close. stable_with keep_leaf. Qed.

Lemma step_close_keeps_the_rest (w : World) (s : Session) :
  untouched_by_close (step w CallClose s) = untouched_by_close s.
Proof.
  assert (stable (keep untouched_by_close) (handle_event w CallClose)) as Hkeep.
  { unfold handle_event. pose proof (close_keeps_the_rest w). stable_with keep_leaf. }
  specialize (Hkeep s). unfold step, keep in *.
  destruct (handle_event w CallClose s) as [[[]|e] s']; simpl in Hkeep; [done|].
  rewrite <- Hkeep. by destruct s'.
Qed.

Lemma step_close_stops_the_poll (w : World) (s : Session) :
  endpoint s ≠ None →
  ∃ tr, trace (step w CallClose s) = trace s ++ FxUsb StopPoll :: tr.
Proof.
  destruct w as [dp opf ip win kda df cf hof eps spf hwf stf rf dcf hcf].
  destruct s as [e dev itf [[]|] hid cs rd rp ps js ts n pl tr]; [intros _|done].
  destruct stf; [|destruct itf as [[]|]; [destruct rf; [|destruct dev as [[]|], hid as [[]|], dcf, hcf]|]].
  all: cbv -[app]; rewrite <- ?app_assoc; by eexists.
Qed.

(** X14. [close()] unsubscribes nobody, cancels no timer and no pending
    microtask, and does not forget the handles it has released: [device],
    [iface], [endpoint] and [hidDevice] keep their values.  A second
    [close()] therefore stops the poll on the stale endpoint again. *)
Theorem close_cancels_nothing (w : World) (s : Session) :
  let s' := step w CallClose s in
  ee s' = ee s ∧ timers s' = timers s ∧ jobs s' = jobs s ∧ promises s' = promises s ∧
  device s' = device s ∧ iface s' = iface s ∧ endpoint s' = endpoint s ∧
  hidDevice s' = hidDevice s ∧
  (endpoint s ≠ None →
   ∀ w2, ∃ tr, trace (step w2 CallClose s') = trace s' ++ FxUsb StopPoll :: tr).
Proof.
  intros s'. pose proof (step_close_keeps_the_rest w s) as Hkeep. fold s' in Hkeep.
  unfold untouched_by_close in Hkeep. injection Hkeep as Hee Hdev Hif Hep Hhid Hps Hjs Hts _.
  repeat split; try done.
  intros Hsome w2. apply step_close_stops_the_poll. by rewrite Hep.
Qed.

(** X15. A [close()] whose turn is over before the last timer of the
    startup animation fires, the callback of [iface.release] included,
    does not cancel that timer.  When the timer fires and no ready listener
    throws, whatever [close] released, [isReady] is set again, the ready
    event is published and the promise of readiness is resolved; in the
    state that the timer leaves, [ensureReady] answers that the session is
    ready and starts no new setup. *)
Theorem close_does_not_cancel_the_startup
    (w w2 : World) (s : Session) (due : nat) (p : PromiseId)
    (rest : list (nat * TimerAction)) (ks : list Reaction) :
  timers s = (due, BecomeReady p) :: rest →
  Forall (λ t, due ≤ t.1) rest →
  promises s !! p = Some {| outcome := None; reactions := ks |} →
  Forall (λ l, cb_run l tt = None) (ready_listeners (ee s)) →
  let closed := step w CallClose s in
  let s' := step w2 Timer closed in
  isReady s' = true ∧
  outcome_of s' p = Some (Return tt) ∧
  trace s' = trace closed ++ FxEmitReady :: map deliver_ready (ready_listeners (ee s)) ∧
  (∀ w3, ensureReady w3 s' = (Return AlreadyReady, s')).
Proof.
  intros Hts Hle Hp Hquiet closed s'.
  pose proof (step_close_keeps_the_rest w s) as Hkeep. fold closed in Hkeep.
  unfold untouched_by_close in Hkeep. injection Hkeep as Hee _ _ _ _ Hps _ Hts' _.
  assert (s' = set_jobs (jobs closed ++ map (λ k, React k (Return tt)) ks)
                 (set_promises (<[p := resolved]> (promises closed))
                    (set_trace (trace closed ++ FxEmitReady
                                  :: map deliver_ready (ready_listeners (ee closed)))
                       (set_isReady true
                          (set_now (now closed `max` due) (set_timers rest closed))))))
    as Hs'.
  { apply step_timer_ready; [congruence|done|congruence|congruence]. }
  assert (isReady s' = true) as Hready by (rewrite Hs'; by destruct closed).
  split; [done|]. split; [|split].
  - unfold outcome_of. rewrite Hs'.
    replace (promises (set_jobs _ _)) with (<[p := resolved]> (promises closed))
      by (by destruct closed).
    rewrite list_lookup_insert_eq; [done|]. rewrite Hps. by eapply lookup_lt_Some.
  - rewrite Hs', <- Hee. by destruct closed.
  - intros w3. by rewrite ensureReady_eq, Hready.
Qed.

Lemma close_does_not_cancel_the_startup_witness :
  let s := run ([ (plugged, CallOnPress (listening 1)); (plugged, Microtask) ]
                ++ replicate 6 (plugged, Timer)) Buzzer in
  let closed := step plugged CallClose s in
  let s' := step plugged Timer closed in
  isReady s' = true ∧
  outcome_of s' 0 = Some (Return tt) ∧
  trace s' = trace closed ++ FxEmitReady :: map deliver_ready (ready_listeners (ee s)) ∧
  (∀ w3, ensureReady w3 s' = (Return AlreadyReady, s')).
Proof.
  intros s.
  apply (close_does_not_cancel_the_startup plugged plugged s 1850 0 [] [CatchEmitError]).
  - vm_compute. reflexivity.
  - constructor.
  - vm_compute. reflexivity.
  - vm_compute. constructor.
Defined.

(** In that run the dongle is released when the session turns ready. *)
Example ready_after_close :
  let s' := run ([ (plugged, CallOnPress (listening 1)); (plugged, Microtask) ]
                 ++ replicate 6 (plugged, Timer)
                 ++ [ (plugged, CallClose); (plugged, Timer) ]) Buzzer in
  isReady s' = true ∧ readyPromise s' = None ∧ polling s' = false ∧
  usb_calls (trace s') =
    [ FindByIds; Open; Interface0; DetachKernelDriver; Claim; HidOpen; StartPoll;
      StopPoll; Release; DeviceClose; HidClose ].
Proof. vm_compute. done. Qed.

(** ** The stored states *)

Lemma handle_event_keeps_states (w : World) (ev : Event) :
  (∀ data, ev ≠ Report data) → stable (keep currentStates) (handle_event w ev).
Proof.
  intros Hev. destruct ev; unfold handle_event;
    autounfold with ops api; unfold new_promise, chain, settle;
    try stable_with keep_leaf.
  by destruct (Hev data).
Qed.

Lemma emit_button_keeps_states (eventType : string) (ev : RawEvent) :
  stable (keep currentStates) (emit_button eventType ev).
Proof. stable_with keep_leaf. Qed.

Lemma set_in_range (cs : Js.BoolArray) (i : nat) (v : bool) :
  i < length cs → Js.set cs i v = <[i := Some v]> cs.
Proof. intros Hi. unfold Js.set. by destruct (decide (i < length cs)). Qed.

Lemma forEach_update_states_defined (prev : Js.BoolArray) (bits : Z) (bs : list Button) :
  ∀ (i : nat) (s : Session),
    i + length bs ≤ length BUTTONS_DATA →
    states_defined s →
    states_defined (forEach_from (update_button prev bits) bs i s).2.
Proof.
  induction bs as [|b bs IH]; intros i s Hi Hs; [done|].
  assert (i + S (length bs) ≤ 20) as Hi' by exact Hi. clear Hi.
  assert (∀ s', states_defined s' →
                states_defined (forEach_from (update_button prev bits) bs (S i) s').2) as IH'.
  { intros s'. apply IH. change (length BUTTONS_DATA) with 20. lia. }
  clear IH.
  simpl. unfold bind at 1. rewrite update_button_eq. cbv zeta.
  set (s1 := set_currentStates _ s).
  assert (states_defined s1) as Hs1.
  { destruct Hs as [Hlen Hall]. change (length BUTTONS_DATA) with 20 in Hlen.
    subst s1. unfold states_defined.
    replace (currentStates (set_currentStates _ s))
      with (Js.set (currentStates s) i (isPressedNow bits b)) by (by destruct s).
    rewrite set_in_range by lia. rewrite length_insert. split; [done|].
    apply Forall_insert; [done|by eexists]. }
  destruct (Js.strict_neq _ _).
  - pose proof (emit_button_keeps_states
                  (eventType_of (isPressedNow bits b))
                  {| source := b; type := eventType_of (isPressedNow bits b) |} s1) as Hk.
    unfold keep in Hk.
    destruct (emit_button _ _ s1) as [[[]|e] s2]; simpl in Hk |- *.
    + apply IH'. unfold states_defined. by rewrite Hk.
    + unfold states_defined. by rewrite Hk.
  - by apply IH'.
Qed.

Lemma handle_event_states_defined (w : World) (ev : Event) :
  stable (preserving states_defined) (handle_event w ev).
Proof.
  destruct ev as [| | | | | | | | | |data].
  1-10: eapply stable_weaken; [|by apply handle_event_keeps_states];
    intros s s' Hk Hs; unfold keep, states_defined in *; by rewrite Hk.
  intros s Hs. unfold handle_event, bind at 1, gets. simpl.
  destruct (polling s); [|done].
  unfold on_data. destruct (decide (length data < 5)); [done|].
  unfold bind at 1, gets. simpl. destruct (pressedBits data); [|done].
  by apply forEach_update_states_defined.
Qed.

(** X16. Whatever happens to a session, one state is stored for each of
    the 20 buttons of the registry, and each of them is defined: the update
    step never lengthens the array and never reads [undefined] as the
    previous state of a button. *)
Theorem stored_states_stay_defined (evs : list (World * Event)) :
  let s := run evs Buzzer in
  length (currentStates s) = 20 ∧
  ∀ i, i < 20 → ∃ state : bool, Js.get (currentStates s) i = Some state.
Proof.
  intros s.
  assert (states_defined s) as [Hlen Hall].
  { subst s. assert (states_defined Buzzer) as H0.
    { split; [done|]. apply Forall_replicate. by eexists. }
    revert H0. generalize Buzzer.
    induction evs as [|[w ev] evs IH]; intros s0 H0; [done|].
    simpl. apply IH. unfold step.
    pose proof (handle_event_states_defined w ev s0 H0) as H1.
    destruct (handle_event w ev s0) as [[[]|e] s1]; simpl in H1; [done|].
    by destruct s1. }
  split; [done|]. intros i Hi. unfold Js.get.
  destruct (currentStates s !! i) as [o|] eqn:Hi'.
  - rewrite Forall_forall in Hall.
    destruct (Hall o) as [state ->]; [by eapply list_elem_of_lookup_2|].
    by exists state.
  - apply lookup_ge_None in Hi'. rewrite Hlen in Hi'. simpl in Hi'. lia.
Qed.

(** ** Presses and releases *)

Lemma changes_of_app (b : Button) (t1 t2 : list Effect) :
  changes_of b (t1 ++ t2) = changes_of b t1 ++ changes_of b t2.
Proof. apply omap_app. Qed.

Lemma changes_of_none (b : Button) (tr : list Effect) :
  Forall no_button_event tr → changes_of b tr = [].
Proof.
  induction 1 as [|fx tr Hfx _ IH]; [done|].
  destruct fx; try done; exact IH.
Qed.

Lemma changes_of_deliveries (b : Button) (t : string) (ev : RawEvent)
    (ls : list ButtonListener) :
  changes_of b (map (deliver_button t ev) ls) = [].
Proof. apply changes_of_none, Forall_forall. intros fx Hfx.
  by apply list_elem_of_fmap in Hfx as (l & -> & _). Qed.

Lemma changes_of_button (b : Button) (t : string) (ev : RawEvent) (tr : list Effect) :
  changes_of b (FxEmitButton t ev :: tr) =
  if decide (source ev = b)
  then bool_decide (t = EVENTS.PRESS) :: changes_of b tr
  else changes_of b tr.
Proof. unfold changes_of. simpl. by destruct (decide (source ev = b)). Qed.

Lemma replay_app (state : bool) (c1 c2 : list bool) :
  replay state (c1 ++ c2) = replay state c1 ≫= λ state', replay state' c2.
Proof.
  revert state. induction c1 as [|c c1 IH]; intros state; simpl; [done|].
  destruct (Bool.eqb c state); [done|apply IH].
Qed.

Lemma registry_NoDup : NoDup BUTTONS_DATA.
Proof. apply (bool_decide_unpack (NoDup BUTTONS_DATA)). by vm_compute. Qed.

Lemma consistent_quiet (s s' : Session) :
  currentStates s' = currentStates s →
  logging no_button_event s s' →
  consistent s → consistent s'.
Proof.
  intros Hcs (tr & Htr & Hnone) Hs i b Hb.
  destruct (Hs i b Hb) as (state & Hi & Hre). exists state.
  rewrite Hcs, Htr, changes_of_app, (changes_of_none b tr Hnone), app_nil_r. done.
Qed.

Lemma eventType_of_press (now_ : bool) :
  bool_decide (eventType_of now_ = EVENTS.PRESS) = now_.
Proof. by destruct now_. Qed.

Lemma forEach_update_consistent (prev : Js.BoolArray) (bits : Z) (bs : list Button) :
  ∀ (i : nat) (s : Session),
    drop i BUTTONS_DATA = bs →
    consistent s →
    (∀ j, i ≤ j → currentStates s !! j = prev !! j) →
    consistent (forEach_from (update_button prev bits) bs i s).2.
Proof.
  induction bs as [|b bs IH]; intros i s Hdrop Hs Hsnap; [done|].
  assert (BUTTONS_DATA !! i = Some b) as Hb.
  { rewrite <- (Nat.add_0_r i), <- lookup_drop, Hdrop. done. }
  assert (drop (S i) BUTTONS_DATA = bs) as Hdrop'.
  { replace (S i) with (i + 1) by lia. by rewrite <- drop_drop, Hdrop. }
  destruct (Hs i b Hb) as (st & Hi & Hre).
  simpl. unfold bind at 1. rewrite update_button_eq. cbv zeta.
  set (now_ := isPressedNow bits b).
  assert (Js.get prev i = Some st) as ->.
  { unfold Js.get. rewrite <- Hsnap by lia. by rewrite Hi. }
  unfold Js.strict_neq.
  set (s1 := set_currentStates (Js.set (currentStates s) i now_) s).
  assert (i < length (currentStates s)) as Hlt by (by eapply lookup_lt_Some).
  assert (currentStates s1 = <[i := Some now_]> (currentStates s)) as Hcs1.
  { subst s1. rewrite <- set_in_range by done. by destruct s. }
  assert (trace s1 = trace s) as Htr1 by (by destruct s).
  destruct (Bool.eqb now_ st) eqn:Heq; simpl.
  - apply Bool.eqb_prop in Heq. apply IH; [done| |].
    + refine (consistent_quiet s s1 _ _ Hs); [|exists []; by rewrite app_nil_r].
      rewrite Hcs1. apply list_insert_id. by rewrite Hi, Heq.
    + intros j Hj. rewrite Hcs1, list_lookup_insert_ne by lia. apply Hsnap. lia.
  - rewrite emit_button_eq. cbv zeta.
    set (t := eventType_of now_). set (ev := {| source := b; type := t |}).
    set (delivered := (reached (run_button ev) (button_listeners t (ee s1))).1).
    set (s2 := set_trace (trace s1 ++ FxEmitButton t ev
                            :: map (deliver_button t ev) delivered) s1).
    assert (currentStates s2 = <[i := Some now_]> (currentStates s)) as Hcs2
      by (rewrite <- Hcs1; by destruct s1).
    assert (trace s2 = trace s ++ FxEmitButton t ev :: map (deliver_button t ev) delivered)
      as Htr2 by (rewrite <- Htr1; by destruct s1).
    assert (consistent s2) as Hs2.
    { intros j b' Hb'. rewrite Hcs2, Htr2, changes_of_app.
      rewrite changes_of_button, changes_of_deliveries. cbn [source ev].
      destruct (decide (j = i)) as [->|Hne].
      - assert (b' = b) as -> by congruence. exists now_.
        rewrite list_lookup_insert_eq by done. split; [done|].
        rewrite decide_True by done.
        rewrite replay_app, Hre. subst t. rewrite eventType_of_press.
        simpl. by rewrite Heq.
      - destruct (Hs j b' Hb') as (st' & Hj & Hre'). exists st'.
        rewrite list_lookup_insert_ne by done. split; [done|].
        assert (b ≠ b') as Hbb.
        { intros <-. apply Hne. by eapply NoDup_lookup; [apply registry_NoDup|..]. }
        rewrite decide_False by done. by rewrite app_nil_r. }
    destruct (ended _) as [[]|e]; simpl; [|done].
    apply IH; [done..|].
    intros j Hj. rewrite Hcs2, list_lookup_insert_ne by lia. apply Hsnap. lia.
Qed.

Lemma handle_event_no_button_event (w : World) (ev : Event) :
  (∀ data, ev ≠ Report data) → stable (logging no_button_event) (handle_event w ev).
Proof.
  intros Hev. destruct ev; unfold handle_event;
    autounfold with ops api; try stable_with logging_leaf.
  by destruct (Hev data).
Qed.

Lemma handle_event_consistent (w : World) (ev : Event) :
  stable (preserving consistent) (handle_event w ev).
Proof.
  destruct ev as [| | | | | | | | | |data].
  1-10: intros s Hs;
    lazymatch goal with
    | |- consistent (handle_event ?w ?ev s).2 =>
        refine (consistent_quiet s _ (handle_event_keeps_states w ev _ s)
                  (handle_event_no_button_event w ev _ s) Hs);
        intros ?; discriminate
    end.
  intros s Hs. unfold handle_event, bind at 1, gets. simpl.
  destruct (polling s); [|done].
  unfold on_data. destruct (decide (length data < 5)); [done|].
  unfold bind at 1, gets. simpl. destruct (pressedBits data); [|done].
  by apply forEach_update_consistent.
Qed.

Lemma run_consistent (evs : list (World * Event)) (s : Session) :
  consistent s → consistent (run evs s).
Proof.
  revert s. induction evs as [|[w ev] evs IH]; intros s Hs; [done|].
  simpl. apply IH. unfold step.
  pose proof (handle_event_consistent w ev s Hs) as Hs'.
  destruct (handle_event w ev s) as [[[]|e] s']; simpl in Hs'; [done|].
  refine (consistent_quiet s' _ _ _ Hs'); [by destruct s'|].
  exists [FxUncaught e]. split; [by destruct s'|by repeat constructor].
Qed.

Lemma consistent_Buzzer : consistent Buzzer.
Proof.
  intros i b Hb. exists false. split; [|done].
  apply lookup_replicate. split; [done|]. by eapply lookup_lt_Some.
Qed.

(** X17. For each button, the events published on a session alternate:
    the first is a press, each press is followed by a release and each
    release by a press; and the state stored for the button is pressed
    exactly when the last event published for it was a press.  This holds
    at every point of every run, also after a listener has thrown in the
    middle of an update and after [close]. *)
Theorem button_events_alternate (evs : list (World * Event)) (i : nat) (b : Button) :
  BUTTONS_DATA !! i = Some b →
  let s := run evs Buzzer in
  ∃ state,
    Js.get (currentStates s) i = Some state ∧
    replay false (changes_of b (trace s)) = Some state.
Proof.
  intros Hb s.
  destruct (run_consistent evs Buzzer consistent_Buzzer i b Hb) as (state & Hi & Hre).
  exists state. split; [|done]. unfold Js.get. fold s in Hi. by rewrite Hi.
Qed.

Lemma button_events_alternate_witness :
  let s := run [ (plugged, CallOnPress (listening 1)); (plugged, Microtask);
                 (plugged, Report [x00; x00; x01; x00; x00]);
                 (plugged, Report [x00; x00; x00; x00; x00]);
                 (plugged, Report [x00; x00; x11; x00; x00]) ] Buzzer in
  ∃ state,
    Js.get (currentStates s) 0 = Some state ∧
    replay false
      (changes_of {| name := "C1_RED"; color := "red"; controller := 1; button := 0;
                     bit := 1 |} (trace s)) = Some state.
Proof.
  apply (button_events_alternate
           [ (plugged, CallOnPress (listening 1)); (plugged, Microtask);
             (plugged, Report [x00; x00; x01; x00; x00]);
             (plugged, Report [x00; x00; x00; x00; x00]);
             (plugged, Report [x00; x00; x11; x00; x00]) ] 0).
  reflexivity.
Defined.

(** In that run the red button of the first controller was pressed,
    released and pressed again. *)
Example red_pressed_released_pressed :
  let s := run [ (plugged, CallOnPress (listening 1)); (plugged, Microtask);
                 (plugged, Report [x00; x00; x01; x00; x00]);
                 (plugged, Report [x00; x00; x00; x00; x00]);
                 (plugged, Report [x00; x00; x11; x00; x00]) ] Buzzer in
  changes_of {| name := "C1_RED"; color := "red"; controller := 1; button := 0;
                bit := 1 |} (trace s) = [true; false; true] ∧
  Js.get (currentStates s) 0 = Some true.
Proof. vm_compute. done. Qed.

(** ** Fields and stored states *)

Lemma land_pow2 (x k : Z) :
  (0 ≤ k)%Z → Z.land x (2 ^ k) = if Z.testbit x k then (2 ^ k)%Z else 0%Z.
Proof.
  intros Hk. apply Z.bits_inj'. intros n Hn.
  rewrite Z.land_spec, Z.pow2_bits_eqb by done.
  destruct (Z.eqb_spec k n) as [->|Hne].
  - destruct (Z.testbit x n); simpl; [by rewrite Z.pow2_bits_true|by rewrite Z.bits_0].
  - rewrite andb_false_r.
    destruct (Z.testbit x k); [by rewrite Z.pow2_bits_false|by rewrite Z.bits_0].
Qed.

Lemma pressed_mask (field : Z) (b : Button) :
  (∃ k, (0 ≤ k)%Z ∧ bit b = (2 ^ k)%Z) →
  (if pressed field b then bit b else 0%Z) = Z.land field (bit b).
Proof.
  unfold pressed. intros (k & Hk & ->). rewrite land_pow2 by done.
  destruct (Z.testbit field k); [|done].
  assert (0 < 2 ^ k)%Z by (by apply Z.pow_pos_nonneg).
  destruct (Z.eqb_spec (2 ^ k) 0); [lia|done].
Qed.

Lemma registry_single_bits :
  Forall (λ b, ∃ k, (0 ≤ k)%Z ∧ bit b = (2 ^ k)%Z) BUTTONS_DATA.
Proof.
  unfold BUTTONS_DATA.
  repeat (constructor;
            [lazymatch goal with
             | |- ∃ k, _ ∧ bit ?b = _ => exists (Z.log2 (bit b)); by vm_compute
             end|]).
  constructor.
Qed.

Lemma lor_of_lands (field : Z) (masks : list Z) :
  foldr Z.lor 0%Z (Z.land field <$> masks) = Z.land field (foldr Z.lor 0%Z masks).
Proof.
  induction masks as [|m masks IH]; [simpl; by rewrite Z.land_0_r|].
  rewrite fmap_cons. cbn [foldr]. by rewrite IH, Z.land_lor_distr_r.
Qed.

Lemma states_after_update (field : Z) (s s' : Session) (i : nat) (b : Button) :
  (0 ≤ field < 2 ^ 24)%Z →
  update field s = (Return tt, s') →
  BUTTONS_DATA !! i = Some b →
  Js.get (currentStates s') i = Some (pressed field b).
Proof.
  intros Hf Hrun Hb. destruct (update_spec field s s' Hf Hrun) as (tr & -> & _).
  rewrite updated_states. unfold Js.get. by rewrite (updated_lookup field _ i b Hb).
Qed.

(** X18. After an update the stored states stand for the low 20 bits of
    the field, and for nothing else: the masks of the buttons stored as
    pressed add up to the field with its bits 20 to 23 cleared.  Reports
    whose fields agree on the low 20 bits therefore store the same
    states, and the high half of byte 4 is ignored. *)
Theorem stored_states_encode_the_field (field : Z) (s s' : Session) :
  (0 ≤ field < 2 ^ 24)%Z →
  update field s = (Return tt, s') →
  field_of_states (currentStates s') = Z.land field 0xFFFFF.
Proof.
  intros Hf Hrun. unfold field_of_states.
  rewrite (imap_ext _ (const (Z.land field ∘ bit))).
  - by rewrite imap_const, list_fmap_compose, lor_of_lands.
  - intros i b Hb. unfold const, compose.
    rewrite (states_after_update field s s' i b Hf Hrun Hb).
    pose proof registry_single_bits as Hbits. rewrite Forall_forall in Hbits.
    rewrite <- pressed_mask by (by eapply Hbits, list_elem_of_lookup_2).
    by destruct (pressed field b).
Qed.

Lemma stored_states_encode_the_field_witness :
  field_of_states (currentStates (update 0x100011 ready_session).2)
  = Z.land 0x100011 0xFFFFF.
Proof.
  apply (stored_states_encode_the_field 0x100011 ready_session).
  - lia.
  - vm_compute. reflexivity.
Defined.

(** X19. What a report publishes is the difference to the report before
    it, as long as no listener ends an update: after an update with field
    [f1] that ran to its end, an update with field [f2] that runs to its
    end publishes, in registry order, one event for each button whose bit
    differs between [f1] and [f2], a press where the bit is set in [f2]
    and a release where it is clear, and nothing for the other buttons. *)
Theorem consecutive_reports_publish_the_difference
    (f1 f2 : Z) (s s1 s2 : Session) :
  (0 ≤ f1 < 2 ^ 24)%Z →
  (0 ≤ f2 < 2 ^ 24)%Z →
  update f1 s = (Return tt, s1) →
  update f2 s1 = (Return tt, s2) →
  ∃ tr,
    trace s2 = trace s1 ++ tr ∧
    emitted tr =
      concat (map (λ b, if Bool.eqb (pressed f2 b) (pressed f1 b) then []
                        else [change_event (pressed f2 b) b]) BUTTONS_DATA).
Proof.
  intros Hf1 Hf2 Hrun1 Hrun2.
  destruct (update_spec f2 s1 s2 Hf2 Hrun2) as (tr & -> & _ & Hem).
  exists tr. rewrite updated_trace. split; [done|].
  rewrite Hem. unfold transitions. f_equal.
  rewrite <- (imap_const (λ b, if Bool.eqb (pressed f2 b) (pressed f1 b) then []
                              else [change_event (pressed f2 b) b])).
  apply imap_ext. intros i b Hb. unfold const.
  rewrite (states_after_update f1 s s1 i b Hf1 Hrun1 Hb).
  unfold transition_of, Js.strict_neq.
  by destruct (Bool.eqb (pressed f2 b) (pressed f1 b)).
Qed.

Lemma consecutive_reports_publish_the_difference_witness :
  let s1 := (update 0x000011 ready_session).2 in
  let s2 := (update 0x000110 s1).2 in
  ∃ tr,
    trace s2 = trace s1 ++ tr ∧
    emitted tr =
      concat (map (λ b, if Bool.eqb (pressed 0x000110 b) (pressed 0x000011 b) then []
                        else [change_event (pressed 0x000110 b) b]) BUTTONS_DATA).
Proof.
  intros s1 s2.
  apply (consecutive_reports_publish_the_difference 0x000011 0x000110 ready_session s1 s2).
  - lia.
  - lia.
  - vm_compute. reflexivity.
  - vm_compute. reflexivity.
Defined.

(** ** The ready event *)

Lemma pending_ready_app (t1 t2 : list (nat * TimerAction)) :
  pending_ready (t1 ++ t2) = pending_ready t1 + pending_ready t2.
Proof. induction t1 as [|[due []] t1 IH]; simpl; lia. Qed.

Lemma pending_ready_delete (ts : list (nat * TimerAction)) (i due : nat)
    (action : TimerAction) :
  ts !! i = Some (due, action) →
  pending_ready ts =
  pending_ready (delete i ts) + match action with BecomeReady _ => 1 | Leds _ => 0 end.
Proof.
  revert i. induction ts as [|[d a] ts IH]; intros i Hi; [done|].
  destruct i as [|i]; simpl in *.
  - injection Hi as -> ->. destruct action; lia.
  - rewrite (IH i Hi). destruct a; lia.
Qed.

Lemma setTimeout_budget (action : TimerAction) (delay : nat) :
  stable (preserving readiness_budget) (setTimeout action delay).
Proof.
  intros s Hs. rewrite setTimeout_eq. unfold readiness_budget, with_timers in *.
  destruct s; simpl in *. rewrite !count_app, pending_ready_app. simpl.
  destruct action; simpl; lia.
Qed.
#[local] Hint Resolve setTimeout_budget : footprint.
#[local] Hint Extern 1 (stable (preserving readiness_budget)
                         (bind (log (FxSetTimeout _ _)) _)) =>
  apply setTimeout_budget : footprint.

Lemma budget_quiet (s s' : Session) :
  timers s' = timers s →
  (∃ tr, trace s' = trace s ++ tr ∧
         Forall (λ fx, is_ready_event fx = false) tr) →
  readiness_budget s → readiness_budget s'.
Proof.
  intros Hts (tr & Htr & Hnone). unfold readiness_budget.
  rewrite Hts, Htr, !count_app, (count_none is_ready_event tr Hnone). lia.
Qed.

(** An effect other than the ready event, or an assignment that leaves
    timers and trace alone. *)
Ltac budget_leaf :=
  idtac;
  lazymatch goal with
  | |- stable (preserving readiness_budget) (log _) =>
      let s := fresh "s" in
      intros s ?; apply (budget_quiet s); [by destruct s| |done];
      eexists; split; [by destruct s|by repeat constructor]
  | |- stable (preserving readiness_budget) (modify _) =>
      rule @stable_modify; intros [] Hs; exact Hs
  end.

Lemma settle_budget (p : PromiseId) (r : Result unit) :
  stable (preserving readiness_budget) (settle p r).
Proof. unfold settle. stable_with budget_leaf. Qed.

Lemma chain_budget (on : Awaited) (k : Reaction) :
  stable (preserving readiness_budget) (chain on k).
Proof. unfold chain. stable_with budget_leaf. Qed.

Lemma new_promise_budget : stable (preserving readiness_budget) new_promise.
Proof. unfold new_promise. stable_with budget_leaf. Qed.
#[local] Hint Resolve settle_budget chain_budget new_promise_budget : footprint.

Lemma count_ready_deliveries (c : Effect → bool) (ls : list (Callback unit)) :
  (∀ cb, c (FxDeliverReady cb) = false) → count c (map deliver_ready ls) = 0.
Proof.
  intros Hc. apply count_none, Forall_forall. intros fx Hfx.
  apply list_elem_of_fmap in Hfx as (l & -> & _). apply Hc.
Qed.

Lemma privateSetLeds_budget (w : World) (p1 p2 p3 p4 : bool) :
  stable (preserving readiness_budget) (privateSetLeds w p1 p2 p3 p4).
Proof. stable_with budget_leaf. Qed.

Lemma run_timer_budget (w : World) (ts : list (nat * TimerAction)) (i due : nat)
    (action : TimerAction) (s : Session) :
  timers s = ts →
  ts !! i = Some (due, action) →
  readiness_budget s →
  readiness_budget
    (run_timer w action (set_now (now s `max` due) (set_timers (delete i ts) s))).2.
Proof.
  intros Hts Hi Hs.
  pose proof (pending_ready_delete ts i due action Hi) as Hdel.
  set (ts' := delete i ts) in *. clearbody ts'. clear Hi.
  set (s1 := set_now _ _).
  destruct action as [on|p]; simpl.
  - apply privateSetLeds_budget. unfold readiness_budget in *.
    subst s1. destruct s; simpl in *; subst. lia.
  - unfold bind at 1, modify. simpl. unfold bind at 1. rewrite emit_ready_eq.
    set (s2 := set_trace _ _).
    assert (readiness_budget s2) as Hs2.
    { unfold readiness_budget in *. subst s2 s1. destruct s; simpl in *; subst.
      rewrite !count_app. simpl. rewrite !count_ready_deliveries by done. lia. }
    destruct (ended _) as [[]|e]; simpl; [|done].
    by apply settle_budget.
Qed.

Lemma handle_event_budget (w : World) (ev : Event) :
  stable (preserving readiness_budget) (handle_event w ev).
Proof.
  destruct ev; unfold handle_event.
  1-9, 11: autounfold with ops api; stable_with budget_leaf.
  intros s Hs. unfold bind at 1, gets. simpl.
  destruct (earliest (timers s)) as [[i [due action]]|] eqn:He; [|done].
  apply earliest_elem in He.
  unfold bind, modify. simpl.
  replace (set_now _ _) with (set_now (now s `max` due) (set_timers (delete i (timers s)) s))
    by (by destruct s).
  by apply (run_timer_budget w (timers s) i due action s).
Qed.

Lemma run_budget (evs : list (World * Event)) (s : Session) :
  readiness_budget s → readiness_budget (run evs s).
Proof.
  revert s. induction evs as [|[w ev] evs IH]; intros s Hs; [done|].
  simpl. apply IH. unfold step.
  pose proof (handle_event_budget w ev s Hs) as Hs'.
  destruct (handle_event w ev s) as [[[]|e] s']; simpl in Hs'; [done|].
  apply (budget_quiet s'); [by destruct s'| |done].
  exists [FxUncaught e]. split; [by destruct s'|by repeat constructor].
Qed.

(** X20. The ready event is published at most once for each startup
    animation that was registered, in every run from a fresh session; as
    long as [close] is not called, it is published at most once at
    all. *)
Theorem ready_event_is_published_once (evs : list (World * Event)) :
  let s := run evs Buzzer in
  count is_ready_event (trace s) ≤ count is_animation (trace s) ∧
  (Forall (λ we, we.2 ≠ CallClose) evs → count is_ready_event (trace s) ≤ 1).
Proof.
  intros s.
  assert (readiness_budget s) as Hbudget.
  { apply run_budget. unfold readiness_budget. simpl. lia. }
  unfold readiness_budget in Hbudget. split; [lia|].
  intros Hevs.
  destruct (run_single_setup evs Buzzer Hevs single_setup_Buzzer)
    as (Hn & _ & _ & _ & _ & _ & _ & Ha & _).
  fold s in Hn, Ha. lia.
Qed.

(** A session that is closed and set up again publishes it twice. *)
Example ready_twice_after_close :
  let s := run ([ (plugged, CallOnPress (listening 1)); (plugged, Microtask) ]
                ++ replicate 7 (plugged, Timer)
                ++ [ (plugged, CallClose); (plugged, CallOnPress (listening 2));
                     (plugged, Microtask); (plugged, Microtask) ]
                ++ replicate 7 (plugged, Timer)) Buzzer in
  count is_ready_event (trace s) = 2 ∧ count is_animation (trace s) = 2.
Proof. vm_compute. done. Qed.

(** ** Promises that nothing settles *)

Lemma abandoned_quiet (p : PromiseId) (s s' : Session) :
  promises s' = promises s → jobs s' = jobs s → timers s' = timers s →
  abandoned p s → abandoned p s'.
Proof.
  intros Hps Hjs Hts. unfold abandoned, outcome_of. by rewrite Hps, Hjs, Hts.
Qed.

Lemma enqueue_react_abandoned (p : PromiseId) (k : Reaction) (r : Result unit) :
  stable (preserving (abandoned p)) (enqueue (React k r)).
Proof.
  intros s (Hlt & Hout & Hjobs & Hts). unfold abandoned, outcome_of in *.
  destruct s; simpl in *. repeat split; try done.
  apply Forall_app. split; [done|]. by repeat constructor.
Qed.

Lemma enqueue_reactions_abandoned (p : PromiseId) (ks : list Reaction) (r : Result unit) :
  stable (preserving (abandoned p)) (enqueue_reactions ks r).
Proof.
  apply (stable_enqueue_reactions _). intros k. apply enqueue_react_abandoned.
Qed.

Lemma settle_abandoned (p q : PromiseId) (r : Result unit) :
  q ≠ p → stable (preserving (abandoned p)) (settle q r).
Proof.
  intros Hq s Hs. unfold settle, bind at 1, gets. simpl.
  destruct (promises s !! q) as [[[o|] ks]|] eqn:Hq'; try done.
  unfold bind, modify. simpl. apply enqueue_reactions_abandoned.
  destruct Hs as (Hlt & Hout & Hjobs & Hts). unfold abandoned, outcome_of in *.
  destruct s; simpl in *. rewrite length_insert, list_lookup_insert_ne by done.
  done.
Qed.

Lemma chain_abandoned (p : PromiseId) (on : Awaited) (k : Reaction) :
  stable (preserving (abandoned p)) (chain on k).
Proof.
  destruct on as [|q]; [apply enqueue_react_abandoned|].
  intros s Hs. unfold chain, bind at 1, gets. simpl.
  destruct (promises s !! q) as [[[o|] ks]|] eqn:Hq; try done.
  - by apply enqueue_react_abandoned.
  - unfold modify. simpl.
    destruct Hs as (Hlt & Hout & Hjobs & Hts). unfold abandoned, outcome_of in *.
    destruct s; simpl in *. rewrite length_insert. repeat split; try done.
    destruct (decide (q = p)) as [->|Hne].
    + rewrite list_lookup_insert_eq by done. done.
    + by rewrite list_lookup_insert_ne.
Qed.

Lemma setTimeout_abandoned (p : PromiseId) (action : TimerAction) (delay : nat) :
  action ≠ BecomeReady p → stable (preserving (abandoned p)) (setTimeout action delay).
Proof.
  intros Ha s (Hlt & Hout & Hjobs & Hts). rewrite setTimeout_eq.
  unfold abandoned, outcome_of, with_timers in *.
  destruct s; simpl in *. repeat split; try done.
  apply Forall_app. split; [done|]. by repeat constructor.
Qed.

(** An effect, or an assignment to a variable other than [promises],
    [jobs] and [timers]. *)
Ltac abandoned_leaf :=
  idtac;
  lazymatch goal with
  | |- stable (preserving (abandoned _)) (log _) =>
      let s := fresh "s" in
      intros s ?; apply (abandoned_quiet _ s); by destruct s
  | |- stable (preserving (abandoned _)) (modify _) =>
      rule @stable_modify; intros [] Hs; exact Hs
  | |- stable (preserving (abandoned _)) (enqueue (React _ _)) =>
      apply enqueue_react_abandoned
  | |- stable (preserving (abandoned _)) (chain _ _) =>
      apply chain_abandoned
  | |- stable (preserving (abandoned _)) (setTimeout (Leds _) _) =>
      apply setTimeout_abandoned; discriminate
  end.

Lemma openAndClaim_abandoned (p : PromiseId) (w : World) :
  stable (preserving (abandoned p)) (openAndClaim w).
Proof. unfold openAndClaim. stable_with abandoned_leaf. Qed.

Lemma await_ready_abandoned (p : PromiseId) (w : World) (api : string) (k : Reaction) :
  stable (preserving (abandoned p)) (await_ready w api k).
Proof.
  intros s Hs. unfold await_ready, bind at 1. rewrite ensureReady_eq.
  assert (∀ on s0, abandoned p s0 →
            abandoned p ((log (FxAwait api on) ;; chain on k) s0).2) as Hrest.
  { intros on.
    change (stable (preserving (abandoned p)) (log (FxAwait api on) ;; chain on k)).
    rule @stable_bind; [abandoned_leaf|intros _; apply chain_abandoned]. }
  destruct (isReady s); [by apply Hrest|].
  destruct (readyPromise s); [by apply Hrest|].
  cbv zeta. apply Hrest.
  pose proof (openAndClaim_abandoned p w s Hs) as (Hlt & Hout & Hjobs & Hts).
  destruct (openAndClaim w s) as [opened s1]. simpl in *.
  unfold abandoned, outcome_of in *. destruct s1; simpl in *.
  rewrite length_app, lookup_app_l by done. repeat split; try done; [lia|].
  apply Forall_app. split; [done|]. repeat constructor. lia.
Qed.

#[local] Hint Resolve await_ready_abandoned : footprint.

Lemma resume_setup_abandoned (p q : PromiseId) (w : World) (opened : Result unit) :
  q ≠ p → stable (preserving (abandoned p)) (resume_setup w q opened).
Proof.
  intros Hq. unfold resume_setup.
  rule @stable_bind; [|intros [[]|e]; [rule @stable_ret|by apply settle_abandoned]].
  rule @stable_attempt. rule @stable_try_catch; [|intros e; stable_with abandoned_leaf].
  rule @stable_bind; [stable_with abandoned_leaf|intros _].
  unfold startup_animation. cbv zeta.
  rule @stable_bind; [rule @stable_blink; intros on d; abandoned_leaf|intros delay].
  apply setTimeout_abandoned. congruence.
Qed.

Lemma run_timer_abandoned (p : PromiseId) (w : World) (action : TimerAction) :
  action ≠ BecomeReady p → stable (preserving (abandoned p)) (run_timer w action).
Proof.
  intros Ha. destruct action as [on|q]; simpl; [stable_with abandoned_leaf|].
  rule @stable_bind; [abandoned_leaf|intros _].
  rule @stable_bind; [stable_with abandoned_leaf|intros _].
  apply settle_abandoned. congruence.
Qed.

Lemma handle_event_abandoned (p : PromiseId) (w : World) (ev : Event) :
  stable (preserving (abandoned p)) (handle_event w ev).
Proof.
  destruct ev; unfold handle_event.
  1-8, 11: unfold close; stable_with abandoned_leaf.
  - (* a microtask *)
    intros s Hs. unfold bind at 1, gets. simpl.
    destruct (jobs s) as [|[q opened|k settled] queue] eqn:Hjobs; [done| |].
    all: unfold bind at 1, modify; simpl.
    all: destruct Hs as (Hlt & Hout & Hjs & Hts); rewrite Hjobs in Hjs.
    all: apply Forall_cons in Hjs as [Hq Hjs].
    + apply resume_setup_abandoned; [done|].
      unfold abandoned, outcome_of in *. by destruct s.
    + assert (stable (preserving (abandoned p)) (react w k settled)) as Hreact
        by stable_with abandoned_leaf.
      apply Hreact. unfold abandoned, outcome_of in *. by destruct s.
  - (* a timer *)
    intros s Hs. unfold bind at 1, gets. simpl.
    destruct (earliest (timers s)) as [[i [due action]]|] eqn:He; [|done].
    apply earliest_elem in He. unfold bind, modify. simpl.
    destruct Hs as (Hlt & Hout & Hjs & Hts).
    apply run_timer_abandoned.
    + rewrite Forall_forall in Hts.
      apply (Hts (due, action)). by eapply list_elem_of_lookup_2.
    + unfold abandoned, outcome_of in *. destruct s; simpl in *.
      repeat split; try done. by apply Forall_delete.
Qed.

Lemma run_abandoned (p : PromiseId) (evs : list (World * Event)) (s : Session) :
  abandoned p s → abandoned p (run evs s).
Proof.
  revert s. induction evs as [|[w ev] evs IH]; intros s Hs; [done|].
  simpl. apply IH. unfold step.
  pose proof (handle_event_abandoned p w ev s Hs) as Hs'.
  destruct (handle_event w ev s) as [[[]|e] s']; simpl in Hs'; [done|].
  apply (abandoned_quiet p s'); by destruct s'.
Qed.

(** X21. A pending promise of readiness that is left with neither a
    queued setup nor a timer of a startup animation to settle it, as
    after a ready listener has thrown, stays pending for good: whatever
    is called afterwards, [close] and new setups included, it is never
    settled, so the calls that await it ([setLeds] called during the
    startup) are never answered. *)
Theorem abandoned_promise_stays_pending (p : PromiseId) (s : Session)
    (evs : list (World * Event)) :
  abandoned p s →
  outcome_of (run evs s) p = None ∧ abandoned p (run evs s).
Proof.
  intros Hs. pose proof (run_abandoned p evs s Hs) as Hrun.
  split; [|done]. by destruct Hrun as (_ & Hout & _).
Qed.

Lemma abandoned_promise_stays_pending_witness :
  let s := run ([ (plugged, CallOnReady (throwing 2 7));
                  (plugged, CallSetLeds true false false false); (plugged, Microtask) ]
                ++ replicate 7 (plugged, Timer)) Buzzer in
  let evs := [ (plugged, Microtask); (plugged, CallSetLeds false true false false);
               (plugged, Microtask); (plugged, CallClose);
               (plugged, CallOnPress (listening 1)); (plugged, Microtask) ] in
  outcome_of (run evs s) 0 = None ∧ abandoned 0 (run evs s).
Proof.
  intros s evs. apply (abandoned_promise_stays_pending 0 s evs).
  unfold abandoned. vm_compute. repeat split; first [done|constructor].
Defined.

(** ** Errors of the setup *)

Lemma error_objects_app (t1 t2 : list Effect) :
  error_objects_delivered (t1 ++ t2)
  = error_objects_delivered t1 ++ error_objects_delivered t2.
Proof. apply omap_app. Qed.

Lemma error_objects_none (tr : list Effect) :
  Forall no_error_object tr → error_objects_delivered tr = [].
Proof.
  induction 1 as [|fx tr Hfx _ IH]; [done|].
  destruct fx as [| | | | |cb [msg|err]| | | | | | | |]; try done; exact IH.
Qed.

Lemma openAndClaim_no_error_object (w : World) :
  stable (logging no_error_object) (openAndClaim w).
Proof. stable_with logging_leaf. Qed.

Lemma setupBuzzListener_resume_no_error_object (w : World) (opened : Result unit) :
  stable (logging no_error_object) (setupBuzzListener_resume w opened).
Proof. stable_with logging_leaf. Qed.

Lemma openAndClaim_keeps_ee (w : World) : stable (keep ee) (openAndClaim w).
Proof. stable_with keep_leaf. Qed.

(** The first call of [onError] on a session that has not started a
    setup. *)
Lemma onError_starts_the_setup (w : World) (cb : Callback ErrorPayload) (s : Session) :
  isReady s = false →
  readyPromise s = None →
  let p := length (promises s) in
  let s1 := step w (CallOnError cb) s in
  jobs s1 = jobs s ++ [ResumeSetup p (openAndClaim w s).1] ∧
  promises s1 = promises s ++ [{| outcome := None; reactions := [CatchCall cb] |}] ∧
  error_listeners (ee s1) = error_listeners (ee s) ++ [cb] ∧
  ∃ tr, trace s1 = trace s ++ tr ∧ error_objects_delivered tr = [].
Proof.
  intros Hready Hrp p s1.
  destruct (openAndClaim_footprint w s) as [_ Hlife].
  pose proof (openAndClaim_keeps_ee w s) as Hee.
  destruct (openAndClaim_no_error_object w s) as (tr & Htr & Hnone).
  unfold keep, lifecycle in *. injection Hlife as Hps Hjs _ _.
  assert (s1 = set_ee (on_error_listeners (λ ls, ls ++ [cb]) (ee s))
                 (set_promises
                    (promises s ++ [{| outcome := None; reactions := [CatchCall cb] |}])
                    (set_trace (trace s ++ tr ++ [FxAwait "onError" (Shared p)])
                       (set_readyPromise (Some p)
                          (set_jobs (jobs s ++ [ResumeSetup p (openAndClaim w s).1])
                             (openAndClaim w s).2))))) as ->.
  { subst s1 p. unfold step, handle_event, onError, bind at 1, await_ready, bind at 1.
    rewrite ensureReady_eq, Hready, Hrp. cbv zeta.
    destruct (openAndClaim w s) as [opened s0]. simpl in *.
    unfold bind, log, modify, chain, gets. simpl.
    rewrite lookup_app_r by done. rewrite Nat.sub_diag. simpl.
    destruct s0; simpl in *. subst.
    rewrite insert_app_r_alt by done. rewrite Nat.sub_diag. simpl.
    by rewrite <- app_assoc. }
  repeat split; try by destruct (openAndClaim w s).2.
  exists (tr ++ [FxAwait "onError" (Shared p)]). split.
  - by destruct (openAndClaim w s).2.
  - by rewrite error_objects_app, (error_objects_none tr Hnone).
Qed.

(** The microtask of a setup that fails, heard by error listeners none of
    which throws. *)
Lemma resume_setup_heard (w : World) (p : PromiseId) (opened : Result unit)
    (s0 : Session) (cause : Exn) (ks : list Reaction) :
  (setupBuzzListener_resume w opened s0).1 = Throw cause →
  promises s0 !! p = Some {| outcome := None; reactions := ks |} →
  supervised (ee s0) →
  let s1 := (setupBuzzListener_resume w opened s0).2 in
  ∃ inner,
    cause = setup_error inner ∧
    resume_setup w p opened s0 =
      (Return tt,
       set_jobs (jobs s0 ++ map (λ k, React k (Throw (setup_error cause))) ks)
         (set_promises (<[p := rejected (setup_error cause)]> (promises s0))
            (set_trace (trace s1 ++ FxEmitError (EExn (setup_error cause))
                          :: map (λ l, FxDeliverError (cb_id l) (EExn (setup_error cause)))
                               (error_listeners (ee s0))) s1))).
Proof.
  intros Hfail Hp Hsup s1.
  destruct (setupBuzzListener_resume_error w opened s0 cause Hfail) as [inner Hcause].
  exists inner. split; [done|].
  destruct (setupBuzzListener_resume_bookkeeping w opened s0) as [_ Hbook].
  fold s1 in Hbook. unfold keep, bookkeeping in Hbook.
  injection Hbook as Hprom Hjobs _ _ Hee.
  assert (message_or cause "Setup failed" = "Buzzers setup failed") as Hmsg
    by (by rewrite Hcause).
  unfold resume_setup, bind at 1, attempt, try_catch. unfold bind at 1.
  subst s1. destruct (setupBuzzListener_resume w opened s0) as [r s1].
  simpl in *. subst r. rewrite Hmsg. fold (setup_error cause).
  unfold bind at 1. rewrite emit_error_heard by (by rewrite Hee).
  unfold throw.
  rewrite (settle_pending p _ ks) by (destruct s1; simpl in *; congruence).
  f_equal. destruct s1; simpl in *. by subst.
Qed.

Lemma step_microtask_setup (w : World) (s : Session) (p : PromiseId)
    (opened : Result unit) (queue : list Job) (s' : Session) :
  jobs s = ResumeSetup p opened :: queue →
  resume_setup w p opened (set_jobs queue s) = (Return tt, s') →
  step w Microtask s = s'.
Proof.
  intros Hjobs Hrun. unfold step, handle_event, bind at 1, gets. simpl.
  rewrite Hjobs. unfold bind at 1, modify. simpl. by rewrite Hrun.
Qed.

Lemma step_microtask_catch (w : World) (s : Session) (cb : Callback ErrorPayload)
    (err : Exn) (queue : list Job) :
  jobs s = React (CatchCall cb) (Throw err) :: queue →
  cb_run cb (EExn err) = None →
  step w Microtask s =
    set_trace (trace s ++ [FxDeliverError (cb_id cb) (EExn err)]) (set_jobs queue s).
Proof.
  intros Hjobs Hcb. unfold step, handle_event, bind at 1, gets. simpl.
  rewrite Hjobs. unfold bind, modify, log, modify. simpl. rewrite Hcb.
  by destruct s.
Qed.

(** X22. When [onError] is the call that starts a setup, on a session
    without error listeners and with an empty microtask queue, its
    callback never throws, and that setup fails, the callback is handed the
    setup error twice: once as listener of the error event that the
    [catch] of [ensureReady] publishes, and once more by the [catch] that
    [onError] itself chains on the promise.  Both times it is the same
    error, [Buzzers setup failed] with the error of [setupBuzzListener] as
    its cause; no other error object is delivered. *)
Theorem onError_hears_the_setup_error_twice
    (w : World) (cb : Callback ErrorPayload) (s : Session) :
  isReady s = false →
  readyPromise s = None →
  jobs s = [] →
  error_listeners (ee s) = [] →
  (∀ payload, cb_run cb payload = None) →
  claimable w && listenable w = false →
  let s' := run [(w, CallOnError cb); (w, Microtask); (w, Microtask)] s in
  ∃ root tr,
    trace s' = trace s ++ tr ∧
    error_objects_delivered tr =
      [ (cb_id cb, setup_error (setup_error root));
        (cb_id cb, setup_error (setup_error root)) ] ∧
    outcome_of s' (length (promises s)) = Some (Throw (setup_error (setup_error root))).
Proof.
  intros Hready Hrp Hjobs Hls Hcb Hw s'. subst s'. simpl run.
  destruct (onError_starts_the_setup w cb s Hready Hrp)
    as (Hj1 & Hp1 & Hl1 & tr1 & Htr1 & Hobj1).
  set (s1 := step w (CallOnError cb) s) in *.
  set (p := length (promises s)) in *.
  set (opened := (openAndClaim w s).1) in *.
  rewrite Hjobs in Hj1. rewrite Hls in Hl1. simpl in Hj1, Hl1.
  set (s0 := set_jobs [] s1).
  assert (∃ cause, (setupBuzzListener_resume w opened s0).1 = Throw cause)
    as [cause Hfail].
  { destruct opened as [[]|e0] eqn:Hopened.
    - destruct (claimable w) eqn:Hclaim.
      + simpl in Hw.
        destruct (setupBuzzListener_resume_fails w s0 Hw) as (c & tr & Hrun & _).
        exists (setup_error c). by rewrite Hrun.
      + by destruct (openAndClaim_fails w s Hclaim).
    - exists (setup_error e0). by destruct s0. }
  assert (promises s0 !! p = Some {| outcome := None; reactions := [CatchCall cb] |})
    as Hp0.
  { replace (promises s0) with (promises s1) by (by destruct s1).
    rewrite Hp1, lookup_app_r by done. by rewrite Nat.sub_diag. }
  assert (supervised (ee s0)) as Hsup.
  { replace (ee s0) with (ee s1) by (by destruct s1). unfold supervised.
    rewrite Hl1. split; [done|]. intros payload. by repeat constructor. }
  destruct (resume_setup_heard w p opened s0 cause [CatchCall cb] Hfail Hp0 Hsup)
    as (root & Hcause & Hrun).
  destruct (setupBuzzListener_resume_no_error_object w opened s0) as (tr2 & Htr2 & Hobj2).
  destruct (setupBuzzListener_resume_bookkeeping w opened s0) as [_ Hbook].
  set (s2 := (setupBuzzListener_resume w opened s0).2) in *. clearbody s2.
  rewrite (step_microtask_setup w s1 p opened [] _ Hj1 Hrun).
  replace (ee s0) with (ee s1) by (by destruct s1). rewrite Hl1.
  replace (jobs s0) with (@nil Job) by (by destruct s1).
  replace (promises s0) with (promises s1) by (by destruct s1).
  replace (trace s0) with (trace s1) in Htr2 by (by destruct s1).
  set (ce := setup_error cause) in *. simpl map.
  set (s3 := set_jobs _ _).
  rewrite (step_microtask_catch w s3 cb ce []); [|by destruct s2|done].
  exists root, (tr1 ++ tr2 ++ [FxEmitError (EExn ce); FxDeliverError (cb_id cb) (EExn ce)]
                ++ [FxDeliverError (cb_id cb) (EExn ce)]).
  subst ce cause. split; [|split].
  - unfold s3. destruct s2; simpl in *. rewrite Htr2, Htr1.
    by rewrite <- !app_assoc.
  - rewrite !error_objects_app, Hobj1, (error_objects_none tr2 Hobj2). done.
  - unfold outcome_of, s3.
    replace (promises (set_trace _ _))
      with (<[p := rejected (setup_error (setup_error root))]> (promises s1))
      by (by destruct s2).
    rewrite list_lookup_insert_eq; [done|].
    rewrite Hp1, length_app. simpl. lia.
Qed.

Lemma onError_hears_the_setup_error_twice_witness :
  let s' := run [ (unplugged, CallOnError (listening 1)); (unplugged, Microtask);
                  (unplugged, Microtask) ] Buzzer in
  ∃ root tr,
    trace s' = trace Buzzer ++ tr ∧
    error_objects_delivered tr =
      [ (cb_id (listening (A := ErrorPayload) 1), setup_error (setup_error root));
        (cb_id (listening (A := ErrorPayload) 1), setup_error (setup_error root)) ] ∧
    outcome_of s' (length (promises Buzzer)) = Some (Throw (setup_error (setup_error root))).
Proof.
  apply (onError_hears_the_setup_error_twice unplugged (listening 1) Buzzer); reflexivity.
Defined.

(** Without a dongle, the error that the callback hears twice does not
    name the missing dongle: the root of its causes is the unhandled-error
    exception of the emitter. *)
Example missing_dongle_heard_twice :
  let s' := run [ (unplugged, CallOnError (listening 1)); (unplugged, Microtask);
                  (unplugged, Microtask) ] Buzzer in
  let e := setup_error (setup_error
             (UnhandledError "Failed to open the connection to the dongle.")) in
  error_objects_delivered (trace s') = [(1, e); (1, e)].
Proof. vm_compute. reflexivity. Qed.

(** ** Unsubscribing *)

Lemma last_index_None {A} (same : A → bool) (l : list A) :
  last_index same l = None ↔ Forall (λ x, same x = false) l.
Proof.
  induction l as [|x l IH]; simpl; [by split; [constructor|]|].
  destruct (last_index same l) as [i|].
  - split; [done|]. intros Hall. apply Forall_cons in Hall as [_ Hall].
    by apply IH in Hall.
  - destruct (same x) eqn:Hx.
    + split; [done|]. intros Hall. apply Forall_cons in Hall as [Hx' _]. congruence.
    + split; [|done]. intros _. constructor; [done|by apply IH].
Qed.

Lemma last_index_Some {A} (same : A → bool) (l : list A) (i : nat) :
  last_index same l = Some i →
  ∃ x, l !! i = Some x ∧ same x = true ∧ Forall (λ y, same y = false) (drop (S i) l).
Proof.
  revert i. induction l as [|x l IH]; intros i; simpl; [done|].
  destruct (last_index same l) as [j|] eqn:Hl.
  - intros [= <-]. destruct (IH j eq_refl) as (y & Hy & Hsame & Hrest).
    by exists y.
  - destruct (same x) eqn:Hx; [|done]. intros [= <-]. exists x.
    repeat split; [done|]. simpl. by apply last_index_None.
Qed.

(** With handlers that are all different, the position of a handler is the
    position of its only registration. *)
Lemma last_index_NoDup (hs : list HandlerId) (i : nat) (h : HandlerId) :
  NoDup hs → hs !! i = Some h →
  last_index (λ h', bool_decide (h' = h)) hs = Some i.
Proof.
  intros Hnd Hi.
  destruct (last_index _ hs) as [j|] eqn:Hj.
  - apply last_index_Some in Hj as (h' & Hj & Hsame & _).
    apply bool_decide_eq_true in Hsame as ->.
    f_equal. by eapply NoDup_lookup.
  - apply last_index_None in Hj. rewrite Forall_forall in Hj.
    specialize (Hj h (list_elem_of_lookup_2 _ _ _ Hi)).
    by rewrite bool_decide_eq_false in Hj.
Qed.

Lemma last_index_absent (hs : list HandlerId) (h : HandlerId) :
  h ∉ hs → last_index (λ h', bool_decide (h' = h)) hs = None.
Proof.
  intros Hh. apply last_index_None, Forall_forall. intros h' Hin.
  apply bool_decide_eq_false. by intros ->.
Qed.

Lemma handle_event_keeps_ee (w : World) (ev : Event) :
  subscribed ev = id → stable (keep ee) (handle_event w ev).
Proof.
  intros Hev. destruct ev; unfold handle_event;
    autounfold with ops api; unfold new_promise, chain, settle;
    try stable_with keep_leaf.
  all: exfalso; apply (f_equal (λ f, f (ee Buzzer))) in Hev; vm_compute in Hev; done.
Qed.

Lemma step_subscribed (w : World) (ev : Event) (s : Session) :
  ee (step w ev s) = subscribed ev (ee s).
Proof.
  unfold step.
  destruct ev; simpl subscribed.
  3-7: unfold handle_event.
  3: { unfold onReady, modify. by destruct s. }
  3: { destruct (subscribe_after_await w "onPress" CatchEmitError
                   (on_press_listeners (λ ls, ls ++ [{| via := ViaOnPress; consumer := callback |}])) s)
         as (s' & Hrun & Hee).
       unfold onPress. by rewrite Hrun. }
  3: { destruct (subscribe_after_await w "onRelease" CatchEmitError
                   (on_release_listeners (λ ls, ls ++ [{| via := ViaOnRelease; consumer := callback |}])) s)
         as (s' & Hrun & Hee).
       unfold onRelease. by rewrite Hrun. }
  3: { destruct (subscribe_after_await w "onChange" CatchEmitError
                (on_press_listeners
                   (λ ls, ls ++ [{| via := ViaOnChange; consumer := callback |}])) s)
         as (s1 & Hrun & Hee).
       unfold onChange. unfold bind at 1. unfold bind at 1 in Hrun.
       destruct (await_ready w "onChange" CatchEmitError s) as [[[]|e] s0]; [|done].
       unfold bind, modify in *. injection Hrun as <-.
       simpl in *. by rewrite Hee. }
  3: { destruct (subscribe_after_await w "onError" (CatchCall callback)
                   (on_error_listeners (λ ls, ls ++ [callback])) s)
         as (s' & Hrun & Hee).
       unfold onError. by rewrite Hrun. }
  all: lazymatch goal with
       | |- context [handle_event ?w0 ?ev ?s0] =>
           pose proof (handle_event_keeps_ee w0 ev eq_refl s0) as Hk; unfold keep in Hk;
           destruct (handle_event w0 ev s0) as [[[]|e] s']; simpl in Hk |- *;
           [done|by destruct s']
       end.
Qed.

Lemma last_index_bound {A} (same : A → bool) (l : list A) (i : nat) :
  last_index same l = Some i → i < length l.
Proof.
  intros Hi. apply last_index_Some in Hi as (x & Hx & _).
  by eapply lookup_lt_Some.
Qed.

Lemma remove_at_length {A B} (same : A → bool) (hs : list A) (ls : list B) :
  length hs = length ls →
  length (remove_at (last_index same hs) hs) = length (remove_at (last_index same hs) ls).
Proof.
  intros Hlen. destruct (last_index same hs) as [i|] eqn:Hi; simpl; [|done].
  apply last_index_bound in Hi.
  rewrite !length_delete; [lia| |]; apply lookup_lt_is_Some; lia.
Qed.

Lemma remove_at_NoDup {A} (i : option nat) (hs : list A) :
  NoDup hs → NoDup (remove_at i hs).
Proof.
  destruct i as [i|]; simpl; [|done]. intros Hnd. apply (sublist_NoDup (delete i hs) hs); first [exact Hnd|apply sublist_delete].
Qed.

Lemma remove_at_Forall {A} (P : A → Prop) (i : option nat) (hs : list A) :
  Forall P hs → Forall P (remove_at i hs).
Proof.
  destruct i as [i|]; simpl; [|done]. apply Forall_delete.
Qed.

Lemma filter_other_handlers {B} (h : HandlerId) (hs : list HandlerId) (ls : list B) :
  h ∉ hs → filter (λ x, x.1 ≠ h) (zip hs ls) = zip hs ls.
Proof.
  revert ls. induction hs as [|h0 hs IH]; intros ls Hh; [done|].
  destruct ls as [|l0 ls]; [done|]. simpl.
  apply not_elem_of_cons in Hh as [Hne Hh].
  rewrite filter_cons_True by (simpl; congruence). by rewrite IH.
Qed.

(** Removing the registration of a handler from a channel removes the
    listener that the handler stands for, and no other. *)
Lemma remove_at_filter {B} (h : HandlerId) (hs : list HandlerId) (ls : list B) :
  NoDup hs →
  let i := last_index (λ h', bool_decide (h' = h)) hs in
  zip (remove_at i hs) (remove_at i ls) = filter (λ x, x.1 ≠ h) (zip hs ls).
Proof.
  intros Hnd. revert ls. induction Hnd as [|h0 hs Hh0 Hnd IH]; intros ls; [done|].
  destruct ls as [|l0 ls].
  { cbv zeta. generalize (last_index (λ h', bool_decide (h' = h)) (h0 :: hs)).
    intros i. replace (remove_at i (@nil B)) with (@nil B) by (by destruct i as [[|?]|]).
    by destruct (remove_at i (h0 :: hs)). }
  simpl. destruct (decide (h0 = h)) as [->|Hne].
  - rewrite last_index_absent by done. case_bool_decide; [|done].
    simpl. rewrite filter_cons_False by (simpl; tauto).
    by rewrite filter_other_handlers.
  - rewrite filter_cons_True by done. specialize (IH ls). simpl in IH.
    destruct (last_index _ hs) as [i|]; simpl in *.
    + by rewrite IH.
    + case_bool_decide; [done|]. simpl. by rewrite <- IH.
Qed.

Lemma turn_aligned (w : World) (ev : Event) (t : Tracked) :
  aligned t → aligned (turn w ev t).2.
Proof.
  intros (Hp & Hr & Hnp & Hnr & Hcp & Hcr).
  assert (∀ hs, Forall (λ h, h < created (handlers t)) hs →
                Forall (λ h, h < S (created (handlers t))) hs) as Hmono.
  { intros hs Hall. eapply Forall_impl; [exact Hall|]. simpl. lia. }
  assert (∀ hs, Forall (λ h, h < created (handlers t)) hs →
                Forall (λ h, h < S (created (handlers t))) (hs ++ [created (handlers t)]))
    as Hsnoc.
  { intros hs Hall. apply Forall_app. split; [by apply Hmono|]. repeat constructor. }
  assert (∀ hs, NoDup hs → Forall (λ h, h < created (handlers t)) hs →
                NoDup (hs ++ [created (handlers t)])) as Hfresh.
  { intros hs Hnd Hall. apply NoDup_app. repeat split; [done| |apply NoDup_singleton].
    intros h Hin ->%list_elem_of_singleton. rewrite Forall_forall in Hall.
    specialize (Hall _ Hin). lia. }
  unfold aligned, turn.
  destruct ev; cbn [snd session handlers press_handlers release_handlers created];
    rewrite step_subscribed; simpl; rewrite ?length_app; simpl;
    repeat split; auto; lia.
Qed.

Lemma unsubscribe_aligned (u : Unsubscription) (t : Tracked) :
  aligned t → aligned (unsubscribe u t).
Proof.
  assert (∀ h t, aligned t → aligned (off_press h t)) as Hpress.
  { intros h [s hs] (Hp & Hr & Hnp & Hnr & Hcp & Hcr). unfold aligned, off_press.
    destruct s as [e]; simpl in *.
    repeat split; auto using remove_at_length, remove_at_NoDup, remove_at_Forall. }
  assert (∀ h t, aligned t → aligned (off_release h t)) as Hrelease.
  { intros h [s hs] (Hp & Hr & Hnp & Hnr & Hcp & Hcr). unfold aligned, off_release.
    destruct s as [e]; simpl in *.
    repeat split; auto using remove_at_length, remove_at_NoDup, remove_at_Forall. }
  destruct u; simpl; auto.
Qed.

Lemma play_aligned (actions : list Action) (t : Tracked) :
  aligned t → aligned (play actions t).
Proof.
  revert t. induction actions as [|a actions IH]; intros t Ht; [done|].
  simpl. apply IH. destruct a; [by apply turn_aligned|by apply unsubscribe_aligned].
Qed.

Lemma aligned_Buzzer : aligned tracked_Buzzer.
Proof. unfold aligned. simpl. repeat split; constructor. Qed.

Lemma remove_at_absent (h : HandlerId) (hs : list HandlerId) :
  NoDup hs → h ∉ remove_at (last_index (λ h', bool_decide (h' = h)) hs) hs.
Proof.
  induction 1 as [|h0 hs Hh0 Hnd IH]; [by apply not_elem_of_nil|].
  simpl. destruct (last_index _ hs) as [i|] eqn:Hi; simpl in *.
  - apply last_index_Some in Hi as (h' & Hlook & ->%bool_decide_eq_true & _).
    apply not_elem_of_cons. split; [|done].
    intros ->. apply Hh0. by eapply list_elem_of_lookup_2.
  - case_bool_decide; simpl; [by subst|].
    apply not_elem_of_cons. split; [congruence|done].
Qed.

Lemma off_press_absent (h : HandlerId) (t : Tracked) :
  h ∉ press_handlers (handlers t) → off_press h t = t.
Proof.
  intros Hh. unfold off_press. rewrite last_index_absent by done.
  by destruct t as [[[] ? ? ? ? ? ? ? ? ? ? ? ? ?] []].
Qed.

Lemma off_release_absent (h : HandlerId) (t : Tracked) :
  h ∉ release_handlers (handlers t) → off_release h t = t.
Proof.
  intros Hh. unfold off_release. rewrite last_index_absent by done.
  by destruct t as [[[] ? ? ? ? ? ? ? ? ? ? ? ? ?] []].
Qed.

Lemma last_index_snoc {A} (same : A → bool) (l : list A) (x : A) :
  same x = true → last_index same (l ++ [x]) = Some (length l).
Proof.
  intros Hx. induction l as [|y l IH]; simpl; [by rewrite Hx|by rewrite IH].
Qed.

Lemma delete_snoc {A} (l : list A) (x : A) : delete (length l) (l ++ [x]) = l.
Proof. induction l as [|y l IH]; simpl; [done|by rewrite IH]. Qed.

(** X23. The function that [onPress], [onRelease] or [onChange] returned
    removes the handler of its own subscription and nothing else, however
    many subscriptions, also of the same callback, were made and undone
    before: on each channel the other handlers keep their listeners and
    their order, and the ready and the error listeners are left alone.
    Every listener of the two channels has its handler. *)
Theorem unsubscribe_removes_its_handler_only (actions : list Action) (h : HandlerId) :
  let t := play actions tracked_Buzzer in
  let others := filter (λ x : HandlerId * ButtonListener, x.1 ≠ h) in
  (length (press_handlers (handlers t)) = length (press_listeners (ee (session t))) ∧
   length (release_handlers (handlers t)) = length (release_listeners (ee (session t)))) ∧
  (press_subscriptions (unsubscribe (OffPress h) t) = others (press_subscriptions t) ∧
   release_subscriptions (unsubscribe (OffPress h) t) = release_subscriptions t) ∧
  (press_subscriptions (unsubscribe (OffRelease h) t) = press_subscriptions t ∧
   release_subscriptions (unsubscribe (OffRelease h) t) = others (release_subscriptions t)) ∧
  (press_subscriptions (unsubscribe (OffChange h) t) = others (press_subscriptions t) ∧
   release_subscriptions (unsubscribe (OffChange h) t) = others (release_subscriptions t)) ∧
  (∀ u, ready_listeners (ee (session (unsubscribe u t))) = ready_listeners (ee (session t))) ∧
  (∀ handler u, u ∈ [OffPress handler; OffRelease handler; OffChange handler] →
     error_listeners (ee (session (unsubscribe u t))) = error_listeners (ee (session t))).
Proof.
  intros t others.
  destruct (play_aligned actions _ aligned_Buzzer) as (Hp & Hr & Hnp & Hnr & _).
  fold t in Hp, Hr, Hnp, Hnr.
  pose proof (remove_at_filter (B := ButtonListener) h _
                (press_listeners (ee (session t))) Hnp) as Hpress.
  pose proof (remove_at_filter (B := ButtonListener) h _
                (release_listeners (ee (session t))) Hnr) as Hrelease.
  cbv zeta in Hpress, Hrelease.
  unfold press_subscriptions, release_subscriptions, others.
  destruct t as [[[] ? ? ? ? ? ? ? ? ? ? ? ? ?] []]; simpl in *.
  repeat split; try done.
  - by intros [].
  - intros handler u Hu. repeat (apply elem_of_cons in Hu as [->|Hu]; [done|]).
    by apply elem_of_nil in Hu.
Qed.

Lemma ee_set_ee (e : EventEmitter) (s : Session) : ee (set_ee e s) = e.
Proof. done. Qed.

(** X24. Calling the function that a subscription returned, before
    anything else happens, leaves the listeners of every channel as they
    were before the subscription. *)
Theorem unsubscribing_at_once_restores_the_listeners
    (actions : list Action) (w : World) (ev : Event) (u : Unsubscription) :
  let t := play actions tracked_Buzzer in
  (turn w ev t).1 = Some u →
  ee (session (unsubscribe u (turn w ev t).2)) = ee (session t) ∧
  press_handlers (handlers (unsubscribe u (turn w ev t).2)) = press_handlers (handlers t) ∧
  release_handlers (handlers (unsubscribe u (turn w ev t).2)) = release_handlers (handlers t).
Proof.
  intros t.
  destruct (play_aligned actions _ aligned_Buzzer) as (Hp & Hr & _).
  fold t in Hp, Hr. unfold turn.
  destruct ev; cbn [fst snd]; intros [= <-];
    unfold unsubscribe, off_press, off_release, off_error;
    cbn [session handlers press_handlers release_handlers created];
    repeat (rewrite ?ee_set_ee, ?step_subscribed;
            cbn [subscribed session handlers press_handlers release_handlers created]);
    destruct (ee (session t)) as [pl rl rdl el]; simpl in Hp, Hr;
    unfold on_press_listeners, on_release_listeners, on_error_listeners;
    cbn [press_listeners release_listeners ready_listeners error_listeners];
    rewrite ?ee_set_ee;
    cbn [press_listeners release_listeners ready_listeners error_listeners];
    rewrite !last_index_snoc by (by apply bool_decide_eq_true);
    cbn [remove_at]; rewrite ?delete_snoc, ?Hp, ?Hr, ?delete_snoc.
  all: done.
Qed.

Lemma unsubscribing_at_once_restores_the_listeners_witness :
  (turn plugged (CallOnChange (listening 1)) (play [] tracked_Buzzer)).1
    = Some (OffChange 0) ∧
  ee (session (unsubscribe (OffChange 0)
                 (turn plugged (CallOnChange (listening 1)) (play [] tracked_Buzzer)).2))
    = ee (session (play [] tracked_Buzzer)).
Proof.
  split; [reflexivity|].
  apply (unsubscribing_at_once_restores_the_listeners
           [] plugged (CallOnChange (listening 1)) (OffChange 0)).
  reflexivity.
Defined.

(** X25. Calling the function that [onPress], [onRelease] or [onChange]
    returned a second time changes nothing: its handler is gone, and no
    other subscription has that handler. *)
Theorem unsubscribing_a_handler_twice (actions : list Action) (h : HandlerId)
    (u : Unsubscription) :
  let t := play actions tracked_Buzzer in
  u ∈ [OffPress h; OffRelease h; OffChange h] →
  unsubscribe u (unsubscribe u t) = unsubscribe u t.
Proof.
  intros t Hu.
  destruct (play_aligned actions _ aligned_Buzzer) as (_ & _ & Hnp & Hnr & _).
  fold t in Hnp, Hnr.
  pose proof (remove_at_absent h _ Hnp) as Hp.
  pose proof (remove_at_absent h _ Hnr) as Hr.
  repeat (apply elem_of_cons in Hu as [->|Hu]); [| | |by apply elem_of_nil in Hu];
    simpl.
  - by apply off_press_absent.
  - by apply off_release_absent.
  - rewrite (off_press_absent h (off_release h (off_press h t))) by done.
    by apply off_release_absent.
Qed.

Lemma unsubscribing_a_handler_twice_witness :
  let t := play [Turn plugged (CallOnPress (listening 1));
                 Turn plugged (CallOnPress (listening 1))] tracked_Buzzer in
  unsubscribe (OffPress 0) (unsubscribe (OffPress 0) t) = unsubscribe (OffPress 0) t ∧
  length (press_listeners (ee (session (unsubscribe (OffPress 0) t)))) = 1.
Proof.
  split; [|reflexivity].
  apply (unsubscribing_a_handler_twice
           [Turn plugged (CallOnPress (listening 1));
            Turn plugged (CallOnPress (listening 1))] 0 (OffPress 0)).
  constructor.
Defined.

Lemma filter_delete_other {A} (P : A → Prop) `{∀ x, Decision (P x)}
    (l : list A) (i : nat) (x : A) :
  l !! i = Some x → ¬ P x → filter P (delete i l) = filter P l.
Proof.
  revert i. induction l as [|y l IH]; intros [|i] Hi Hx; simplify_eq/=.
  - by rewrite filter_cons_False.
  - rewrite !filter_cons. by erewrite IH.
Qed.

Lemma filter_delete_last {A} (same : A → bool) (l : list A) (i : nat) :
  last_index same l = Some i →
  length (filter (λ x, same x = true) (delete i l))
    = pred (length (filter (λ x, same x = true) l)).
Proof.
  revert i. induction l as [|y l IH]; intros i; simpl; [done|].
  destruct (last_index same l) as [j|] eqn:Hj.
  - intros [= <-]. simpl. rewrite !filter_cons. specialize (IH j eq_refl).
    apply last_index_Some in Hj as (x & Hx & Hsame & _).
    assert (0 < length (filter (λ x, same x = true) l)).
    { assert (x ∈ filter (λ x, same x = true) l) as Hin
        by (apply list_elem_of_filter; split; [done|by eapply list_elem_of_lookup_2]).
      destruct (filter _ l); [by apply elem_of_nil in Hin|simpl; lia]. }
    destruct (decide (same y = true)); simpl; lia.
  - destruct (same y) eqn:Hy; [|done]. intros [= <-]. simpl.
    by rewrite filter_cons_True.
Qed.

Lemma last_index_middle {A} (same : A → bool) (older newer : list A) (x : A) :
  same x = true → Forall (λ y, same y = false) newer →
  last_index same (older ++ x :: newer) = Some (length older).
Proof.
  intros Hx Hnewer. apply last_index_None in Hnewer.
  induction older as [|y older IH]; simpl; [by rewrite Hnewer, Hx|by rewrite IH].
Qed.

Lemma delete_middle {A} (older newer : list A) (x : A) :
  delete (length older) (older ++ x :: newer) = older ++ newer.
Proof. induction older as [|y older IH]; simpl; [done|by rewrite IH]. Qed.

(** X26. The function that [onError] returned finds the listener by the
    callback itself: each call removes one registration of the callback,
    the most recent one, whichever subscription made it, until none is
    left; the registrations of other callbacks and the other channels are
    left alone. *)
Theorem onError_unsubscribes_by_callback (cb : Callback ErrorPayload) (t : Tracked) :
  let t' := unsubscribe (OffError cb) t in
  length (registrations_of cb t') = pred (length (registrations_of cb t)) ∧
  registrations_beside cb t' = registrations_beside cb t ∧
  (∀ older newer l,
     error_listeners (ee (session t)) = older ++ l :: newer →
     cb_id l = cb_id cb → Forall (λ l', cb_id l' ≠ cb_id cb) newer →
     error_listeners (ee (session t')) = older ++ newer) ∧
  press_listeners (ee (session t')) = press_listeners (ee (session t)) ∧
  release_listeners (ee (session t')) = release_listeners (ee (session t)) ∧
  ready_listeners (ee (session t')) = ready_listeners (ee (session t)) ∧
  handlers t' = handlers t.
Proof.
  intros t'. unfold registrations_of, registrations_beside.
  subst t'. unfold unsubscribe, off_error.
  cbn [session handlers]. rewrite ee_set_ee.
  unfold on_error_listeners. cbn [press_listeners release_listeners ready_listeners
                                   error_listeners].
  set (same := λ l : Callback ErrorPayload, bool_decide (cb_id l = cb_id cb)).
  set (ls := error_listeners (ee (session t))).
  assert (∀ l : list (Callback ErrorPayload),
            filter (λ x, cb_id x = cb_id cb) l = filter (λ x, same x = true) l) as Hsame.
  { intros l. apply list_filter_iff. intros x. unfold same.
    by rewrite bool_decide_eq_true. }
  repeat split.
  - rewrite !Hsame. destruct (last_index same ls) as [i|] eqn:Hi; simpl.
    + by apply filter_delete_last.
    + apply last_index_None in Hi.
      replace (filter (λ x, same x = true) ls) with (@nil (Callback ErrorPayload)); [done|].
      symmetry. clear -Hi. induction Hi as [|x l Hx Hl IH]; [done|].
      rewrite filter_cons_False by congruence. done.
  - destruct (last_index same ls) as [i|] eqn:Hi; simpl; [|done].
    apply last_index_Some in Hi as (x & Hx & Hsamex & _).
    apply (filter_delete_other _ _ _ _ Hx).
    unfold same in Hsamex. apply bool_decide_eq_true in Hsamex. tauto.
  - intros older newer l -> Hl Hnewer.
    rewrite (last_index_middle same older newer l).
    + simpl. apply delete_middle.
    + unfold same. by apply bool_decide_eq_true.
    + eapply Forall_impl; [exact Hnewer|]. intros l' Hl'. unfold same.
      by apply bool_decide_eq_false.
Qed.

(** Two subscriptions of the same callback: the function that the first
    one returned, called twice, removes both registrations. *)
Example onError_unsubscribed_by_the_other_subscription :
  let t := play [ Turn plugged (CallOnError (listening 1));
                  Turn plugged (CallOnError (listening 2));
                  Turn plugged (CallOnError (listening 1)) ] tracked_Buzzer in
  let first := (turn plugged (CallOnError (listening 1)) tracked_Buzzer).1 in
  first = Some (OffError (listening 1)) ∧
  map cb_id (error_listeners (ee (session t))) = [1; 2; 1] ∧
  map cb_id (error_listeners (ee (session
    (play [Unsubscribe (OffError (listening 1))] t)))) = [1; 2] ∧
  map cb_id (error_listeners (ee (session
    (play [Unsubscribe (OffError (listening 1));
           Unsubscribe (OffError (listening 1))] t)))) = [2].
Proof. vm_compute. done. Qed.



